(** * SVG region colouring: a shallow embedding of [color-svg-map.py]

    The development follows the script top to bottom: the string
    primitives of Python that the script calls, dictionaries in
    insertion order, the style codec ([parse_style], [style_to_string],
    [set_fill_color]), the data-file decoder ([parse_data]), the layout
    helpers ([get_viewbox], [add_legend], [add_title]) and the colouring
    walk of [color_map] with its statistics.

    Strings are Rocq strings read as sequences of code points below 256;
    Python compares, trims and splits by code point, so the order and the
    white-space class below are the ones of [str] on that range. *)

From Stdlib Require Import String Ascii List Bool Arith Lia ZArith.
From Stdlib Require Import Sorting.Sorted Sorting.Permutation.
Import ListNotations.

Local Open Scope list_scope.
Local Open Scope string_scope.

(** ** Python string primitives *)

Module PyStr.

(** [str.isspace] on one code point below 256: TAB..CR, FS..US, space,
    NEL and NBSP. This is the class [str.strip()] and [str.split()]
    remove. *)
Definition isspace (c : ascii) : bool :=
  let n := nat_of_ascii c in
  (((9 <=? n) && (n <=? 13)) || ((28 <=? n) && (n <=? 32))
   || (n =? 133) || (n =? 160))%nat.

(** Trimming the characters of class [p] off the left and the right. *)
Fixpoint lstrip_with (p : ascii -> bool) (s : string) : string :=
  match s with
  | EmptyString => EmptyString
  | String c r => if p c then lstrip_with p r else s
  end.

Fixpoint rstrip_with (p : ascii -> bool) (s : string) : string :=
  match s with
  | EmptyString => EmptyString
  | String c r =>
      match rstrip_with p r with
      | EmptyString => if p c then EmptyString else String c EmptyString
      | r' => String c r'
      end
  end.

Definition lstrip : string -> string := lstrip_with isspace.
Definition rstrip : string -> string := rstrip_with isspace.

(** [s.strip()] *)
Definition strip (s : string) : string := rstrip (lstrip s).

(** [c in s] for a one-character [c]. *)
Fixpoint has_char (c : ascii) (s : string) : bool :=
  match s with
  | EmptyString => false
  | String a r => Ascii.eqb a c || has_char c r
  end.

(** [s.startswith(pre)] *)
Fixpoint startswith (pre s : string) : bool :=
  match pre with
  | EmptyString => true
  | String a pre' =>
      match s with
      | EmptyString => false
      | String b s' => Ascii.eqb a b && startswith pre' s'
      end
  end.

(** [sub in s] *)
Fixpoint contains (sub s : string) : bool :=
  startswith sub s
  || match s with
     | EmptyString => false
     | String _ r => contains sub r
     end.

(** [s.split(sep)] for a one-character separator: never empty, the
    empty string splits into one empty field. *)
Fixpoint split (sep : ascii) (s : string) : list string :=
  match s with
  | EmptyString => [EmptyString]
  | String c r =>
      if Ascii.eqb c sep then EmptyString :: split sep r
      else match split sep r with
           | h :: t => String c h :: t
           | [] => [String c EmptyString]
           end
  end.

(** [s.split(sep, 1)] when [sep in s]: the text before the first
    separator and the text after it; [None] when [sep] does not occur. *)
Fixpoint split1 (sep : ascii) (s : string) : option (string * string) :=
  match s with
  | EmptyString => None
  | String c r =>
      if Ascii.eqb c sep then Some (EmptyString, r)
      else match split1 sep r with
           | Some (a, b) => Some (String c a, b)
           | None => None
           end
  end.

(** [sep.join(l)] *)
Fixpoint join (sep : string) (l : list string) : string :=
  match l with
  | [] => EmptyString
  | [x] => x
  | x :: r => x ++ sep ++ join sep r
  end.

(** [s.replace(old, "")] for a two-character [old]: every occurrence,
    scanning left to right without overlap. *)
Fixpoint remove2 (a b : ascii) (s : string) : string :=
  match s with
  | EmptyString => EmptyString
  | String c t =>
      match t with
      | EmptyString => s
      | String d r =>
          if Ascii.eqb c a && Ascii.eqb d b then remove2 a b r
          else String c (remove2 a b t)
      end
  end.

(** [s.split()]: the maximal runs of non-space characters. [cur] is
    the run read so far. *)
Fixpoint split_ws_aux (cur : string) (s : string) : list string :=
  match s with
  | EmptyString => match cur with EmptyString => [] | _ => [cur] end
  | String c r =>
      if isspace c then
        match cur with
        | EmptyString => split_ws_aux EmptyString r
        | _ => cur :: split_ws_aux EmptyString r
        end
      else split_ws_aux (cur ++ String c EmptyString) r
  end.

Definition split_ws (s : string) : list string := split_ws_aux EmptyString s.

(** [s.lower()] on code points below 256: A..Z and the Latin-1 capitals
    (0xC0..0xDE without the multiplication sign) move up by 32. *)
Definition lower_char (c : ascii) : ascii :=
  let n := nat_of_ascii c in
  if (((65 <=? n) && (n <=? 90))
      || ((192 <=? n) && (n <=? 222) && negb (n =? 215)))%nat
  then ascii_of_nat (n + 32) else c.

Fixpoint lower (s : string) : string :=
  match s with
  | EmptyString => EmptyString
  | String c r => String (lower_char c) (lower r)
  end.

End PyStr.

(** ** Dictionaries in insertion order

    A Python [dict] keeps its keys in the order of their first
    insertion; assigning to a key that is present replaces the value in
    place. *)

Module Dict.

Definition dict (V : Type) : Type := list (string * V).

Section Ops.
Context {V : Type}.

Fixpoint get (k : string) (d : dict V) : option V :=
  match d with
  | [] => None
  | (k', v) :: r => if String.eqb k' k then Some v else get k r
  end.

Definition mem (k : string) (d : dict V) : bool :=
  match get k d with Some _ => true | None => false end.

(** [d[k] = v] *)
Fixpoint set (k : string) (v : V) (d : dict V) : dict V :=
  match d with
  | [] => [(k, v)]
  | (k', v') :: r =>
      if String.eqb k' k then (k', v) :: r else (k', v') :: set k v r
  end.

Definition keys (d : dict V) : list string := map fst d.

(** What every Python dictionary satisfies: one binding per key. *)
Definition wf (d : dict V) : Prop := NoDup (keys d).
End Ops.

End Dict.

Import PyStr Dict.

(** ** Style codec *)

(** One round of the loop of [parse_style]. *)
Definition parse_declaration (styles : dict string) (declaration : string)
  : dict string :=
  let declaration := strip declaration in
  match split1 ":"%char declaration with
  | Some (prop, value) => set (strip prop) (strip value) styles
  | None => styles
  end.

Definition parse_style (style_str : string) : dict string :=
  match style_str with
  | EmptyString => []
  | _ => fold_left parse_declaration (split ";"%char style_str) []
  end.

Definition style_to_string (styles : dict string) : string :=
  join ";" (map (fun kv => fst kv ++ ":" ++ snd kv) styles).

(** ** XML elements, as [xml.etree.ElementTree] holds them *)

#[local] Set Warnings "-register-all".

Inductive element : Type :=
  Element (tag : string) (attrib : dict string) (text : option string)
          (children : list element).

Definition tag (e : element) : string :=
  match e with Element t _ _ _ => t end.
Definition attrib (e : element) : dict string :=
  match e with Element _ a _ _ => a end.
Definition text (e : element) : option string :=
  match e with Element _ _ x _ => x end.
Definition children (e : element) : list element :=
  match e with Element _ _ _ cs => cs end.

(** [element.get(name)] and [element.get(name, default)] *)
Definition elem_get (e : element) (name : string) : option string :=
  get name (attrib e).
Definition elem_get_default (e : element) (name default : string) : string :=
  match elem_get e name with Some v => v | None => default end.

(** [element.set(name, value)] *)
Definition elem_set (e : element) (name value : string) : element :=
  match e with
  | Element t a x cs => Element t (set name value a) x cs
  end.

(** Truth value of an optional string: [None] and [""] are false. *)
Definition truthy (o : option string) : bool :=
  match o with
  | Some (String _ _) => true
  | _ => false
  end.

Definition set_fill_color (e : element) (color : string) : element :=
  match elem_get e "style" with
  | Some (String _ _ as style_attr) =>
      let styles := parse_style style_attr in
      let styles := set "fill" color styles in
      elem_set e "style" (style_to_string styles)
  | _ => elem_set e "fill" color
  end.

(** [element.iter()]: the element and everything below it, in document
    order. *)
Fixpoint iter (e : element) : list element :=
  match e with
  | Element _ _ _ cs => e :: flat_map iter cs
  end.

(** [root.findall(".//" + t)]: the elements strictly below [root] whose
    tag is [t], in document order. *)
Definition findall (root : element) (t : string) : list element :=
  filter (fun e => String.eqb (tag e) t) (flat_map iter (children root)).

(** [ET.SubElement(parent, ...)] once the new child is complete: it is
    the last child of [parent]. *)
Definition append_child (parent child : element) : element :=
  match parent with
  | Element t a x cs => Element t a x (cs ++ [child])
  end.

(** ** Sets of strings and sorting *)

(** [s.add(x)] on a set kept as a duplicate-free list. *)
Definition set_add (x : string) (s : list string) : list string :=
  if existsb (String.eqb x) s then s else s ++ [x].

(** [set(keys) - s] *)
Definition set_diff (ks s : list string) : list string :=
  filter (fun k => negb (existsb (String.eqb k) s)) ks.

(** [sorted(l, key=key)]: a stable sort, ascending in the string order
    of the keys. *)
Section Sorted.
Context {A : Type} (key : A -> string).

Fixpoint insert_sorted (x : A) (l : list A) : list A :=
  match l with
  | [] => [x]
  | y :: r =>
      if String.leb (key x) (key y) then x :: l
      else y :: insert_sorted x r
  end.

Definition sorted (l : list A) : list A := fold_right insert_sorted [] l.

(** The order [sorted] sorts by. *)
Definition key_le (a b : A) : Prop := String.leb (key a) (key b) = true.
End Sorted.

(** ** Region catalog and the multi-path alias table *)

Record RegionEntry : Type := { color : string; label : string }.

Definition catalog : Type := dict RegionEntry.

Definition MULTI_PATH_CLASSES : dict string :=
  [ ("AO", "Angola"); ("AR", "Argentina"); ("AU", "Australia");
    ("AZ", "Azerbaijan"); ("CA", "Canada"); ("CN", "China");
    ("DK", "Denmark"); ("GR", "Greece"); ("GB", "United Kingdom") ].

(** [{v: k for k, v in MULTI_PATH_CLASSES.items()}] *)
Definition class_to_code : dict string :=
  fold_left (fun d kv => set (snd kv) (fst kv) d) MULTI_PATH_CLASSES [].

(** ** The colouring walk *)

Record walk_state : Type := {
  colored_count : nat;
  multi_path_count : nat;
  matched_codes : list string
}.

Definition walk_init : walk_state :=
  {| colored_count := 0; multi_path_count := 0; matched_codes := [] |}.

(** How one path resolved: by its id, by its class through the alias
    table, or not at all. The colour and code are the values of the
    variables [color] and [matched_code] after the lookups. *)
Inductive resolution : Type :=
| ById (c : string) (code : string)
| ByClass (c : string) (code : string)
| NoCode.

Definition resolve (data : catalog) (path : element) : resolution :=
  let path_id := strip (elem_get_default path "id" "") in
  let path_class := strip (elem_get_default path "class" "") in
  match get path_id data with
  | Some info => ById (color info) path_id
  | None =>
      match get path_class class_to_code with
      | Some code =>
          match get code data with
          | Some info => ByClass (color info) code
          | None => NoCode
          end
      | None => NoCode
      end
  end.

(** The test guarding the default fill. *)
Definition wants_default (path : element) : bool :=
  let current_fill := elem_get path "fill" in
  let current_style := elem_get_default path "style" "" in
  negb (truthy current_fill) && negb (contains "fill:" current_style).

(** The [else] branch of "Apply color". *)
Definition apply_default (default_color : string) (path : element) : element :=
  if wants_default path then set_fill_color path default_color else path.

(** "Apply color": [c] is the colour found, [None] when no lookup hit. *)
Definition apply_color (default_color : string) (c : option string)
    (code : string) (st : walk_state) (path : element)
  : walk_state * element :=
  match c with
  | Some (String _ _ as col) =>
      ({| colored_count := S (colored_count st);
          multi_path_count := multi_path_count st;
          matched_codes := set_add code (matched_codes st) |},
       set_fill_color path col)
  | _ => (st, apply_default default_color path)
  end.

(** One round of the loop over [paths]. *)
Definition color_path (data : catalog) (default_color : string)
    (st : walk_state) (path : element) : walk_state * element :=
  match resolve data path with
  | ById c code => apply_color default_color (Some c) code st path
  | ByClass c code =>
      let st :=
        {| colored_count := colored_count st;
           multi_path_count := S (multi_path_count st);
           matched_codes := matched_codes st |} in
      apply_color default_color (Some c) code st path
  | NoCode => apply_color default_color None "" st path
  end.

(** The loop over the list [paths], returning the state and the paths
    as the loop leaves them. *)
Fixpoint color_paths (data : catalog) (default_color : string)
    (st : walk_state) (paths : list element) : walk_state * list element :=
  match paths with
  | [] => (st, [])
  | p :: r =>
      let '(st1, p') := color_path data default_color st p in
      let '(st2, r') := color_paths data default_color st1 r in
      (st2, p' :: r')
  end.

(** The same loop seen from the tree: the elements of [paths] are
    objects inside the document, so the loop rewrites the attributes of
    every element below the root whose tag is [t], in document order. *)
Section Walk.
Variables (data : catalog) (default_color t : string).

Fixpoint walk_elem (st : walk_state) (e : element) : walk_state * element :=
  match e with
  | Element tg a x cs =>
      let '(st1, e1) :=
        if String.eqb tg t then color_path data default_color st e
        else (st, e) in
      let '(st2, cs') :=
        (fix walk_list (st : walk_state) (l : list element) :=
           match l with
           | [] => (st, [])
           | c :: r =>
               let '(sta, c') := walk_elem st c in
               let '(stb, r') := walk_list sta r in
               (stb, c' :: r')
           end) st1 cs in
      (st2, Element (tag e1) (attrib e1) (text e1) cs')
  end.

Fixpoint walk_list (st : walk_state) (l : list element)
  : walk_state * list element :=
  match l with
  | [] => (st, [])
  | c :: r =>
      let '(sta, c') := walk_elem st c in
      let '(stb, r') := walk_list sta r in
      (stb, c' :: r')
  end.

Definition walk_root (st : walk_state) (root : element)
  : walk_state * element :=
  match root with
  | Element tg a x cs =>
      let '(st', cs') := walk_list st cs in
      (st', Element tg a x cs')
  end.
End Walk.

Definition SVG_PATH : string := "{http://www.w3.org/2000/svg}path".

(** The tag the walk selects: namespaced paths, or plain ones when the
    document has no namespaced path. *)
Definition path_tag (root : element) : string :=
  match findall root SVG_PATH with
  | [] => "path"
  | _ :: _ => SVG_PATH
  end.

(** ** Numbers

    [float(s)] is modelled on the text it accepts. The value kept is the
    decimal the text denotes, [mantissa * 10 ^ exp10] with its sign,
    before any rounding to a binary double: a text beyond the range of
    a double keeps its decimal where [float] gives an infinity, and two
    texts of the same double are kept apart. Which texts [float]
    accepts is exact. Arithmetic on numbers is kept as the expression
    the script evaluates, and only formatted by [str]. *)

Inductive pyfloat : Type :=
| FDec (neg : bool) (mantissa : N) (exp10 : Z)
| FInf (neg : bool)
| FNan.

Inductive num : Type :=
| NInt (z : Z)
| NFloat (f : pyfloat)
| NAdd (a b : num)
| NSub (a b : num)
| NDiv (a b : num).

Inductive exn : Type :=
| FileNotFoundError (msg : string)
| ValueError (msg : string)
| FloatValueError (arg : string)
| AttributeError
| LibraryError (what : string).

Module PyFloat.

Definition is_digit (c : ascii) : bool :=
  let n := nat_of_ascii c in ((48 <=? n) && (n <=? 57))%nat.

Definition digit_val (c : ascii) : N := N.of_nat (nat_of_ascii c - 48).

(** White space [float] trims: TAB..CR and space, and NEL and NBSP,
    which it first turns into spaces. *)
Definition float_space (c : ascii) : bool :=
  let n := nat_of_ascii c in
  (((9 <=? n) && (n <=? 13)) || (n =? 32) || (n =? 133) || (n =? 160))%nat.

(** Underscores may only stand between two digits; they are dropped.
    [prev] is the character read last. *)
Fixpoint drop_underscores (prev : ascii) (s : string) : option string :=
  match s with
  | EmptyString => if Ascii.eqb prev "_" then None else Some EmptyString
  | String c r =>
      if Ascii.eqb c "_" then
        if is_digit prev then drop_underscores c r else None
      else if Ascii.eqb prev "_" && negb (is_digit c) then None
      else option_map (String c) (drop_underscores c r)
  end.

(** The leading digits of [s], folded into [acc]; how many there were;
    and the rest of [s]. *)
Fixpoint take_digits (acc : N) (cnt : nat) (s : string) : N * nat * string :=
  match s with
  | String c r =>
      if is_digit c then take_digits (acc * 10 + digit_val c) (S cnt) r
      else (acc, cnt, s)
  | EmptyString => (acc, cnt, s)
  end.

Definition take_sign (s : string) : bool * string :=
  match s with
  | String "-" r => (true, r)
  | String "+" r => (false, r)
  | _ => (false, s)
  end.

(** [e] or [E], an optional sign and at least one digit, up to the end
    of the text; an empty rest is exponent zero. *)
Definition parse_exponent (s : string) : option Z :=
  match s with
  | EmptyString => Some 0%Z
  | String c r =>
      if Ascii.eqb c "e" || Ascii.eqb c "E" then
        let '(eneg, r1) := take_sign r in
        match take_digits 0 0 r1 with
        | (_, O, _) => None
        | (e, S _, EmptyString) =>
            Some (if eneg then (- Z.of_N e)%Z else Z.of_N e)
        | (_, S _, String _ _) => None
        end
      else None
  end.

Definition parse_decimal (neg : bool) (s : string) : option pyfloat :=
  let '(m1, n1, r1) := take_digits 0 0 s in
  let '(m2, n2, r2) :=
    match r1 with
    | String "." r => take_digits m1 0 r
    | _ => (m1, O, r1)
    end in
  match (n1 + n2)%nat with
  | O => None
  | S _ =>
      match parse_exponent r2 with
      | Some e => Some (FDec neg m2 (e - Z.of_nat n2))
      | None => None
      end
  end.

Definition parse_special (neg : bool) (s : string) : option pyfloat :=
  let l := lower s in
  if String.eqb l "inf" || String.eqb l "infinity" then Some (FInf neg)
  else if String.eqb l "nan" then Some FNan
  else None.

(** [float(s)]: outer white space trimmed, underscores between digits
    dropped, then a sign and either a decimal with an optional exponent
    or one of [inf], [infinity], [nan] in any case. [None] stands for
    its [ValueError]. *)
Definition float (s : string) : option pyfloat :=
  let s := rstrip_with float_space (lstrip_with float_space s) in
  let body :=
    if has_char "_" s then drop_underscores "000" s else Some s in
  match body with
  | None => None
  | Some b =>
      let '(neg, r) := take_sign b in
      match r with
      | String c _ =>
          if is_digit c || Ascii.eqb c "." then parse_decimal neg r
          else parse_special neg r
      | EmptyString => None
      end
  end.

End PyFloat.

Definition py_float (s : string) : exn + num :=
  match PyFloat.float s with
  | Some f => inr (NFloat f)
  | None => inl (FloatValueError s)
  end.

(** The texts on which [float] raises. *)
Definition float_rejects (s : string) : bool :=
  match PyFloat.float s with
  | Some _ => false
  | None => true
  end.

(** ** Layout helpers *)

Definition viewbox : Type := (num * num * num * num)%type.

(** [tuple(float(p) for p in parts)] for four parts: the conversions run
    left to right and the first failure is the one raised. *)
Definition float4 (a b c d : string) : exn + viewbox :=
  match py_float a with
  | inl e => inl e
  | inr x =>
      match py_float b with
      | inl e => inl e
      | inr y =>
          match py_float c with
          | inl e => inl e
          | inr w =>
              match py_float d with
              | inl e => inl e
              | inr h => inr (x, y, w, h)
              end
          end
      end
  end.

(** The fallback of [get_viewbox] to the width and height attributes. *)
Definition viewbox_from_size (root : element) : exn + viewbox :=
  match py_float (remove2 "p" "x" (elem_get_default root "width" "800")) with
  | inl e => inl e
  | inr width =>
      match py_float (remove2 "p" "x" (elem_get_default root "height" "600")) with
      | inl e => inl e
      | inr height => inr (NInt 0, NInt 0, width, height)
      end
  end.

Definition get_viewbox (root : element) : exn + viewbox :=
  match elem_get root "viewBox" with
  | Some (String _ _ as viewbox_str) =>
      match split_ws viewbox_str with
      | [a; b; c; d] => float4 a b c d
      | _ => viewbox_from_size root
      end
  | _ => viewbox_from_size root
  end.

(** One round of the loop that collects the colours of the legend: a
    colour keeps the label it was first seen with. *)
Definition legend_step (cl : dict string) (item : string * RegionEntry)
  : dict string :=
  if mem (color (snd item)) cl then cl
  else set (color (snd item)) (label (snd item)) cl.

(** The rows of the legend: the colours of the catalog, each with the
    label of the first entry that carries it. *)
Definition color_labels (data : catalog) : dict string :=
  fold_left legend_step data [].

(** [sorted(color_labels.items(), key=lambda x: x[1])] *)
Definition legend_rows (data : catalog) : list (string * string) :=
  sorted snd (color_labels data).

Section Layout.
(** [str] on the numbers the layout computes. *)
Variable str_num : num -> string.

Definition legend_rect (legend_x y_offset : num) (c : string) : element :=
  Element "rect"
    [ ("x", str_num legend_x); ("y", str_num y_offset);
      ("width", "20"); ("height", "14"); ("fill", c);
      ("stroke", "#333"); ("stroke-width", "0.5") ]
    None [].

Definition legend_text (legend_x y_offset : num) (l : string) : element :=
  Element "text"
    [ ("x", str_num (NAdd legend_x (NInt 25)));
      ("y", str_num (NAdd y_offset (NInt 11)));
      ("font-family", "sans-serif"); ("font-size", "12");
      ("fill", "#333") ]
    (Some l) [].

(** The loop "Add legend items": two children per row, [y_offset]
    growing by 20 after each row. *)
Fixpoint legend_items (legend_x y_offset : num)
    (rows : list (string * string)) : list element :=
  match rows with
  | [] => []
  | (c, l) :: r =>
      legend_rect legend_x y_offset c
      :: legend_text legend_x y_offset l
      :: legend_items legend_x (NAdd y_offset (NInt 20)) r
  end.

Definition add_legend (root : element) (data : catalog) (legend_x : num)
    (legend_y : option num) (vb : viewbox) : element :=
  let cl := color_labels data in
  let legend_y :=
    match legend_y with
    | Some y => y
    | None =>
        let '(_, _, _, vb_height) := vb in
        NSub vb_height (NInt (Z.of_nat (length cl) * 20 + 30))
    end in
  let legend_group :=
    Element "g" [("id", "legend")] None
      (legend_items legend_x legend_y (sorted snd cl)) in
  append_child root legend_group.

Definition add_title (root : element) (title_text : string) (vb : viewbox)
  : element :=
  let '(_, _, vb_width, _) := vb in
  append_child root
    (Element "text"
       [ ("x", str_num (NDiv vb_width (NInt 2))); ("y", "30");
         ("font-family", "sans-serif"); ("font-size", "24");
         ("font-weight", "bold"); ("fill", "#333");
         ("text-anchor", "middle") ]
       (Some title_text) []).

(** ** The engine: walk, legend, title, statistics *)

Record options : Type := {
  default_color : string;
  add_legend_flag : bool;
  title_text : option string;
  legend_x : num;
  legend_y : option num
}.

Record ColorStats : Type := {
  colored : nat;
  multi_path : nat;
  unmatched : nat;
  unmatched_codes : list string
}.

(** The statistics returned for a finished walk. *)
Definition make_stats (data : catalog) (st : walk_state) : ColorStats :=
  let unmatched_codes := set_diff (keys data) (matched_codes st) in
  {| colored := colored_count st;
     multi_path := multi_path_count st;
     unmatched := length unmatched_codes;
     unmatched_codes := sorted (fun x => x) unmatched_codes |}.

(** [color_map] from "Track statistics" to just before the write, on
    a parsed document and a catalog. *)
Definition color_tree (data : catalog) (opts : options) (vb : viewbox)
    (root : element) : element * ColorStats :=
  let '(st, root1) :=
    walk_root data (default_color opts) (path_tag root) walk_init root in
  let root2 :=
    if add_legend_flag opts
    then add_legend root1 data (legend_x opts) (legend_y opts) vb
    else root1 in
  let root3 :=
    match title_text opts with
    | Some (String _ _ as t) => add_title root2 t vb
    | _ => root2
    end in
  (root3, make_stats data st).

(** The engine with the view box read from the document first, as
    [color_map] does. *)
Definition color_document (data : catalog) (opts : options)
    (root : element) : exn + (element * ColorStats) :=
  match get_viewbox root with
  | inl e => inl e
  | inr vb => inr (color_tree data opts vb root)
  end.
End Layout.

(** ** The data file *)

(** What [json.load] returns. *)
Inductive json : Type :=
| JNull
| JBool (b : bool)
| JInt (z : Z)
| JFloat (f : pyfloat)
| JStr (s : string)
| JArr (l : list json)
| JObj (o : dict json).

(** An entry as [parse_data] stores it. From a JSON object the colour
    and the label are whatever values the file holds under those keys. *)
Record RawEntry : Type := { raw_color : json; raw_label : json }.

(** [value.get(k, default)] on a decoded object. *)
Definition json_get (o : dict json) (k : string) (default : json) : json :=
  match get k o with Some v => v | None => default end.

(** One round of the loop over [data.items()]. *)
Definition parse_json_item (result : dict RawEntry) (item : string * json)
  : dict RawEntry :=
  let '(code, value) := item in
  match value with
  | JStr s => set code {| raw_color := JStr s; raw_label := JStr code |} result
  | JObj o =>
      set code
        {| raw_color := json_get o "color" (JStr "#ececec");
           raw_label := json_get o "label" (JStr code) |}
        result
  | _ => result
  end.

(** The [.json] branch once the file is decoded; [data.items()] only
    exists on an object. *)
Definition parse_json (data : json) : exn + dict RawEntry :=
  match data with
  | JObj o => inr (fold_left parse_json_item o [])
  | _ => inl AttributeError
  end.

(** A row of [csv.DictReader]: the named fields, [None] where the line
    was shorter than the header. *)
Definition csv_row : Type := dict (option string).

(** [row.get(k, default).strip()] *)
Definition row_get_strip (row : csv_row) (k default : string) : exn + string :=
  match get k row with
  | Some (Some v) => inr (strip v)
  | Some None => inl AttributeError
  | None => inr (strip default)
  end.

(** The loop over the rows of the [.csv] branch. *)
Fixpoint parse_csv (result : dict RawEntry) (rows : list csv_row)
  : exn + dict RawEntry :=
  match rows with
  | [] => inr result
  | row :: rest =>
      match row_get_strip row "code" "" with
      | inl e => inl e
      | inr code =>
          match row_get_strip row "color" "#ececec" with
          | inl e => inl e
          | inr c =>
              match row_get_strip row "label" code with
              | inl e => inl e
              | inr l =>
                  parse_csv
                    (match code with
                     | EmptyString => result
                     | _ => set code {| raw_color := JStr c;
                                        raw_label := JStr l |} result
                     end)
                    rest
              end
          end
      end
  end.

(** [os.path.splitext(p)[1]] with [/] as the separator: the text from
    the last dot of the last component, unless only dots precede it
    there. [comp] is the last component, [seen] tells whether a
    character other than a dot came before the position read. *)
Fixpoint last_component (acc s : string) : string :=
  match s with
  | EmptyString => acc
  | String c r =>
      if Ascii.eqb c "/" then last_component r r
      else last_component acc r
  end.

Fixpoint ext_of (seen : bool) (comp : string) : string :=
  match comp with
  | EmptyString => EmptyString
  | String c r =>
      if Ascii.eqb c "." then
        if has_char "." r then ext_of seen r
        else if seen then comp else EmptyString
      else ext_of true r
  end.

Definition splitext_ext (p : string) : string := ext_of false (last_component p p).

(** The extensions [parse_data] knows, case aside. *)
Definition supported_ext (data_path : string) : bool :=
  let ext := lower (splitext_ext data_path) in
  String.eqb ext ".json" || String.eqb ext ".csv".

(** A catalog the engine can use: every colour and label a string. *)
Definition entry_of_raw (r : RawEntry) : option RegionEntry :=
  match raw_color r, raw_label r with
  | JStr c, JStr l => Some {| color := c; label := l |}
  | _, _ => None
  end.

Fixpoint as_catalog (raw : dict RawEntry) : option catalog :=
  match raw with
  | [] => Some []
  | (k, r) :: rest =>
      match entry_of_raw r, as_catalog rest with
      | Some e, Some c => Some ((k, e) :: c)
      | _, _ => None
      end
  end.

(** ** The whole run

    The file system and the decoders of the standard library are an
    interface: what exists, what the files decode to, and what writing
    a tree does to the file system. Reading cannot change the file
    system; only [et_write] returns a new one. A row the CSV reader
    cannot produce raises where the loop would have read it. *)

Section Run.
Variable str_num : num -> string.
Variable fs : Type.
Variable path_exists : fs -> string -> bool.
Variable json_load : fs -> string -> exn + json.
Variable csv_rows : fs -> string -> exn + list (exn + csv_row).
Variable et_parse : fs -> string -> exn + element.
Variable et_write : fs -> string -> element -> fs * option exn.

(** The rows read before the reader fails, or all of them. *)
Fixpoint read_rows (l : list (exn + csv_row)) : list csv_row * option exn :=
  match l with
  | [] => ([], None)
  | inl e :: _ => ([], Some e)
  | inr row :: r => let '(rows, err) := read_rows r in (row :: rows, err)
  end.

Definition parse_data (w : fs) (data_path : string) : exn + dict RawEntry :=
  let ext := lower (splitext_ext data_path) in
  if String.eqb ext ".json" then
    match json_load w data_path with
    | inl e => inl e
    | inr data => parse_json data
    end
  else if String.eqb ext ".csv" then
    match csv_rows w data_path with
    | inl e => inl e
    | inr l =>
        let '(rows, err) := read_rows l in
        match parse_csv [] rows, err with
        | inl e, _ => inl e
        | inr _, Some e => inl e
        | inr result, None => inr result
        end
    end
  else
    inl (ValueError ("Unsupported data format: " ++ ext
                     ++ ". Use .json or .csv")).

(** [color_map]: the file system after the call and what the call
    raised or returned. [None] marks a run the model does not follow:
    a data file holding a colour or label that is not a string. *)
Definition color_map (w : fs) (input_path data_path output_path : string)
    (opts : options) : option (fs * (exn + ColorStats)) :=
  if negb (path_exists w input_path) then
    Some (w, inl (FileNotFoundError
                    ("Input SVG file not found: " ++ input_path)))
  else if negb (path_exists w data_path) then
    Some (w, inl (FileNotFoundError
                    ("Data file not found: " ++ data_path)))
  else
    match parse_data w data_path with
    | inl e => Some (w, inl e)
    | inr raw =>
        match et_parse w input_path with
        | inl e => Some (w, inl e)
        | inr root =>
            match get_viewbox root with
            | inl e => Some (w, inl e)
            | inr vb =>
                match as_catalog raw with
                | None => None
                | Some data =>
                    let '(root', stats) :=
                      color_tree str_num data opts vb root in
                    match et_write w output_path root' with
                    | (w', Some e) => Some (w', inl e)
                    | (w', None) => Some (w', inr stats)
                    end
                end
            end
        end
    end.
End Run.

(** ** Predicates the statements use *)

(** The element carries a bare [fill] attribute. *)
Definition has_bare_fill (e : element) : bool := mem "fill" (attrib e).

(** The element carries a [style] attribute whose parsed map has a
    [fill] property. *)
Definition style_has_fill (e : element) : bool :=
  match elem_get e "style" with
  | Some s => mem "fill" (parse_style s)
  | None => false
  end.

(** A style map the codec can carry: keys and values are trimmed, no
    key holds a colon or a semicolon, no value holds a semicolon. *)
Definition clean_key (k : string) : bool :=
  String.eqb (strip k) k && negb (has_char ":" k) && negb (has_char ";" k).
Definition clean_value (v : string) : bool :=
  String.eqb (strip v) v && negb (has_char ";" v).
Definition clean_style (m : dict string) : bool :=
  forallb (fun kv => clean_key (fst kv) && clean_value (snd kv)) m.

(** The path was coloured through the alias table. *)
Definition colored_by_class (data : catalog) (p : element) : bool :=
  match resolve data p with
  | ByClass (String _ _) _ => true
  | _ => false
  end.

(** The path resolved through the alias table, whatever its colour. *)
Definition resolved_by_class (data : catalog) (p : element) : bool :=
  match resolve data p with
  | ByClass _ _ => true
  | _ => false
  end.

(** The label of the first catalog entry whose colour is [c]. *)
Definition first_label (data : catalog) (c : string) : option string :=
  match find (fun item => String.eqb (color (snd item)) c) data with
  | Some item => Some (label (snd item))
  | None => None
  end.

(** The codes the walk over [root] marks as matched. *)
Definition walk_matched (data : catalog) (dflt : string) (root : element)
  : list string :=
  matched_codes (fst (walk_root data dflt (path_tag root) walk_init root)).

(** A JSON value [parse_data] turns into an entry. *)
Definition is_entry_value (v : json) : bool :=
  match v with
  | JStr _ | JObj _ => true
  | _ => false
  end.

(** ** A file system in memory

    An instance of the interface of [color_map], for running it on
    examples: a file holds the value its decoder returns, and a written
    tree is held as it is. What the parser makes of the text the writer
    produces is [reread_of] below. *)

Module MemFS.

Inductive file : Type :=
| JsonFile (j : json)
| CsvFile (rows : list (exn + csv_row))
| SvgFile (root : element)
| OtherFile.

Definition fs : Type := dict file.

Definition path_exists (w : fs) (p : string) : bool := mem p w.

Definition json_load (w : fs) (p : string) : exn + json :=
  match get p w with
  | Some (JsonFile j) => inr j
  | Some _ => inl (LibraryError "JSONDecodeError")
  | None => inl (FileNotFoundError p)
  end.

Definition csv_rows (w : fs) (p : string) : exn + list (exn + csv_row) :=
  match get p w with
  | Some (CsvFile rows) => inr rows
  | Some _ => inl (LibraryError "csv.Error")
  | None => inl (FileNotFoundError p)
  end.

Definition et_parse (w : fs) (p : string) : exn + element :=
  match get p w with
  | Some (SvgFile root) => inr root
  | Some _ => inl (LibraryError "ParseError")
  | None => inl (FileNotFoundError p)
  end.

Definition et_write (w : fs) (p : string) (root : element) : fs * option exn :=
  (set p (SvgFile root) w, None).

Definition color_map (str_num : num -> string) :=
  color_map str_num fs path_exists json_load csv_rows et_parse et_write.

End MemFS.

(** ** Notions the proofs use *)

(** What one round does to the counters: it depends on the resolution
    of the path alone. *)
Definition walk_step (r : resolution) (st : walk_state) : walk_state :=
  match r with
  | ById (String _ _) code =>
      {| colored_count := S (colored_count st);
         multi_path_count := multi_path_count st;
         matched_codes := set_add code (matched_codes st) |}
  | ById EmptyString _ => st
  | ByClass (String _ _) code =>
      {| colored_count := S (colored_count st);
         multi_path_count := S (multi_path_count st);
         matched_codes := set_add code (matched_codes st) |}
  | ByClass EmptyString _ =>
      {| colored_count := colored_count st;
         multi_path_count := S (multi_path_count st);
         matched_codes := matched_codes st |}
  | NoCode => st
  end.

Definition walk_steps (data : catalog) (st : walk_state) (l : list element)
  : walk_state :=
  fold_left (fun st p => walk_step (resolve data p) st) l st.

(** What the resolution and the selection read of a path. *)
Definition same_key (e e' : element) : Prop :=
  tag e = tag e'
  /\ elem_get e "id" = elem_get e' "id"
  /\ elem_get e "class" = elem_get e' "class".

(** The matched codes stay a duplicate-free part of the catalog keys. *)
Definition matched_ok (data : catalog) (st : walk_state) : Prop :=
  NoDup (matched_codes st) /\ incl (matched_codes st) (keys data).

(** What the walk leaves of a path: its tag, attributes and text. *)
Definition same_attrs (e e' : element) : Prop :=
  tag e = tag e' /\ attrib e = attrib e' /\ text e = text e'.

(** The tags the walk can select. *)
Definition is_path_tag (t : string) : Prop := t = SVG_PATH \/ t = "path".

(** The distinct strings of a list, in the order of their first
    appearance. *)
Definition first_seen (l : list string) : list string :=
  fold_left (fun s k => set_add k s) l [].

(** What the engine may change of an element when it walks the paths
    tagged [t]: nothing but the [fill] and [style] attributes, and
    those only on an element tagged [t]. *)
Definition only_fill_changed (t : string) (e e' : element) : Prop :=
  tag e' = tag e
  /\ text e' = text e
  /\ length (children e') = length (children e)
  /\ (forall name, name <> "fill" -> name <> "style" ->
                   elem_get e' name = elem_get e name)
  /\ (tag e <> t -> attrib e' = attrib e).

(** The tags of the nodes the legend and the title are made of. *)
Definition layout_tag (e : element) : bool :=
  String.eqb (tag e) "g" || String.eqb (tag e) "rect"
  || String.eqb (tag e) "text".

(** A catalog whose colours the style codec can carry. *)
Definition clean_colors (data : catalog) : bool :=
  forallb (fun item => clean_value (color (snd item))) data.

(** The field [k] of a CSV row as the loop reads it, [default] standing
    in for an absent column. *)
Definition row_field (row : csv_row) (k default : string) : string :=
  match get k row with
  | Some (Some v) => strip v
  | _ => strip default
  end.

(** No column the loop reads is cut short in the row. *)
Definition row_complete (row : csv_row) : bool :=
  let present k :=
    match get k row with Some None => false | _ => true end in
  present "code" && present "color" && present "label".

(** The entry a CSV row stands for. *)
Definition csv_entry (row : csv_row) : RawEntry :=
  {| raw_color := JStr (row_field row "color" "#ececec");
     raw_label := JStr (row_field row "label" (row_field row "code" "")) |}.

(** The entry a JSON member stands for, if any. *)
Definition json_entry (code : string) (value : json) : option RawEntry :=
  match value with
  | JStr s => Some {| raw_color := JStr s; raw_label := JStr code |}
  | JObj o =>
      Some {| raw_color := json_get o "color" (JStr "#ececec");
              raw_label := json_get o "label" (JStr code) |}
  | _ => None
  end.

(** The string consists of dots only. *)
Fixpoint all_dots (s : string) : bool :=
  match s with
  | EmptyString => true
  | String c r => Ascii.eqb c "." && all_dots r
  end.

(** Some character of the string is white space. *)
Fixpoint has_space (s : string) : bool :=
  match s with
  | EmptyString => false
  | String c r => isspace c || has_space r
  end.

(** What one round of the loop leaves of a path, whatever the counters
    were. *)
Definition color_elem (data : catalog) (default_color : string)
    (p : element) : element :=
  snd (color_path data default_color walk_init p).

(** Rewriting every element tagged [t] by [f], which may change tag,
    attributes and text but not the children. *)
Fixpoint map_paths (f : element -> element) (t : string) (e : element)
  : element :=
  match e with
  | Element tg a x cs =>
      let e1 := if String.eqb tg t then f e else e in
      Element (tag e1) (attrib e1) (text e1) (map (map_paths f t) cs)
  end.

(** One round of the loop over the CSV rows, for a row that is not cut
    short: a row without a code is dropped. *)
Definition csv_step (result : dict RawEntry) (row : csv_row)
  : dict RawEntry :=
  match row_field row "code" "" with
  | EmptyString => result
  | code => set code (csv_entry row) result
  end.

(** The bindings the JSON loop makes of one member. *)
Definition json_binding (item : string * json) : list (string * RawEntry) :=
  match json_entry (fst item) (snd item) with
  | Some e => [(fst item, e)]
  | None => []
  end.

(** The counters after [n] more rounds: no counter grew by more than
    [n], and every matched code was paid for by a coloured path. *)
Definition counters_ok (n : nat) (st0 st : walk_state) : Prop :=
  colored_count st <= colored_count st0 + n
  /\ multi_path_count st <= multi_path_count st0 + n
  /\ length (matched_codes st) + colored_count st0
     <= length (matched_codes st0) + colored_count st.

(** What every entry of a CSV catalog satisfies. *)
Definition csv_entry_ok (k : string) (e : RawEntry) : Prop :=
  k <> EmptyString /\ strip k = k
  /\ exists c l, raw_color e = JStr c /\ raw_label e = JStr l
                 /\ strip c = c /\ strip l = l.

(** The fill an element shows: the [fill] property of its style when
    the style has one, else its [fill] attribute. *)
Definition effective_fill (e : element) : option string :=
  match
    match elem_get e "style" with
    | Some s => get "fill" (parse_style s)
    | None => None
    end
  with
  | Some v => Some v
  | None => elem_get e "fill"
  end.

(** The catalog colour the loop paints a path with, if any. *)
Definition resolved_color (data : catalog) (p : element) : option string :=
  match resolve data p with
  | ById (String a c) _ | ByClass (String a c) _ => Some (String a c)
  | _ => None
  end.

(** What the walk makes of a path [p], read off the result [p']. *)
Definition painted (data : catalog) (dflt : string) (p p' : element) : Prop :=
  match resolved_color data p with
  | Some c => effective_fill p' = Some c
  | None =>
      if wants_default p then effective_fill p' = Some dflt
      else attrib p' = attrib p
  end.

(** ** The written document read again

    [color_map] returns the statistics only: the document of a run is
    the file [tree.write] leaves (l.337), and a second run meets it
    through [ET.parse] (l.271). With the SVG namespace registered under
    the empty prefix (l.268) the writer prints the names of that
    namespace without a prefix and declares it as the default namespace
    on the root element; it does so exactly when a tag or an attribute
    name of the tree lies in that namespace. The parser then reads
    every element name written without a prefix as a name of the SVG
    namespace, the tags that had no namespace included. An attribute
    name written without a prefix has no namespace. Names of other
    namespaces are written with a prefix of their own and come back as
    they were. *)

Definition SVG_NS : string := "{http://www.w3.org/2000/svg}".

(** [s] without its first [len(pre)] characters. *)
Fixpoint skip (pre s : string) : string :=
  match pre, s with
  | String _ pre', String _ s' => skip pre' s'
  | _, _ => s
  end.

(** A name [{uri}local] whose [uri] is the SVG namespace; the writer
    splits a qualified name at its last closing brace. *)
Definition in_svg_ns (name : string) : bool :=
  startswith SVG_NS name && negb (has_char "}" (skip SVG_NS name)).

(** Whether the writer declares the SVG namespace as the default one. *)
Definition uses_svg_ns (root : element) : bool :=
  existsb (fun e => in_svg_ns (tag e) || existsb in_svg_ns (keys (attrib e)))
          (iter root).

(** The tag an element is read back with. *)
Definition reread_tag (declared : bool) (t : string) : string :=
  if declared && negb (startswith "{" t) then SVG_NS ++ t else t.

(** The name an attribute is read back with. *)
Definition reread_key (k : string) : string :=
  if in_svg_ns k then skip SVG_NS k else k.

Definition reread_attrs (a : dict string) : dict string :=
  map (fun kv => (reread_key (fst kv), snd kv)) a.

(** What the parser gives for an element [e] of the written tree: its
    tag, what [get] finds among its attributes, and the number of its
    children. Texts are left open. *)
Definition reread_node (declared : bool) (e e' : element) : Prop :=
  tag e' = reread_tag declared (tag e)
  /\ (forall k, elem_get e' k = get k (reread_attrs (attrib e)))
  /\ length (children e') = length (children e).

(** [doc] is a document [ET.parse] can return for the file
    [tree.write] wrote from [root]: element by element in document
    order. *)
Definition reread_of (root doc : element) : Prop :=
  Forall2 (reread_node (uses_svg_ns root)) (iter root) (iter doc).

(** The document read back when every text comes back as written. *)
Fixpoint retag (declared : bool) (e : element) : element :=
  match e with
  | Element t a x cs =>
      Element (reread_tag declared t) (reread_attrs a) x
              (map (retag declared) cs)
  end.

Definition reread (root : element) : element :=
  retag (uses_svg_ns root) root.

(** No attribute of the document has a name in the SVG namespace. *)
Definition plain_attribs (root : element) : bool :=
  forallb (fun e => negb (existsb in_svg_ns (keys (attrib e)))) (iter root).

(** What the second run reads of an element [e] of the first
    document. *)
Definition reread_path (declared : bool) (e e' : element) : Prop :=
  tag e' = reread_tag declared (tag e)
  /\ elem_get e' "id" = elem_get e "id"
  /\ elem_get e' "class" = elem_get e "class".

(** * Properties *)

(** ** Dictionaries *)

Section DictFacts.
Context {V : Type}.
Implicit Types (d : dict V) (k : string) (v : V).

Lemma get_set_same k v d : get k (set k v d) = Some v.
Proof.
  induction d as [|[k' v'] r IH]; simpl.
  - now rewrite String.eqb_refl.
  - destruct (String.eqb_spec k' k) as [->|Hne]; simpl.
    + now rewrite String.eqb_refl.
    + destruct (String.eqb_spec k' k); [contradiction|exact IH].
Qed.

Lemma get_set_other k k' v d : k <> k' -> get k (set k' v d) = get k d.
Proof.
  intros Hne. induction d as [|[k0 v0] r IH]; simpl.
  - destruct (String.eqb_spec k' k); [congruence|reflexivity].
  - destruct (String.eqb_spec k0 k') as [->|H0]; simpl.
    + destruct (String.eqb_spec k' k); [congruence|reflexivity].
    + destruct (String.eqb_spec k0 k); [reflexivity|exact IH].
Qed.

Lemma mem_set_other k k' v d : k <> k' -> mem k (set k' v d) = mem k d.
Proof. intros H. unfold mem. now rewrite get_set_other. Qed.

Lemma mem_set_same k v d : mem k (set k v d) = true.
Proof. unfold mem. now rewrite get_set_same. Qed.

Lemma mem_In k d : mem k d = true <-> In k (keys d).
Proof.
  unfold mem. induction d as [|[k' v'] r IH]; simpl.
  - split; [discriminate|tauto].
  - destruct (String.eqb_spec k' k) as [->|Hne].
    + split; auto.
    + rewrite IH. split; [auto|intros [H|H]; [contradiction|exact H]].
Qed.

Lemma mem_false_In k d : mem k d = false <-> ~ In k (keys d).
Proof.
  rewrite <- mem_In. destruct (mem k d); split; congruence.
Qed.

Lemma get_In k v d : get k d = Some v -> In (k, v) d.
Proof.
  induction d as [|[k' v'] r IH]; simpl; [discriminate|].
  destruct (String.eqb_spec k' k) as [->|Hne].
  - intros [= ->]. now left.
  - intros H. right. auto.
Qed.

Lemma set_fresh k v d : mem k d = false -> set k v d = (d ++ [(k, v)])%list.
Proof.
  unfold mem. induction d as [|[k' v'] r IH]; simpl; [reflexivity|].
  destruct (String.eqb_spec k' k); [discriminate|].
  intros H. now rewrite IH.
Qed.

Lemma keys_set_present k v d : mem k d = true -> keys (set k v d) = keys d.
Proof.
  unfold mem, keys. induction d as [|[k' v'] r IH]; simpl; [discriminate|].
  destruct (String.eqb_spec k' k); simpl; [reflexivity|].
  intros H. now rewrite IH.
Qed.

Lemma keys_set k v d :
  keys (set k v d) = if mem k d then keys d else (keys d ++ [k])%list.
Proof.
  destruct (mem k d) eqn:E.
  - now apply keys_set_present.
  - rewrite set_fresh by exact E. unfold keys. now rewrite map_app.
Qed.

(** Filling a dictionary with bindings of distinct fresh keys appends
    them in order. *)
Lemma fold_set_fresh (m acc : dict V) :
  NoDup (keys m) ->
  (forall k, In k (keys m) -> ~ In k (keys acc)) ->
  fold_left (fun a kv => set (fst kv) (snd kv) a) m acc = (acc ++ m)%list.
Proof.
  revert acc. induction m as [|[k v] r IH]; intros acc Hnd Hfr; simpl.
  - now rewrite app_nil_r.
  - inversion Hnd as [|? ? Hk Hr]; subst.
    rewrite set_fresh by (apply mem_false_In, Hfr; now left).
    rewrite IH; [now rewrite <- app_assoc| exact Hr |].
    intros k' Hk' Hin. unfold keys in Hin. rewrite map_app in Hin.
    apply in_app_or in Hin. destruct Hin as [Hin|[<-|[]]].
    + apply (Hfr k'); [now right|exact Hin].
    + exact (Hk Hk').
Qed.
End DictFacts.

(** ** Strings *)

Section StripFacts.
Variable p : ascii -> bool.

Lemma lstrip_with_length s :
  lstrip_with p s = s \/ String.length (lstrip_with p s) < String.length s.
Proof.
  induction s as [|c r IH]; simpl; [now left|].
  destruct (p c); [right|now left].
  destruct IH as [->|H]; lia.
Qed.

Lemma rstrip_with_length s :
  String.length (rstrip_with p s) <= String.length s.
Proof.
  induction s as [|c r IH]; simpl; [lia|].
  destruct (rstrip_with p r); simpl in *; [destruct (p c); simpl; lia|lia].
Qed.

Lemma lstrip_with_head c r :
  lstrip_with p (String c r) = String c r -> p c = false.
Proof.
  simpl. destruct (p c); [|reflexivity].
  intros H. destruct (lstrip_with_length r) as [E|E]; rewrite H in E.
  - exfalso. apply (f_equal String.length) in E. simpl in E. lia.
  - simpl in E. lia.
Qed.

Lemma lstrip_with_app s t :
  lstrip_with p s = s -> (s = EmptyString -> lstrip_with p t = t) ->
  lstrip_with p (s ++ t) = s ++ t.
Proof.
  destruct s as [|c r]; intros Hs Ht; simpl.
  - now apply Ht.
  - now rewrite (lstrip_with_head _ _ Hs).
Qed.

Lemma rstrip_with_app s t :
  rstrip_with p t <> EmptyString ->
  rstrip_with p (s ++ t) = s ++ rstrip_with p t.
Proof.
  intros Ht. induction s as [|c r IH]; simpl; [reflexivity|].
  rewrite IH. destruct (r ++ rstrip_with p t) eqn:E; [|reflexivity].
  destruct r; simpl in E; [contradiction|discriminate].
Qed.

Lemma rstrip_with_cons c v :
  p c = false -> rstrip_with p v = v ->
  rstrip_with p (String c v) = String c v.
Proof.
  intros Hc Hv. simpl. rewrite Hv, Hc. now destruct v.
Qed.

Lemma rstrip_with_keep c s :
  p c = false -> rstrip_with p (String c s) = String c (rstrip_with p s).
Proof.
  intros Hc. simpl. rewrite Hc. now destruct (rstrip_with p s).
Qed.
End StripFacts.

Lemma strip_fixed s : strip s = s -> lstrip s = s /\ rstrip s = s.
Proof.
  unfold strip, lstrip, rstrip. intros H.
  destruct (lstrip_with_length isspace s) as [E|E].
  - rewrite E in H. now split.
  - exfalso. pose proof (rstrip_with_length isspace (lstrip_with isspace s)) as L.
    rewrite H in L. lia.
Qed.

Lemma has_char_app c s t : has_char c (s ++ t) = has_char c s || has_char c t.
Proof.
  induction s as [|a r IH]; simpl; [reflexivity|].
  now rewrite IH, orb_assoc.
Qed.

(** A declaration [k:v] with trimmed parts is left alone by [strip]. *)
Lemma strip_declaration k v :
  strip k = k -> strip v = v -> strip (k ++ ":" ++ v) = k ++ ":" ++ v.
Proof.
  intros Hk Hv.
  apply strip_fixed in Hk. apply strip_fixed in Hv.
  destruct Hk as [Hk _]. destruct Hv as [_ Hv].
  unfold strip, lstrip, rstrip in *.
  rewrite lstrip_with_app; [|exact Hk|reflexivity].
  assert (Hc : rstrip_with isspace (":" ++ v) = ":" ++ v)
    by (apply rstrip_with_cons; [reflexivity|exact Hv]).
  rewrite rstrip_with_app; rewrite Hc; [reflexivity|discriminate].
Qed.

Lemma split1_declaration k v :
  has_char ":" k = false -> split1 ":" (k ++ ":" ++ v) = Some (k, v).
Proof.
  induction k as [|c r IH]; simpl in *; [reflexivity|].
  intros H. apply orb_false_iff in H. destruct H as [Hc Hr].
  rewrite Hc. now rewrite IH.
Qed.

Lemma split_no_sep sep s : has_char sep s = false -> split sep s = [s].
Proof.
  induction s as [|c r IH]; simpl; [reflexivity|].
  intros H. apply orb_false_iff in H. destruct H as [Hc Hr].
  rewrite Hc. now rewrite IH.
Qed.

Lemma split_app_sep sep s t :
  has_char sep s = false ->
  split sep (s ++ String sep t) = s :: split sep t.
Proof.
  induction s as [|c r IH]; simpl.
  - now rewrite Ascii.eqb_refl.
  - intros H. apply orb_false_iff in H. destruct H as [Hc Hr].
    rewrite Hc. now rewrite IH.
Qed.

Lemma split_join sep l :
  l <> [] -> Forall (fun s => has_char sep s = false) l ->
  split sep (join (String sep EmptyString) l) = l.
Proof.
  induction l as [|x r IH]; [congruence|].
  intros _ H. inversion H as [|? ? Hx Hr]; subst.
  destruct r as [|y r'].
  - simpl. now apply split_no_sep.
  - change (join (String sep "") (x :: y :: r'))
      with (x ++ String sep (join (String sep "") (y :: r'))).
    rewrite split_app_sep by exact Hx.
    now rewrite IH.
Qed.

(** ** Style codec *)

(** The guard on the empty string only skips work: the loop would
    return the empty map too. *)
Lemma parse_style_fold s :
  parse_style s = fold_left parse_declaration (split ";" s) [].
Proof. destruct s; reflexivity. Qed.

Lemma clean_key_spec k :
  clean_key k = true ->
  strip k = k /\ has_char ":" k = false /\ has_char ";" k = false.
Proof.
  unfold clean_key. rewrite !andb_true_iff, !negb_true_iff.
  intros [[H1 H2] H3]. apply String.eqb_eq in H1. auto.
Qed.

Lemma clean_value_spec v :
  clean_value v = true -> strip v = v /\ has_char ";" v = false.
Proof.
  unfold clean_value. rewrite andb_true_iff, negb_true_iff.
  intros [H1 H2]. apply String.eqb_eq in H1. auto.
Qed.

Lemma parse_declaration_clean styles k v :
  clean_key k = true -> clean_value v = true ->
  parse_declaration styles (k ++ ":" ++ v) = set k v styles.
Proof.
  intros Hk Hv.
  apply clean_key_spec in Hk. destruct Hk as (Hk1 & Hk2 & _).
  apply clean_value_spec in Hv. destruct Hv as (Hv1 & _).
  unfold parse_declaration.
  rewrite strip_declaration by assumption.
  rewrite split1_declaration by assumption.
  now rewrite Hk1, Hv1.
Qed.

Lemma fold_parse_clean m acc :
  clean_style m = true ->
  fold_left parse_declaration (map (fun kv => fst kv ++ ":" ++ snd kv) m) acc
  = fold_left (fun a kv => set (fst kv) (snd kv) a) m acc.
Proof.
  revert acc. induction m as [|[k v] r IH]; intros acc H; [reflexivity|].
  simpl in H. apply andb_true_iff in H. destruct H as [Hkv Hr].
  apply andb_true_iff in Hkv. destruct Hkv as [Hk Hv].
  cbn [map fold_left fst snd].
  rewrite parse_declaration_clean by assumption.
  now apply IH.
Qed.

Lemma clean_style_no_semicolon m :
  clean_style m = true ->
  Forall (fun s => has_char ";" s = false)
         (map (fun kv => fst kv ++ ":" ++ snd kv) m).
Proof.
  induction m as [|[k v] r IH]; intros H; simpl; constructor.
  - simpl in H. apply andb_true_iff in H. destruct H as [Hkv _].
    apply andb_true_iff in Hkv. destruct Hkv as [Hk Hv].
    apply clean_key_spec in Hk. apply clean_value_spec in Hv.
    destruct Hk as (_ & _ & Hk). destruct Hv as (_ & Hv).
    change (has_char ";" (k ++ ":" ++ v) = false).
    rewrite !has_char_app, Hk, Hv. reflexivity.
  - apply IH. simpl in H. apply andb_true_iff in H. tauto.
Qed.

(** The loop of [parse_style] over the declarations of a clean map
    without duplicate keys rebuilds the map, binding by binding. *)
Lemma fold_declarations_clean (m : dict string) :
  wf m -> clean_style m = true ->
  fold_left parse_declaration (map (fun kv => fst kv ++ ":" ++ snd kv) m) []
  = m.
Proof.
  intros Hwf Hclean. rewrite fold_parse_clean by exact Hclean.
  rewrite fold_set_fresh; [reflexivity|exact Hwf|].
  intros k _ [].
Qed.

(** C5 as stated fails: a value holding a semicolon is cut at it. *)
Lemma parse_style_roundtrip_counterexample :
  wf [("fill", "a;b")]
  /\ parse_style (style_to_string [("fill", "a;b")]) <> [("fill", "a;b")].
Proof.
  split.
  - unfold wf. simpl. constructor; [intros []|constructor].
  - vm_compute. discriminate.
Qed.

(** C5 (amended): for every style map without duplicate keys whose keys
    and values are trimmed, whose keys hold neither a colon nor a
    semicolon and whose values hold no semicolon, parsing the serialized
    map gives the map back, key order included. *)
Theorem parse_style_roundtrip (m : dict string) :
  wf m -> clean_style m = true -> parse_style (style_to_string m) = m.
Proof.
  intros Hwf Hclean. rewrite parse_style_fold. unfold style_to_string.
  destruct m as [|kv r] eqn:Em; [reflexivity|].
  rewrite <- Em in *.
  rewrite split_join.
  - now apply fold_declarations_clean.
  - rewrite Em. discriminate.
  - now apply clean_style_no_semicolon.
Qed.

Lemma parse_style_roundtrip_witness :
  let m := [("fill", "#fff"); ("stroke", "#000")] in
  wf m /\ clean_style m = true /\ parse_style (style_to_string m) = m.
Proof.
  intro m.
  assert (Hwf : wf m).
  { unfold wf. simpl. repeat constructor; simpl; intuition discriminate. }
  assert (Hc : clean_style m = true) by reflexivity.
  split; [exact Hwf|split; [exact Hc|]].
  exact (parse_style_roundtrip m Hwf Hc).
Defined.

(** *** What [parse_style] returns is a map the codec can carry *)

Lemma rstrip_with_idem p s :
  rstrip_with p (rstrip_with p s) = rstrip_with p s.
Proof.
  induction s as [|c r IH]; [reflexivity|].
  simpl. destruct (rstrip_with p r) as [|d r'] eqn:E.
  - destruct (p c) eqn:Ec; [reflexivity|]. simpl. now rewrite Ec.
  - change (rstrip_with p (String c (String d r')) = String c (String d r')).
    simpl in IH |- *. now rewrite IH.
Qed.

Lemma lstrip_rstrip_lstrip p s :
  lstrip_with p (rstrip_with p (lstrip_with p s))
  = rstrip_with p (lstrip_with p s).
Proof.
  induction s as [|c r IH]; [reflexivity|].
  simpl. destruct (p c) eqn:Ec; [exact IH|].
  rewrite rstrip_with_keep by exact Ec. simpl. now rewrite Ec.
Qed.

Lemma strip_idem s : strip (strip s) = strip s.
Proof.
  unfold strip, lstrip, rstrip.
  now rewrite lstrip_rstrip_lstrip, rstrip_with_idem.
Qed.

Lemma has_char_lstrip_with p c s :
  has_char c s = false -> has_char c (lstrip_with p s) = false.
Proof.
  induction s as [|a r IH]; [reflexivity|].
  intros H. simpl. destruct (p a); [|exact H].
  simpl in H. apply orb_false_iff in H. now apply IH.
Qed.

Lemma has_char_rstrip_with p c s :
  has_char c s = false -> has_char c (rstrip_with p s) = false.
Proof.
  induction s as [|a r IH]; [reflexivity|].
  intros H. simpl in H. apply orb_false_iff in H. destruct H as [Ha Hr].
  simpl. specialize (IH Hr).
  destruct (rstrip_with p r) as [|d r'].
  - destruct (p a); [reflexivity|]. simpl. now rewrite Ha.
  - cbn [has_char]. rewrite Ha. exact IH.
Qed.

Lemma has_char_strip c s : has_char c s = false -> has_char c (strip s) = false.
Proof.
  intros H. unfold strip, lstrip, rstrip.
  now apply has_char_rstrip_with, has_char_lstrip_with.
Qed.

Lemma split_pieces sep s :
  Forall (fun x => has_char sep x = false) (split sep s).
Proof.
  induction s as [|c r IH]; simpl; [repeat constructor|].
  destruct (Ascii.eqb c sep) eqn:E; [now constructor|].
  destruct (split sep r) as [|h t]; [repeat constructor; simpl; now rewrite E|].
  inversion IH as [|? ? Hh Ht]; subst.
  constructor; [|exact Ht]. simpl. now rewrite E.
Qed.

Lemma split1_parts sep s a b :
  split1 sep s = Some (a, b) ->
  has_char sep a = false
  /\ forall c, has_char c s = false ->
                has_char c a = false /\ has_char c b = false.
Proof.
  revert a. induction s as [|ch r IH]; intros a; simpl; [discriminate|].
  destruct (Ascii.eqb ch sep) eqn:E.
  - intros [= <- <-]. split; [reflexivity|].
    intros c H. apply orb_false_iff in H. now split.
  - destruct (split1 sep r) as [[a' b']|]; [|discriminate].
    intros [= <- <-]. destruct (IH a' eq_refl) as [Ha Hc].
    split; [simpl; now rewrite E|].
    intros c H. apply orb_false_iff in H. destruct H as [H1 H2].
    destruct (Hc c H2) as [Ha' Hb']. split; [simpl; now rewrite H1|exact Hb'].
Qed.

Lemma clean_style_set k v m :
  clean_key k = true -> clean_value v = true -> clean_style m = true ->
  clean_style (set k v m) = true.
Proof.
  intros Hk Hv. induction m as [|[k' v'] r IH]; simpl.
  - intros _. now rewrite Hk, Hv.
  - intros H. apply andb_true_iff in H. destruct H as [Hkv Hr].
    apply andb_true_iff in Hkv. destruct Hkv as [Hk' Hv'].
    destruct (String.eqb k' k); simpl.
    + now rewrite Hk', Hv, Hr.
    + now rewrite Hk', Hv', IH.
Qed.

Lemma parse_declaration_clean_style styles d :
  has_char ";" d = false -> clean_style styles = true ->
  clean_style (parse_declaration styles d) = true.
Proof.
  intros Hd Hs. unfold parse_declaration.
  destruct (split1 ":" (strip d)) as [[pr v]|] eqn:E; [|exact Hs].
  apply split1_parts in E. destruct E as [Hcolon Hsub].
  destruct (Hsub ";"%char (has_char_strip _ _ Hd)) as [Hp Hv].
  apply clean_style_set; [| |exact Hs].
  - unfold clean_key. rewrite strip_idem, String.eqb_refl.
    now rewrite !has_char_strip.
  - unfold clean_value. rewrite strip_idem, String.eqb_refl.
    now rewrite has_char_strip.
Qed.

Lemma parse_style_clean s : clean_style (parse_style s) = true.
Proof.
  rewrite parse_style_fold.
  assert (G : forall l acc,
             Forall (fun x => has_char ";" x = false) l ->
             clean_style acc = true ->
             clean_style (fold_left parse_declaration l acc) = true).
  { induction l as [|d r IH]; intros acc Hl Hacc; [exact Hacc|].
    inversion Hl; subst. simpl. apply IH; [assumption|].
    now apply parse_declaration_clean_style. }
  apply G; [apply split_pieces|reflexivity].
Qed.

Lemma set_keeps_wf {V} k (v : V) d : wf d -> wf (set k v d).
Proof.
  unfold wf. intros H. rewrite keys_set. destruct (mem k d) eqn:E; [exact H|].
  apply NoDup_app; [exact H|repeat constructor; intros []|].
  intros a Ha [<-|[]]. apply mem_false_In in E. contradiction.
Qed.

Lemma parse_style_wf s : wf (parse_style s).
Proof.
  rewrite parse_style_fold.
  assert (G : forall l acc, wf acc -> wf (fold_left parse_declaration l acc)).
  { induction l as [|d r IH]; intros acc H; [exact H|].
    simpl. apply IH. unfold parse_declaration.
    destruct (split1 ":" (strip d)) as [[pr v]|]; [now apply set_keeps_wf|exact H]. }
  apply G. constructor.
Qed.

(** Every map [parse_style] returns makes the trip unchanged. *)
Lemma parse_style_reparse s :
  parse_style (style_to_string (parse_style s)) = parse_style s.
Proof.
  pose proof (parse_style_wf s) as Hwf.
  pose proof (parse_style_clean s) as Hclean.
  rewrite (parse_style_fold (style_to_string _)). unfold style_to_string.
  destruct (parse_style s) as [|kv r] eqn:Em; [reflexivity|].
  rewrite <- Em in *.
  rewrite split_join.
  - now apply fold_declarations_clean.
  - rewrite Em. discriminate.
  - now apply clean_style_no_semicolon.
Qed.

(** ** [set_fill_color] *)

Lemma attrib_elem_set e name value :
  attrib (elem_set e name value) = set name value (attrib e).
Proof. now destruct e. Qed.

Lemma elem_get_set_other e name name' value :
  name <> name' -> elem_get (elem_set e name' value) name = elem_get e name.
Proof.
  intros H. unfold elem_get. rewrite attrib_elem_set. now apply get_set_other.
Qed.

Lemma elem_get_set_same e name value :
  elem_get (elem_set e name value) name = Some value.
Proof. unfold elem_get. rewrite attrib_elem_set. apply get_set_same. Qed.

(** The two branches of [set_fill_color]. *)
Lemma set_fill_color_style e c :
  truthy (elem_get e "style") = true ->
  set_fill_color e c
  = elem_set e "style"
      (style_to_string
         (set "fill" c (parse_style (elem_get_default e "style" "")))).
Proof.
  unfold set_fill_color, elem_get_default.
  destruct (elem_get e "style") as [[|a s]|]; simpl; try discriminate.
  reflexivity.
Qed.

Lemma set_fill_color_bare e c :
  truthy (elem_get e "style") = false ->
  set_fill_color e c = elem_set e "fill" c.
Proof.
  unfold set_fill_color.
  destruct (elem_get e "style") as [[|a s]|]; simpl; try discriminate;
    reflexivity.
Qed.

(** *** The [fill] property survives the trip through the string *)

Lemma split_nonempty sep s : split sep s <> [].
Proof.
  destruct s as [|c r]; simpl; [discriminate|].
  destruct (Ascii.eqb c sep); [discriminate|].
  destruct (split sep r); discriminate.
Qed.

Lemma split_app sep x y :
  split sep (x ++ String sep y) = (split sep x ++ split sep y)%list.
Proof.
  induction x as [|c r IH]; simpl.
  - now rewrite Ascii.eqb_refl.
  - destruct (Ascii.eqb c sep); [now rewrite IH|].
    rewrite IH. pose proof (split_nonempty sep r) as Hne.
    destruct (split sep r); [contradiction|reflexivity].
Qed.

Lemma split_join_pieces sep l :
  l <> [] ->
  split sep (join (String sep EmptyString) l) = flat_map (split sep) l.
Proof.
  induction l as [|x r IH]; [congruence|]. intros _.
  destruct r as [|y r'].
  - simpl. now rewrite app_nil_r.
  - change (join (String sep "") (x :: y :: r'))
      with (x ++ String sep (join (String sep "") (y :: r'))).
    rewrite split_app, IH by discriminate. reflexivity.
Qed.

Lemma split_head sep a s :
  has_char sep a = false ->
  exists h t, split sep (a ++ s) = (a ++ h) :: t.
Proof.
  intros Ha. induction a as [|c r IH]; simpl.
  - pose proof (split_nonempty sep s) as Hne.
    destruct (split sep s) as [|h t]; [contradiction|]. now exists h, t.
  - simpl in Ha. apply orb_false_iff in Ha. destruct Ha as [Hc Hr].
    rewrite Hc. destruct (IH Hr) as (h & t & ->). now exists h, t.
Qed.

Lemma parse_declaration_mono k styles d :
  mem k styles = true -> mem k (parse_declaration styles d) = true.
Proof.
  intros H. unfold parse_declaration.
  destruct (split1 ":" (strip d)) as [[pr v]|]; [|exact H].
  destruct (String.eqb_spec k (strip pr)) as [->|Hne].
  - apply mem_set_same.
  - now rewrite mem_set_other.
Qed.

Lemma fold_parse_mono k l styles :
  mem k styles = true -> mem k (fold_left parse_declaration l styles) = true.
Proof.
  revert styles. induction l as [|d r IH]; intros styles H; [exact H|].
  simpl. apply IH. now apply parse_declaration_mono.
Qed.

Lemma parse_declaration_fill styles h :
  mem "fill" (parse_declaration styles ("fill:" ++ h)) = true.
Proof.
  unfold parse_declaration, strip, lstrip, rstrip.
  change (lstrip_with isspace ("fill:" ++ h)) with ("fill:" ++ h).
  change ("fill:" ++ h)
    with (String "f" (String "i" (String "l" (String "l" (String ":" h))))).
  rewrite !rstrip_with_keep by reflexivity.
  cbn [split1 Ascii.eqb Bool.eqb]. apply mem_set_same.
Qed.

(** Whatever the colour and the other properties are, the serialized
    map parses to a map with a [fill] property. *)
Lemma parse_style_keeps_fill m c :
  mem "fill" (parse_style (style_to_string (set "fill" c m))) = true.
Proof.
  rewrite parse_style_fold. unfold style_to_string.
  assert (Hin : In ("fill", c) (set "fill" c m))
    by (apply get_In, get_set_same).
  apply in_split in Hin. destruct Hin as (l1 & l2 & ->).
  rewrite split_join_pieces by (destruct l1; discriminate).
  rewrite map_app, flat_map_app. cbn [map flat_map fst snd].
  change ("fill" ++ ":" ++ c) with ("fill:" ++ c).
  destruct (split_head ";" "fill:" c eq_refl) as (h & t & ->).
  rewrite fold_left_app. cbn [app fold_left].
  rewrite fold_left_app. apply fold_parse_mono, fold_parse_mono.
  apply parse_declaration_fill.
Qed.

(** After [set_fill_color] the element carries both a bare [fill] and a
    [fill] in its style exactly when it came with a [fill] attribute and
    a non-empty style. *)
Lemma set_fill_color_both e c :
  has_bare_fill (set_fill_color e c) && style_has_fill (set_fill_color e c)
  = has_bare_fill e && truthy (elem_get e "style").
Proof.
  destruct (truthy (elem_get e "style")) eqn:Hs.
  - rewrite set_fill_color_style by exact Hs.
    unfold has_bare_fill, style_has_fill. rewrite attrib_elem_set.
    rewrite mem_set_other by discriminate.
    rewrite elem_get_set_same, parse_style_keeps_fill. reflexivity.
  - rewrite set_fill_color_bare by exact Hs.
    unfold style_has_fill. rewrite elem_get_set_other by discriminate.
    destruct (elem_get e "style") as [[|a s]|]; simpl in *;
      try discriminate; now rewrite !andb_false_r.
Qed.

(** C1 as stated fails: an element that comes with a [fill] attribute
    and a style keeps the attribute and gains [fill] in the style. *)
Lemma set_fill_color_both_counterexample :
  let e := Element "path" [("fill", "red"); ("style", "stroke:#000")] None [] in
  has_bare_fill (set_fill_color e "#3b82f6") = true
  /\ style_has_fill (set_fill_color e "#3b82f6") = true.
Proof. vm_compute. split; reflexivity. Qed.

(** C1 (amended): for every element that does not come with both a
    [fill] attribute and a non-empty [style] attribute, and every
    colour, the element after [set_fill_color] does not carry both a
    bare [fill] attribute and a style whose map has a [fill]
    property. *)
Theorem set_fill_color_exclusive (e : element) (c : string) :
  has_bare_fill e && truthy (elem_get e "style") = false ->
  has_bare_fill (set_fill_color e c)
  && style_has_fill (set_fill_color e c) = false.
Proof.
  intros H. destruct (truthy (elem_get e "style")) eqn:Hs.
  - rewrite andb_true_r in H.
    rewrite set_fill_color_style by exact Hs.
    unfold has_bare_fill in *. rewrite attrib_elem_set.
    rewrite mem_set_other by discriminate. now rewrite H.
  - rewrite set_fill_color_bare by exact Hs.
    unfold style_has_fill. rewrite elem_get_set_other by discriminate.
    destruct (elem_get e "style") as [[|a s]|]; simpl in *;
      try discriminate; apply andb_false_r.
Qed.

Lemma set_fill_color_exclusive_witness :
  let e := Element "path" [("id", "US"); ("style", "stroke:#000")] None [] in
  has_bare_fill e && truthy (elem_get e "style") = false
  /\ has_bare_fill (set_fill_color e "#3b82f6")
     && style_has_fill (set_fill_color e "#3b82f6") = false.
Proof.
  intro e.
  assert (H : has_bare_fill e && truthy (elem_get e "style") = false)
    by reflexivity.
  split; [exact H|exact (set_fill_color_exclusive e "#3b82f6" H)].
Defined.

(** ** The colouring walk *)

(** Induction on elements, with the property known for the children. *)
Lemma element_nested_ind (P : element -> Prop) :
  (forall t a x cs, Forall P cs -> P (Element t a x cs)) ->
  forall e, P e.
Proof.
  intros H. fix IH 1. intros [t a x cs]. apply H.
  induction cs as [|c r IHr]; constructor; [apply IH|exact IHr].
Qed.


Lemma color_path_state data dflt st p :
  fst (color_path data dflt st p) = walk_step (resolve data p) st.
Proof.
  unfold color_path. destruct (resolve data p) as [[|a c] code|[|a c] code|];
    reflexivity.
Qed.

Lemma color_paths_state data dflt st l :
  fst (color_paths data dflt st l) = walk_steps data st l.
Proof.
  revert st. induction l as [|p r IH]; intros st; [reflexivity|].
  simpl. destruct (color_path data dflt st p) as [st1 p'] eqn:E.
  specialize (IH st1).
  destruct (color_paths data dflt st1 r) as [st2 r'].
  simpl in *. rewrite IH.
  replace st1 with (fst (color_path data dflt st p)) by now rewrite E.
  now rewrite color_path_state.
Qed.


Lemma same_key_refl e : same_key e e.
Proof. repeat split. Qed.

Lemma resolve_same_key data e e' :
  same_key e e' -> resolve data e = resolve data e'.
Proof.
  intros (_ & Hid & Hcl). unfold resolve, elem_get_default.
  now rewrite Hid, Hcl.
Qed.

Lemma set_fill_color_same_key e c : same_key e (set_fill_color e c).
Proof.
  unfold set_fill_color.
  destruct (elem_get e "style") as [[|a s]|];
    (split; [now destruct e|]);
    split; symmetry; apply elem_get_set_other; discriminate.
Qed.

Lemma set_fill_color_shape e c :
  text (set_fill_color e c) = text e
  /\ children (set_fill_color e c) = children e.
Proof.
  unfold set_fill_color.
  destruct (elem_get e "style") as [[|a s]|]; destruct e; split; reflexivity.
Qed.

Lemma color_path_same_key data dflt st p :
  same_key p (snd (color_path data dflt st p)).
Proof.
  unfold color_path, apply_color, apply_default.
  destruct (resolve data p) as [[|a c] code|[|a c] code|]; simpl;
    try apply set_fill_color_same_key;
    destruct (wants_default p);
    try apply set_fill_color_same_key; apply same_key_refl.
Qed.

(** The loop changes attributes only: text and children stay. *)
Lemma color_path_shape data dflt st p :
  text (snd (color_path data dflt st p)) = text p
  /\ children (snd (color_path data dflt st p)) = children p.
Proof.
  unfold color_path, apply_color, apply_default.
  destruct (resolve data p) as [[|a c] code|[|a c] code|]; simpl;
    try apply set_fill_color_shape;
    destruct (wants_default p);
    try apply set_fill_color_shape; split; reflexivity.
Qed.

Section WalkFacts.
Variables (data : catalog) (dflt t : string).

Let sel (e : element) : bool := String.eqb (tag e) t.

Lemma walk_elem_unfold st tg a x cs :
  walk_elem data dflt t st (Element tg a x cs)
  = let '(st1, e1) :=
      if String.eqb tg t
      then color_path data dflt st (Element tg a x cs)
      else (st, Element tg a x cs) in
    let '(st2, cs') := walk_list data dflt t st1 cs in
    (st2, Element (tag e1) (attrib e1) (text e1) cs').
Proof. reflexivity. Qed.

Lemma walk_list_state st cs :
  Forall (fun e => forall st,
            fst (walk_elem data dflt t st e)
            = walk_steps data st (filter sel (iter e))) cs ->
  fst (walk_list data dflt t st cs)
  = walk_steps data st (filter sel (flat_map iter cs)).
Proof.
  intros H. revert st. induction H as [|c r Hc Hr IH]; intros st.
  - reflexivity.
  - cbn [walk_list flat_map]. rewrite filter_app.
    unfold walk_steps. rewrite fold_left_app. fold (walk_steps data).
    specialize (Hc st).
    destruct (walk_elem data dflt t st c) as [sta c'].
    specialize (IH sta).
    destruct (walk_list data dflt t sta r) as [stb r'].
    simpl in *. fold (walk_steps data st (filter sel (iter c))).
    now rewrite <- Hc.
Qed.

(** The counters the tree walk ends with are those of the loop over
    the selected elements in document order. *)
Lemma walk_elem_state e st :
  fst (walk_elem data dflt t st e) = walk_steps data st (filter sel (iter e)).
Proof.
  revert st. induction e as [tg a x cs IH] using element_nested_ind.
  intros st. rewrite walk_elem_unfold.
  cbn [iter filter]. unfold sel at 1. cbn [tag].
  destruct (String.eqb tg t).
  - pose proof (color_path_state data dflt st (Element tg a x cs)) as Hs.
    destruct (color_path data dflt st (Element tg a x cs)) as [st1 e1].
    simpl in Hs.
    pose proof (walk_list_state st1 cs IH) as Hl.
    destruct (walk_list data dflt t st1 cs) as [st2 cs'].
    simpl in *. now rewrite Hl, Hs.
  - pose proof (walk_list_state st cs IH) as Hl.
    destruct (walk_list data dflt t st cs) as [st2 cs'].
    simpl in *. exact Hl.
Qed.

Lemma walk_root_state root st :
  fst (walk_root data dflt t st root) = walk_steps data st (findall root t).
Proof.
  destruct root as [tg a x cs]. unfold walk_root, findall. cbn [children].
  pose proof (walk_list_state st cs) as Hl.
  destruct (walk_list data dflt t st cs) as [st' cs'].
  simpl in *. apply Hl.
  apply Forall_forall. intros e _ st0. apply walk_elem_state.
Qed.

Lemma walk_list_keys st cs :
  Forall (fun e => forall st,
            Forall2 same_key (iter e)
                    (iter (snd (walk_elem data dflt t st e)))) cs ->
  Forall2 same_key (flat_map iter cs)
          (flat_map iter (snd (walk_list data dflt t st cs))).
Proof.
  intros H. revert st. induction H as [|c r Hc Hr IH]; intros st.
  - constructor.
  - cbn [walk_list flat_map].
    specialize (Hc st).
    destruct (walk_elem data dflt t st c) as [sta c'].
    specialize (IH sta).
    destruct (walk_list data dflt t sta r) as [stb r'].
    simpl in *. now apply Forall2_app.
Qed.

(** The walk keeps every tag, id and class, in document order. *)
Lemma walk_elem_keys e st :
  Forall2 same_key (iter e) (iter (snd (walk_elem data dflt t st e))).
Proof.
  revert st. induction e as [tg a x cs IH] using element_nested_ind.
  intros st. rewrite walk_elem_unfold.
  assert (Hk : forall st1 e1,
             same_key (Element tg a x cs) e1 ->
             Forall2 same_key (iter (Element tg a x cs))
               (iter (snd (let '(st2, cs') := walk_list data dflt t st1 cs in
                           (st2, Element (tag e1) (attrib e1) (text e1) cs'))))).
  { intros st1 e1 He1.
    pose proof (walk_list_keys st1 cs IH) as Hl.
    destruct (walk_list data dflt t st1 cs) as [st2 cs'].
    simpl in *. constructor; [|exact Hl].
    destruct He1 as (Ht & Hi & Hc). repeat split; assumption. }
  destruct (String.eqb tg t).
  - pose proof (color_path_same_key data dflt st (Element tg a x cs)) as Hs.
    destruct (color_path data dflt st (Element tg a x cs)) as [st1 e1].
    now apply Hk.
  - apply Hk. apply same_key_refl.
Qed.

Lemma walk_root_keys root st :
  attrib (snd (walk_root data dflt t st root)) = attrib root
  /\ Forall2 same_key (flat_map iter (children root))
       (flat_map iter (children (snd (walk_root data dflt t st root)))).
Proof.
  destruct root as [tg a x cs]. unfold walk_root. cbn [children].
  pose proof (walk_list_keys st cs) as Hl.
  destruct (walk_list data dflt t st cs) as [st' cs'].
  simpl in *. split; [reflexivity|]. apply Hl.
  apply Forall_forall. intros e _ st0. apply walk_elem_keys.
Qed.

Lemma color_paths_app st l1 l2 :
  color_paths data dflt st (l1 ++ l2)
  = let '(s1, r1) := color_paths data dflt st l1 in
    let '(s2, r2) := color_paths data dflt s1 l2 in
    (s2, (r1 ++ r2)%list).
Proof.
  revert st. induction l1 as [|p r IH]; intros st.
  - cbn [app color_paths]. now destruct (color_paths data dflt st l2).
  - cbn [app color_paths].
    destruct (color_path data dflt st p) as [st1 p'].
    rewrite IH. destruct (color_paths data dflt st1 r) as [s1 r1].
    now destruct (color_paths data dflt s1 l2).
Qed.

Lemma color_path_tag st p : tag (snd (color_path data dflt st p)) = tag p.
Proof. symmetry. apply (color_path_same_key data dflt st p). Qed.

Lemma walk_list_paths st cs :
  Forall (fun e => forall st,
            Forall2 same_attrs
              (filter sel (iter (snd (walk_elem data dflt t st e))))
              (snd (color_paths data dflt st (filter sel (iter e))))) cs ->
  Forall2 same_attrs
    (filter sel (flat_map iter (snd (walk_list data dflt t st cs))))
    (snd (color_paths data dflt st (filter sel (flat_map iter cs)))).
Proof.
  intros H. revert st. induction H as [|c r Hc Hr IH]; intros st.
  - constructor.
  - cbn [walk_list flat_map]. rewrite filter_app, color_paths_app.
    specialize (Hc st).
    pose proof (walk_elem_state c st) as Hst.
    rewrite <- color_paths_state with (dflt := dflt) in Hst.
    destruct (walk_elem data dflt t st c) as [sta c'].
    destruct (color_paths data dflt st (filter sel (iter c))) as [s1 r1].
    cbn [fst snd] in *. subst s1.
    specialize (IH sta).
    destruct (walk_list data dflt t sta r) as [stb r'].
    destruct (color_paths data dflt sta (filter sel (flat_map iter r)))
      as [s2 r2].
    cbn [fst snd flat_map] in *. rewrite filter_app. now apply Forall2_app.
Qed.

(** The paths of the walked tree are the paths the loop over the list
    leaves, one by one: the tree walk is the loop of the script. *)
Lemma walk_elem_paths e st :
  Forall2 same_attrs
    (filter sel (iter (snd (walk_elem data dflt t st e))))
    (snd (color_paths data dflt st (filter sel (iter e)))).
Proof.
  revert st. induction e as [tg a x cs IH] using element_nested_ind.
  intros st. rewrite walk_elem_unfold.
  assert (Hsel : forall e0, sel e0 = String.eqb (tag e0) t) by reflexivity.
  cbn [iter filter]. rewrite (Hsel (Element tg a x cs)). cbn [tag].
  destruct (String.eqb tg t) eqn:Et.
  - cbn [color_paths].
    pose proof (color_path_tag st (Element tg a x cs)) as Htag.
    destruct (color_path data dflt st (Element tg a x cs)) as [st1 e1].
    cbn [snd tag] in Htag.
    pose proof (walk_list_paths st1 cs IH) as Hl.
    destruct (walk_list data dflt t st1 cs) as [st2 cs'].
    destruct (color_paths data dflt st1 (filter sel (flat_map iter cs)))
      as [s2 r2].
    cbn [snd iter filter] in *.
    rewrite (Hsel (Element (tag e1) (attrib e1) (text e1) cs')). cbn [tag].
    rewrite Htag, Et. constructor; [|exact Hl].
    split; [now rewrite Htag|split; reflexivity].
  - pose proof (walk_list_paths st cs IH) as Hl.
    destruct (walk_list data dflt t st cs) as [st2 cs'].
    cbn [snd iter filter tag attrib text] in *.
    rewrite (Hsel (Element tg a x cs')). cbn [tag].
    now rewrite Et.
Qed.

Lemma walk_root_paths root st :
  fst (walk_root data dflt t st root)
  = fst (color_paths data dflt st (findall root t))
  /\ Forall2 same_attrs
       (findall (snd (walk_root data dflt t st root)) t)
       (snd (color_paths data dflt st (findall root t))).
Proof.
  split; [now rewrite walk_root_state, color_paths_state|].
  destruct root as [tg a x cs]. unfold walk_root, findall. cbn [children].
  pose proof (walk_list_paths st cs) as Hl.
  destruct (walk_list data dflt t st cs) as [st' cs'].
  cbn [snd children] in *. apply Hl.
  apply Forall_forall. intros e _ st0. apply walk_elem_paths.
Qed.
End WalkFacts.

(** ** Sets and sorting *)

Lemma existsb_eqb_In x s : existsb (String.eqb x) s = true <-> In x s.
Proof.
  rewrite existsb_exists. split.
  - intros (y & Hy & E). apply String.eqb_eq in E. now subst.
  - intros H. exists x. split; [exact H|apply String.eqb_refl].
Qed.

Lemma set_add_In x y s : In y (set_add x s) <-> y = x \/ In y s.
Proof.
  unfold set_add. destruct (existsb (String.eqb x) s) eqn:E.
  - apply existsb_eqb_In in E. split; [auto|intros [->|H]; assumption].
  - rewrite in_app_iff. simpl. intuition.
Qed.

Lemma set_add_NoDup x s : NoDup s -> NoDup (set_add x s).
Proof.
  intros H. unfold set_add. destruct (existsb (String.eqb x) s) eqn:E; [exact H|].
  apply NoDup_app; [exact H|repeat constructor; intros []|].
  intros a Ha [<-|[]].
  apply existsb_eqb_In in Ha. congruence.
Qed.

Lemma set_diff_In k ks s : In k (set_diff ks s) <-> In k ks /\ ~ In k s.
Proof.
  unfold set_diff. rewrite filter_In, negb_true_iff.
  pose proof (existsb_eqb_In k s) as E.
  destruct (existsb (String.eqb k) s); intuition congruence.
Qed.

Lemma filter_split_length {A} (f : A -> bool) l :
  length (filter f l) + length (filter (fun x => negb (f x)) l) = length l.
Proof.
  induction l as [|a r IH]; [reflexivity|].
  simpl. destruct (f a); simpl; lia.
Qed.

(** The size of a difference of sets, when the part taken away lies
    inside. *)
Lemma set_diff_length ks s :
  NoDup ks -> NoDup s -> incl s ks ->
  length (set_diff ks s) = length ks - length s.
Proof.
  intros Hks Hs Hin.
  pose proof (filter_split_length (fun k => existsb (String.eqb k) s) ks) as L.
  assert (P : Permutation (filter (fun k => existsb (String.eqb k) s) ks) s).
  { apply NoDup_Permutation; [now apply NoDup_filter|exact Hs|].
    intros x. rewrite filter_In, existsb_eqb_In. split; [tauto|].
    intros H. split; [now apply Hin|exact H]. }
  apply Permutation_length in P. unfold set_diff. cbv beta in L. lia.
Qed.

Section SortedFacts.
Context {A : Type} (key : A -> string).

Lemma insert_sorted_perm x l : Permutation (insert_sorted key x l) (x :: l).
Proof.
  induction l as [|y r IH]; simpl; [reflexivity|].
  destruct (String.leb (key x) (key y)); [reflexivity|].
  rewrite IH. apply perm_swap.
Qed.

Lemma sorted_perm l : Permutation (sorted key l) l.
Proof.
  induction l as [|x r IH]; simpl; [constructor|].
  rewrite insert_sorted_perm. now constructor.
Qed.


Lemma insert_sorted_hd x y l :
  (key_le key) y x -> HdRel (key_le key) y l -> HdRel (key_le key) y (insert_sorted key x l).
Proof.
  intros Hyx Hl. destruct l as [|z r]; simpl; [now constructor|].
  destruct (String.leb (key x) (key z)); constructor; [exact Hyx|].
  now inversion Hl.
Qed.

Lemma insert_sorted_sorted x l :
  Sorted (key_le key) l -> Sorted (key_le key) (insert_sorted key x l).
Proof.
  induction 1 as [|y r Hr IH Hhd]; simpl; [repeat constructor|].
  destruct (String.leb (key x) (key y)) eqn:E.
  - constructor; [now constructor|]. now constructor.
  - constructor; [exact IH|].
    apply insert_sorted_hd; [|exact Hhd].
    unfold key_le. destruct (String.leb_total (key x) (key y)); congruence.
Qed.

(** [sorted] returns its argument in ascending order of the keys. *)
Lemma sorted_sorted l : Sorted (key_le key) (sorted key l).
Proof.
  induction l as [|x r IH]; simpl; [constructor|].
  now apply insert_sorted_sorted.
Qed.
End SortedFacts.

Lemma leb_neq_ltb a b : String.leb a b = true -> a <> b -> String.ltb a b = true.
Proof.
  unfold String.leb, String.ltb. intros H Hne.
  destruct (String.compare a b) eqn:E; try reflexivity; try discriminate.
  apply String.compare_eq_iff in E. contradiction.
Qed.

(** Sorting distinct strings gives a strictly ascending list. *)
Lemma sorted_strict l :
  NoDup l -> Sorted (fun a b => String.ltb a b = true) (sorted (fun x => x) l).
Proof.
  intros Hnd.
  assert (Hnd' : NoDup (sorted (fun x => x) l)).
  { eapply Permutation_NoDup; [|exact Hnd]. symmetry. apply sorted_perm. }
  pose proof (sorted_sorted (fun x => x) l) as Hs.
  induction Hs as [|y r Hr IH Hhd]; [constructor|].
  inversion Hnd' as [|? ? Hy Hr']; subst.
  constructor; [now apply IH|].
  destruct Hhd as [|z r' Hyz]; constructor.
  apply leb_neq_ltb; [exact Hyz|].
  intros ->. apply Hy. now left.
Qed.

(** ** Statistics *)

Lemma resolve_code_in_catalog data p :
  match resolve data p with
  | ById _ code | ByClass _ code => In code (keys data)
  | NoCode => True
  end.
Proof.
  unfold resolve.
  destruct (get (strip (elem_get_default p "id" "")) data) eqn:E1.
  - apply mem_In. unfold mem. now rewrite E1.
  - destruct (get (strip (elem_get_default p "class" "")) class_to_code); [|exact I].
    destruct (get s data) eqn:E2; [|exact I].
    apply mem_In. unfold mem. now rewrite E2.
Qed.


Lemma walk_step_matched_ok data p st :
  matched_ok data st -> matched_ok data (walk_step (resolve data p) st).
Proof.
  intros [Hnd Hin]. pose proof (resolve_code_in_catalog data p) as Hc.
  destruct (resolve data p) as [[|a c] code|[|a c] code|]; simpl;
    try (split; assumption);
    (split; [now apply set_add_NoDup|]);
    intros k Hk; apply set_add_In in Hk; destruct Hk as [->|Hk]; auto.
Qed.

Lemma walk_steps_matched_ok data l st :
  matched_ok data st -> matched_ok data (walk_steps data st l).
Proof.
  revert st. induction l as [|p r IH]; intros st H; [exact H|].
  simpl. apply IH. now apply walk_step_matched_ok.
Qed.

Lemma walk_matched_ok data dflt root :
  matched_ok data
    (fst (walk_root data dflt (path_tag root) walk_init root)).
Proof.
  rewrite walk_root_state. apply walk_steps_matched_ok.
  split; [constructor|intros k []].
Qed.

Lemma resolve_marks data p k :
  (exists a c, resolve data p = ById (String a c) k
               \/ resolve data p = ByClass (String a c) k)
  <-> (exists info,
        get k data = Some info /\ color info <> ""
        /\ (strip (elem_get_default p "id" "") = k
            \/ (get (strip (elem_get_default p "id" "")) data = None
                /\ get (strip (elem_get_default p "class" "")) class_to_code
                   = Some k))).
Proof.
  unfold resolve.
  set (i := strip (elem_get_default p "id" "")).
  set (cl := strip (elem_get_default p "class" "")).
  split.
  - intros (a & c & H).
    destruct (get i data) as [info|] eqn:Ei.
    + destruct H as [H|H]; [|discriminate].
      injection H as Hc <-. exists info.
      split; [exact Ei|]. split; [rewrite Hc; discriminate|now left].
    + destruct (get cl class_to_code) as [code|] eqn:Ec;
        [|destruct H; discriminate].
      destruct (get code data) as [info|] eqn:Ed;
        [|destruct H; discriminate].
      destruct H as [H|H]; [discriminate|].
      injection H as Hc <-. exists info.
      split; [exact Ed|]. split; [rewrite Hc; discriminate|].
      right. split; reflexivity.
  - intros (info & Hg & Hne & [Hi|[Hn Hc]]).
    + rewrite Hi, Hg. destruct (color info) as [|a c] eqn:E; [congruence|].
      exists a, c. now left.
    + rewrite Hn, Hc, Hg. destruct (color info) as [|a c] eqn:E; [congruence|].
      exists a, c. now right.
Qed.

Lemma walk_step_matched r st k :
  In k (matched_codes (walk_step r st))
  <-> In k (matched_codes st)
      \/ (exists a c, r = ById (String a c) k \/ r = ByClass (String a c) k).
Proof.
  destruct r as [[|a c] code|[|a c] code|]; simpl.
  - split; [now left|]. intros [H|(a & c & [H|H])]; [exact H|discriminate..].
  - rewrite set_add_In. split.
    + intros [->|H]; [right; exists a, c; now left|now left].
    + intros [H|(a' & c' & [H|H])]; [now right| |discriminate].
      injection H as _ _ ->. now left.
  - split; [now left|]. intros [H|(a & c & [H|H])]; [exact H|discriminate..].
  - rewrite set_add_In. split.
    + intros [->|H]; [right; exists a, c; now right|now left].
    + intros [H|(a' & c' & [H|H])]; [now right|discriminate|].
      injection H as _ _ ->. now left.
  - split; [now left|]. intros [H|(a & c & [H|H])]; [exact H|discriminate..].
Qed.

Lemma walk_steps_matched data l st k :
  In k (matched_codes (walk_steps data st l))
  <-> In k (matched_codes st)
      \/ (exists p, In p l
           /\ exists a c, resolve data p = ById (String a c) k
                          \/ resolve data p = ByClass (String a c) k).
Proof.
  revert st. induction l as [|p r IH]; intros st.
  - simpl. split; [now left|]. intros [H|(p & [] & _)]. exact H.
  - simpl. fold (walk_steps data (walk_step (resolve data p) st) r).
    rewrite IH, walk_step_matched. split.
    + intros [[H|H]|(q & Hq & H)].
      * now left.
      * right. exists p. split; [now left|exact H].
      * right. exists q. split; [now right|exact H].
    + intros [H|(q & [<-|Hq] & H)].
      * left. now left.
      * left. now right.
      * right. exists q. split; assumption.
Qed.

Lemma walk_matched_paths data dflt root k :
  In k (walk_matched data dflt root)
  <-> (exists p info,
        In p (findall root (path_tag root))
        /\ get k data = Some info /\ color info <> ""
        /\ (strip (elem_get_default p "id" "") = k
            \/ (get (strip (elem_get_default p "id" "")) data = None
                /\ get (strip (elem_get_default p "class" "")) class_to_code
                   = Some k))).
Proof.
  unfold walk_matched. rewrite walk_root_state, walk_steps_matched. simpl.
  split.
  - intros [[]|(p & Hp & H)]. apply resolve_marks in H.
    destruct H as (info & H). exists p, info. split; [exact Hp|exact H].
  - intros (p & info & Hp & H). right. exists p. split; [exact Hp|].
    apply resolve_marks. exists info. exact H.
Qed.

Lemma color_tree_stats str_num data opts vb root :
  snd (color_tree str_num data opts vb root)
  = make_stats data
      (fst (walk_root data (default_color opts) (path_tag root) walk_init root)).
Proof.
  unfold color_tree.
  destruct (walk_root data (default_color opts) (path_tag root) walk_init root).
  reflexivity.
Qed.

(** C3: the matched codes are distinct keys of the catalog, so no more
    than the catalog has; [unmatched] is the size of the catalog less
    the number of matched codes; and
    [unmatched_codes] holds exactly the keys that were not matched, in
    strictly ascending order. The matched codes are read off the
    document: a code is matched exactly when its catalog colour is not
    empty and some selected path has it as its trimmed id, or has a
    trimmed id outside the catalog and a trimmed class the alias table
    maps to the code. *)
Theorem color_tree_unmatched (str_num : num -> string) (data : catalog)
    (opts : options) (vb : viewbox) (root : element) :
  wf data ->
  let stats := snd (color_tree str_num data opts vb root) in
  let matched := walk_matched data (default_color opts) root in
  NoDup matched
  /\ incl matched (keys data)
  /\ length matched <= length data
  /\ unmatched stats = length data - length matched
  /\ (forall k, In k (unmatched_codes stats)
                <-> In k (keys data) /\ ~ In k matched)
  /\ Sorted (fun a b => String.ltb a b = true) (unmatched_codes stats)
  /\ (forall k, In k matched
                <-> exists p info,
                      In p (findall root (path_tag root))
                      /\ get k data = Some info /\ color info <> ""
                      /\ (strip (elem_get_default p "id" "") = k
                          \/ (get (strip (elem_get_default p "id" "")) data
                               = None
                              /\ get (strip (elem_get_default p "class" ""))
                                     class_to_code
                                 = Some k))).
Proof.
  intros Hwf stats matched. subst stats matched.
  split; [|split; [|split; [|split; [|split; [|split]]]]];
    [| | | | | |intros k; apply walk_matched_paths];
    rewrite ?color_tree_stats; unfold walk_matched, make_stats;
    cbn [unmatched unmatched_codes];
    destruct (walk_matched_ok data (default_color opts) root) as [Hnd Hin];
    set (st := fst (walk_root data (default_color opts) (path_tag root) walk_init root)) in *.
  - exact Hnd.
  - exact Hin.
  - pose proof (NoDup_incl_length Hnd Hin) as L.
    unfold keys in L. now rewrite length_map in L.
  - rewrite set_diff_length by assumption.
    unfold keys. now rewrite length_map.
  - intros k. rewrite <- set_diff_In. split; intros H.
    + exact (Permutation_in _ (sorted_perm _ _) H).
    + exact (Permutation_in _ (Permutation_sym (sorted_perm _ _)) H).
  - apply sorted_strict. unfold set_diff. now apply NoDup_filter.
Qed.

Lemma color_tree_unmatched_witness :
  let data : catalog :=
    [ ("US", {| color := "#3b82f6"; label := "US" |});
      ("ZZ", {| color := "#000000"; label := "ZZ" |}) ] in
  let opts :=
    {| default_color := "#ececec"; add_legend_flag := false;
       title_text := None; legend_x := NInt 50; legend_y := None |} in
  let vb : viewbox := (NInt 0, NInt 0, NInt 800, NInt 600) in
  let root :=
    Element "svg" [] None
      [ Element "path" [("id", "US")] None [];
        Element "path" [("id", "FR")] None [] ] in
  wf data
  /\ (let stats := snd (color_tree (fun _ => "") data opts vb root) in
      let matched := walk_matched data (default_color opts) root in
      NoDup matched
      /\ incl matched (keys data)
      /\ length matched <= length data
      /\ unmatched stats = length data - length matched
      /\ (forall k, In k (unmatched_codes stats)
                    <-> In k (keys data) /\ ~ In k matched)
      /\ Sorted (fun a b => String.ltb a b = true) (unmatched_codes stats)
      /\ (forall k, In k matched
                    <-> exists p info,
                          In p (findall root (path_tag root))
                          /\ get k data = Some info /\ color info <> ""
                          /\ (strip (elem_get_default p "id" "") = k
                              \/ (get (strip (elem_get_default p "id" ""))
                                      data
                                   = None
                                  /\ get (strip
                                            (elem_get_default p "class" ""))
                                         class_to_code
                                     = Some k)))).
Proof.
  intros data opts vb root.
  assert (Hwf : wf data).
  { unfold wf. simpl. repeat constructor; simpl; intuition discriminate. }
  split; [exact Hwf|].
  exact (color_tree_unmatched (fun _ => "") data opts vb root Hwf).
Defined.

Lemma walk_steps_multi_path data l st :
  multi_path_count (walk_steps data st l)
  = multi_path_count st + length (filter (resolved_by_class data) l).
Proof.
  revert st. induction l as [|p r IH]; intros st; simpl; [lia|].
  fold (walk_steps data (walk_step (resolve data p) st) r). rewrite IH.
  unfold resolved_by_class.
  destruct (resolve data p) as [[|a c] code|[|a c] code|]; simpl; lia.
Qed.

Lemma walk_steps_colored data l st :
  colored_count (walk_steps data st l)
  = colored_count st
    + length (filter (fun p => match resolve data p with
                               | ById (String _ _) _
                               | ByClass (String _ _) _ => true
                               | _ => false
                               end) l).
Proof.
  revert st. induction l as [|p r IH]; intros st; simpl; [lia|].
  fold (walk_steps data (walk_step (resolve data p) st) r). rewrite IH.
  destruct (resolve data p) as [[|a c] code|[|a c] code|]; simpl; lia.
Qed.

(** What [multi_path] counts: the paths that resolved through the alias
    table, coloured or not; a path that resolved by its id is never
    among them. *)
Lemma color_tree_multi_path str_num data opts vb root :
  multi_path (snd (color_tree str_num data opts vb root))
  = length (filter (resolved_by_class data) (findall root (path_tag root))).
Proof.
  rewrite color_tree_stats. unfold make_stats. cbn [multi_path].
  rewrite walk_root_state, walk_steps_multi_path. reflexivity.
Qed.

(** Where no catalog entry has an empty colour, resolving through the
    alias table and being coloured through it are the same, and
    [multi_path] is the count the claim names. *)
Lemma color_tree_multi_path_nonempty str_num data opts vb root :
  (forall k info, In (k, info) data -> color info <> EmptyString) ->
  multi_path (snd (color_tree str_num data opts vb root))
  = length (filter (colored_by_class data) (findall root (path_tag root))).
Proof.
  intros Hne. rewrite color_tree_multi_path. f_equal.
  apply filter_ext. intros p. unfold resolved_by_class, colored_by_class.
  unfold resolve.
  destruct (get (strip (elem_get_default p "id" "")) data); [reflexivity|].
  destruct (get (strip (elem_get_default p "class" "")) class_to_code) as [code|];
    [|reflexivity].
  destruct (get code data) as [info|] eqn:E; [|reflexivity].
  apply get_In in E. apply Hne in E.
  destruct (color info); [contradiction|reflexivity].
Qed.

(** C4 on a catalog entry with an empty colour: the path resolves
    through the alias table, [multi_path] counts it, yet it is not
    coloured and [colored] stays 0. *)
Theorem color_tree_multi_path_empty_color :
  let data : catalog := [ ("CA", {| color := ""; label := "Canada" |}) ] in
  let opts :=
    {| default_color := "#ececec"; add_legend_flag := false;
       title_text := None; legend_x := NInt 50; legend_y := None |} in
  let vb : viewbox := (NInt 0, NInt 0, NInt 800, NInt 600) in
  let root :=
    Element "svg" [] None [ Element "path" [("class", "Canada")] None [] ] in
  let stats := snd (color_tree (fun _ => "") data opts vb root) in
  multi_path stats = 1
  /\ colored stats = 0
  /\ length (filter (colored_by_class data) (findall root (path_tag root))) = 0
  /\ fst (color_tree (fun _ => "") data opts vb root)
     = Element "svg" [] None
         [ Element "path" [("class", "Canada"); ("fill", "#ececec")] None [] ].
Proof. vm_compute. repeat split; reflexivity. Qed.

(** ** The default fill *)

Lemma color_path_no_code data dflt st p :
  resolve data p = NoCode ->
  color_path data dflt st p = (st, apply_default dflt p).
Proof. unfold color_path. now intros ->. Qed.

(** C2 as stated fails: a path with an empty [fill] attribute carries a
    fill attribute, and still gets the default colour. *)
Lemma default_fill_counterexample :
  let p := Element "path" [("id", "FR"); ("fill", "")] None [] in
  resolve [] p = NoCode
  /\ has_bare_fill p = true
  /\ snd (color_path [] "#ececec" walk_init p)
     = Element "path" [("id", "FR"); ("fill", "#ececec")] None [].
Proof. vm_compute. repeat split; reflexivity. Qed.

(** The test on the style is a search for the text [fill:], which is not
    the parsed property: a declaration written [fill : red] is a [fill]
    property the test misses, and the default colour replaces it; a
    property whose name ends in [fill] stops the default though the map
    has no [fill]. *)
Lemma default_fill_overwrites_spaced_declaration :
  let p := Element "path" [("style", "fill : red")] None [] in
  resolve [] p = NoCode
  /\ style_has_fill p = true
  /\ snd (color_path [] "#ececec" walk_init p)
     = Element "path" [("style", "fill:#ececec")] None [].
Proof. vm_compute. repeat split; reflexivity. Qed.

Lemma default_fill_blocked_by_substring :
  let p := Element "path" [("style", "marker-fill:red")] None [] in
  resolve [] p = NoCode
  /\ has_bare_fill p = false
  /\ style_has_fill p = false
  /\ snd (color_path [] "#ececec" walk_init p) = p.
Proof. vm_compute. repeat split; reflexivity. Qed.

(** C2 (amended): for a path that resolves to no code, the default
    colour is applied when the [fill] attribute is absent or empty and
    the style has no [fill] declaration, neither as the text [fill:] nor
    as a parsed property; it is not applied when the [fill] attribute is
    non-empty, or when the style has a [fill] declaration both as text
    and as a parsed property; and the walk counters do not change. *)
Theorem default_fill_policy (data : catalog) (dflt : string)
    (st : walk_state) (p : element) :
  resolve data p = NoCode ->
  (truthy (elem_get p "fill") = false ->
   contains "fill:" (elem_get_default p "style" "") = false ->
   style_has_fill p = false ->
   snd (color_path data dflt st p) = set_fill_color p dflt)
  /\ (truthy (elem_get p "fill") = true
      \/ (contains "fill:" (elem_get_default p "style" "") = true
          /\ style_has_fill p = true) ->
      snd (color_path data dflt st p) = p)
  /\ fst (color_path data dflt st p) = st
  /\ colored_count (fst (color_path data dflt st p)) = colored_count st.
Proof.
  intros Hr. rewrite (color_path_no_code _ _ _ _ Hr). cbn [fst snd].
  unfold apply_default, wants_default.
  split; [|split; [|split; reflexivity]].
  - intros Hf Hs _. now rewrite Hf, Hs.
  - intros [Hf|[Hs _]].
    + now rewrite Hf.
    + rewrite Hs. now rewrite andb_false_r.
Qed.

Lemma default_fill_policy_witness :
  let data : catalog := [ ("US", {| color := "#3b82f6"; label := "US" |}) ] in
  let p := Element "path" [("id", "FR")] None [] in
  resolve data p = NoCode
  /\ truthy (elem_get p "fill") = false
  /\ contains "fill:" (elem_get_default p "style" "") = false
  /\ style_has_fill p = false
  /\ snd (color_path data "#ececec" walk_init p) = set_fill_color p "#ececec"
  /\ fst (color_path data "#ececec" walk_init p) = walk_init.
Proof.
  intros data p.
  assert (H : resolve data p = NoCode) by reflexivity.
  assert (H1 : truthy (elem_get p "fill") = false) by reflexivity.
  assert (H2 : contains "fill:" (elem_get_default p "style" "") = false)
    by reflexivity.
  assert (H3 : style_has_fill p = false) by reflexivity.
  pose proof (default_fill_policy data "#ececec" walk_init p H) as T.
  split; [exact H|]. split; [exact H1|]. split; [exact H2|].
  split; [exact H3|]. split.
  - exact (proj1 T H1 H2 H3).
  - exact (proj1 (proj2 (proj2 T))).
Defined.

(** ** Running the engine on its own output *)

Lemma get_viewbox_attrib e e' :
  attrib e = attrib e' -> get_viewbox e = get_viewbox e'.
Proof.
  intros H. unfold get_viewbox, viewbox_from_size, elem_get_default, elem_get.
  now rewrite H.
Qed.

Lemma attrib_append_child p c : attrib (append_child p c) = attrib p.
Proof. now destruct p. Qed.

Lemma findall_append_child p c t :
  findall (append_child p c) t
  = (findall p t ++ filter (fun e => String.eqb (tag e) t) (iter c))%list.
Proof.
  destruct p as [tg a x cs]. unfold findall. cbn [append_child children].
  rewrite flat_map_app, filter_app. cbn [flat_map]. now rewrite app_nil_r.
Qed.


Lemma path_tag_is_path_tag root : is_path_tag (path_tag root).
Proof.
  unfold path_tag, is_path_tag.
  destruct (findall root SVG_PATH); [now right|now left].
Qed.

Section LegendFacts.
Variable str_num : num -> string.

Lemma legend_items_not_path t x y rows :
  is_path_tag t ->
  filter (fun e => String.eqb (tag e) t)
         (flat_map iter (legend_items str_num x y rows)) = [].
Proof.
  intros Ht. revert y. induction rows as [|[c l] r IH]; intros y;
    [reflexivity|].
  cbn [legend_items flat_map]. unfold legend_rect at 1, legend_text at 1.
  cbn [iter flat_map app filter tag].
  rewrite IH. destruct Ht as [-> | ->]; reflexivity.
Qed.

(** Nothing [add_legend] or [add_title] appends is a path. *)
Lemma findall_add_legend root data x y vb t :
  is_path_tag t ->
  findall (add_legend str_num root data x y vb) t = findall root t.
Proof.
  intros Ht. unfold add_legend. rewrite findall_append_child.
  cbn [iter filter tag]. rewrite legend_items_not_path by exact Ht.
  destruct Ht as [-> | ->]; cbn; now rewrite app_nil_r.
Qed.

Lemma findall_add_title root title vb t :
  is_path_tag t ->
  findall (add_title str_num root title vb) t = findall root t.
Proof.
  intros Ht. unfold add_title. destruct vb as [[[x y] w] h].
  rewrite findall_append_child.
  destruct Ht as [-> | ->]; cbn; now rewrite app_nil_r.
Qed.

Lemma attrib_add_legend root data x y vb :
  attrib (add_legend str_num root data x y vb) = attrib root.
Proof. unfold add_legend. apply attrib_append_child. Qed.

Lemma attrib_add_title root title vb :
  attrib (add_title str_num root title vb) = attrib root.
Proof.
  unfold add_title. destruct vb as [[[x y] w] h]. apply attrib_append_child.
Qed.
End LegendFacts.

Lemma Forall2_same_key_filter t l l' :
  Forall2 same_key l l' ->
  Forall2 same_key (filter (fun e => String.eqb (tag e) t) l)
          (filter (fun e => String.eqb (tag e) t) l').
Proof.
  induction 1 as [|e e' r r' He Hr IH]; simpl; [constructor|].
  destruct He as (Ht & Hi & Hc). rewrite <- Ht.
  destruct (String.eqb (tag e) t); [|exact IH].
  constructor; [|exact IH]. repeat split; assumption.
Qed.

Lemma walk_steps_same_key data l l' st :
  Forall2 same_key l l' -> walk_steps data st l = walk_steps data st l'.
Proof.
  intros H. revert st. induction H as [|e e' r r' He Hr IH]; intros st;
    [reflexivity|].
  simpl. rewrite (resolve_same_key data e e' He). apply IH.
Qed.

Lemma path_tag_same_key root root' :
  Forall2 same_key (findall root SVG_PATH) (findall root' SVG_PATH) ->
  path_tag root' = path_tag root.
Proof.
  unfold path_tag. intros H. inversion H; reflexivity.
Qed.

(** The document the engine returns: same root attributes, and the same
    paths with the same ids and classes, whichever of the two tags is
    searched. *)
Lemma color_tree_output str_num data opts vb root :
  let root' := fst (color_tree str_num data opts vb root) in
  attrib root' = attrib root
  /\ forall t, is_path_tag t ->
               Forall2 same_key (findall root t) (findall root' t).
Proof.
  unfold color_tree.
  pose proof (walk_root_keys data (default_color opts) (path_tag root)
                root walk_init) as [Ha Hk].
  destruct (walk_root data (default_color opts) (path_tag root) walk_init root)
    as [st root1].
  cbn [fst snd] in *.
  set (root2 := if add_legend_flag opts
                then add_legend str_num root1 data (legend_x opts)
                       (legend_y opts) vb
                else root1).
  assert (H2 : attrib root2 = attrib root
               /\ forall t, is_path_tag t -> findall root2 t = findall root1 t).
  { subst root2. destruct (add_legend_flag opts).
    - split; [now rewrite attrib_add_legend|].
      intros t Ht. now apply findall_add_legend.
    - split; [exact Ha|reflexivity]. }
  destruct H2 as [Ha2 Hf2].
  assert (H3 : forall root3,
             root3 = match title_text opts with
                     | Some (String _ _ as t) => add_title str_num root2 t vb
                     | _ => root2
                     end ->
             attrib root3 = attrib root
             /\ forall t, is_path_tag t -> findall root3 t = findall root1 t).
  { intros root3 ->. destruct (title_text opts) as [[|c s]|].
    - split; [exact Ha2|exact Hf2].
    - split; [now rewrite attrib_add_title|].
      intros t Ht. rewrite findall_add_title by exact Ht. now apply Hf2.
    - split; [exact Ha2|exact Hf2]. }
  destruct (H3 _ eq_refl) as [Ha3 Hf3].
  cbn zeta. split; [exact Ha3|].
  intros t Ht. rewrite (Hf3 t Ht). unfold findall.
  now apply Forall2_same_key_filter.
Qed.

Lemma color_tree_idempotent str_num data opts vb vb' root :
  snd (color_tree str_num data opts vb'
         (fst (color_tree str_num data opts vb root)))
  = snd (color_tree str_num data opts vb root).
Proof.
  destruct (color_tree_output str_num data opts vb root) as [_ Hk].
  set (root' := fst (color_tree str_num data opts vb root)) in *.
  rewrite !color_tree_stats, !walk_root_state. f_equal.
  rewrite (path_tag_same_key root root') by (apply Hk; now left).
  symmetry. apply walk_steps_same_key, Hk, path_tag_is_path_tag.
Qed.

(** On the tree a run leaves in memory, before it is written: a second
    pass of the engine with the same catalog and options returns as
    well, with the same [colored] and [unmatched] counts. What a second
    run of the script meets is the written file; see the last part of
    this development. *)
Theorem color_document_idempotent (str_num : num -> string) (data : catalog)
    (opts : options) (root root' : element) (stats : ColorStats) :
  color_document str_num data opts root = inr (root', stats) ->
  exists root'' stats',
    color_document str_num data opts root' = inr (root'', stats')
    /\ colored stats' = colored stats
    /\ unmatched stats' = unmatched stats.
Proof.
  unfold color_document. intros H.
  destruct (get_viewbox root) as [e|vb] eqn:Hvb; [discriminate|].
  injection H as Hc.
  assert (Hr : root' = fst (color_tree str_num data opts vb root))
    by now rewrite Hc.
  assert (Hs : stats = snd (color_tree str_num data opts vb root))
    by now rewrite Hc.
  destruct (color_tree_output str_num data opts vb root) as [Ha _].
  rewrite <- Hr in Ha.
  rewrite (get_viewbox_attrib root' root Ha), Hvb.
  exists (fst (color_tree str_num data opts vb root')),
         (snd (color_tree str_num data opts vb root')).
  split; [now rewrite <- surjective_pairing|].
  rewrite Hr, color_tree_idempotent, <- Hs. split; reflexivity.
Qed.

Lemma color_document_idempotent_witness :
  let sn : num -> string := fun _ => "0" in
  let data : catalog :=
    [ ("US", {| color := "#3b82f6"; label := "United States" |});
      ("CA", {| color := "#ef4444"; label := "Canada" |});
      ("ZZ", {| color := "#000000"; label := "Nowhere" |}) ] in
  let opts :=
    {| default_color := "#ececec"; add_legend_flag := true;
       title_text := Some "World"; legend_x := NInt 50; legend_y := None |} in
  let root :=
    Element "{http://www.w3.org/2000/svg}svg" [("viewBox", "0 0 1000 500")] None
      [ Element SVG_PATH [("id", "US"); ("style", "stroke:#000")] None [];
        Element "{http://www.w3.org/2000/svg}g" [] None
          [ Element SVG_PATH [("class", "Canada")] None [];
            Element SVG_PATH [("class", "Canada")] None [];
            Element SVG_PATH [("id", "FR")] None [] ] ] in
  let vb : viewbox :=
    (NFloat (FDec false 0 0), NFloat (FDec false 0 0),
     NFloat (FDec false 1000 0), NFloat (FDec false 500 0)) in
  let root' := fst (color_tree sn data opts vb root) in
  let stats := snd (color_tree sn data opts vb root) in
  color_document sn data opts root = inr (root', stats)
  /\ colored stats = 3
  /\ unmatched stats = 1
  /\ exists root'' stats',
       color_document sn data opts root' = inr (root'', stats')
       /\ colored stats' = colored stats
       /\ unmatched stats' = unmatched stats.
Proof.
  intros sn data opts root vb root' stats.
  assert (H : color_document sn data opts root = inr (root', stats))
    by reflexivity.
  split; [exact H|]. split; [reflexivity|]. split; [reflexivity|].
  exact (color_document_idempotent sn data opts root root' stats H).
Defined.

(** ** The legend *)


Lemma wf_get_In {V} k (v : V) d : wf d -> In (k, v) d -> get k d = Some v.
Proof.
  unfold wf. induction d as [|[k' v'] r IH]; simpl; [intros _ []|].
  intros Hnd Hin. inversion Hnd as [|? ? Hk Hr]; subst.
  destruct Hin as [[= -> ->]|Hin].
  - now rewrite String.eqb_refl.
  - destruct (String.eqb_spec k' k) as [->|Hne].
    + exfalso. apply Hk. unfold keys. now apply (in_map fst) in Hin.
    + now apply IH.
Qed.

Lemma fold_legend_wf data acc :
  wf acc -> wf (fold_left legend_step data acc).
Proof.
  revert acc. induction data as [|item r IH]; intros acc H; [exact H|].
  simpl. apply IH. unfold legend_step.
  destruct (mem (color (snd item)) acc); [exact H|now apply set_keeps_wf].
Qed.

(** A colour keeps the label it got first. *)
Lemma fold_legend_get data acc c :
  get c (fold_left legend_step data acc)
  = match get c acc with
    | Some l => Some l
    | None => first_label data c
    end.
Proof.
  revert acc. induction data as [|[k info] r IH]; intros acc.
  - simpl. now destruct (get c acc).
  - cbn [fold_left]. rewrite IH. unfold legend_step, first_label. cbn [snd find].
    unfold mem.
    destruct (String.eqb_spec (color info) c) as [->|Hne].
    + destruct (get c acc) eqn:E; [now rewrite E|].
      now rewrite get_set_same.
    + destruct (get (color info) acc) eqn:E; [reflexivity|].
      rewrite get_set_other by congruence. reflexivity.
Qed.

Lemma color_labels_fold data : color_labels data = fold_left legend_step data [].
Proof. reflexivity. Qed.

Lemma first_label_some data c :
  (exists l, first_label data c = Some l)
  <-> In c (map (fun item => color (snd item)) data).
Proof.
  unfold first_label. induction data as [|[k info] r IH]; simpl.
  - split; [intros [l H]; discriminate|intros []].
  - destruct (String.eqb_spec (color info) c) as [->|Hne].
    + split; [now left|intros _; now eexists].
    + rewrite IH. split; [now right|intros [H|H]; [contradiction|exact H]].
Qed.

(** C7: the legend has one row per distinct colour of the catalog; the
    label of a row is the label of the first catalog entry, in insertion
    order, with that colour; the rows are in ascending order of label;
    they are the rectangles and texts of the legend group, two elements
    per row; and a catalog of two codes sharing one colour gives exactly
    one row, labelled by the first. *)
Theorem legend_rows_spec (data : catalog) :
  NoDup (map fst (legend_rows data))
  /\ (forall c, In c (map fst (legend_rows data))
                <-> In c (map (fun item => color (snd item)) data))
  /\ (forall c l, In (c, l) (legend_rows data) <-> first_label data c = Some l)
  /\ Sorted (fun a b => String.leb (snd a) (snd b) = true) (legend_rows data)
  /\ (forall str_num root x y vb,
        exists y0,
          add_legend str_num root data x y vb
          = append_child root
              (Element "g" [("id", "legend")] None
                 (legend_items str_num x y0 (legend_rows data))))
  /\ (forall str_num x y,
        map (fun e => (tag e, elem_get e "fill", text e))
            (legend_items str_num x y (legend_rows data))
        = flat_map (fun row => [ ("rect", Some (fst row), None);
                                 ("text", Some "#333", Some (snd row)) ])
                   (legend_rows data))
  /\ (forall k1 k2 c l1 l2,
        legend_rows [ (k1, {| color := c; label := l1 |});
                      (k2, {| color := c; label := l2 |}) ]
        = [ (c, l1) ]).
Proof.
  assert (Hwf : wf (color_labels data))
    by (apply fold_legend_wf; constructor).
  assert (Hperm : Permutation (legend_rows data) (color_labels data))
    by apply sorted_perm.
  assert (Hrow : forall c l, In (c, l) (legend_rows data)
                             <-> first_label data c = Some l).
  { intros c l. split.
    - intros H. apply (Permutation_in _ Hperm) in H.
      apply (wf_get_In _ _ _ Hwf) in H.
      now rewrite color_labels_fold, fold_legend_get in H.
    - intros H. apply (Permutation_in _ (Permutation_sym Hperm)).
      apply get_In. now rewrite color_labels_fold, fold_legend_get. }
  split; [|split; [|split; [exact Hrow|split; [|split; [|split]]]]].
  - eapply Permutation_NoDup; [|exact Hwf].
    symmetry. now apply Permutation_map.
  - intros c. rewrite <- first_label_some. split.
    + intros H. apply in_map_iff in H. destruct H as ([c' l] & <- & H).
      exists l. now apply Hrow.
    + intros [l H]. apply Hrow in H. now apply (in_map fst) in H.
  - apply (sorted_sorted snd).
  - intros str_num root x y vb. unfold add_legend.
    destruct y as [y|]; [now exists y|].
    destruct vb as [[[vx vy] vw] vh]. eexists. reflexivity.
  - intros str_num x y. clear. revert y.
    induction (legend_rows data) as [|[c l] r IH]; intros y; [reflexivity|].
    cbn [legend_items map flat_map app fst snd]. rewrite IH. reflexivity.
  - intros k1 k2 c l1 l2. unfold legend_rows, color_labels.
    cbn [fold_left]. unfold legend_step, mem. simpl.
    rewrite String.eqb_refl. reflexivity.
Qed.

(** ** The view box *)

Lemma prefix_px c d r :
  startswith "px" (String c (String d r)) = Ascii.eqb c "p" && Ascii.eqb d "x".
Proof.
  cbn [startswith]. rewrite andb_true_r.
  now rewrite (Ascii.eqb_sym "p" c), (Ascii.eqb_sym "x" d).
Qed.

(** A text without [px] is left alone. *)
Lemma remove2_px_absent s : contains "px" s = false -> remove2 "p" "x" s = s.
Proof.
  induction s as [|c t IH]; [reflexivity|].
  destruct t as [|d r]; [reflexivity|].
  intros H. change (contains "px" (String c (String d r)))
    with (startswith "px" (String c (String d r))
          || contains "px" (String d r)) in H.
  apply orb_false_iff in H. destruct H as [Hp Hc].
  rewrite prefix_px in Hp.
  change (remove2 "p" "x" (String c (String d r)))
    with (if Ascii.eqb c "p" && Ascii.eqb d "x" then remove2 "p" "x" r
          else String c (remove2 "p" "x" (String d r))).
  rewrite Hp. now rewrite IH.
Qed.

(** A [px] suffix after a text without [px] is stripped. *)
Lemma remove2_px_suffix s :
  contains "px" s = false -> remove2 "p" "x" (s ++ "px") = s.
Proof.
  induction s as [|c t IH]; [reflexivity|].
  destruct t as [|d r].
  - intros _. simpl. destruct (Ascii.eqb c "p"); reflexivity.
  - intros H. change (contains "px" (String c (String d r)))
      with (startswith "px" (String c (String d r))
            || contains "px" (String d r)) in H.
    apply orb_false_iff in H. destruct H as [Hp Hc].
    rewrite prefix_px in Hp.
    change (remove2 "p" "x" (String c (String d r) ++ "px"))
      with (if Ascii.eqb c "p" && Ascii.eqb d "x"
            then remove2 "p" "x" (r ++ "px")
            else String c (remove2 "p" "x" (String d r ++ "px"))).
    rewrite Hp. now rewrite IH.
Qed.

Lemma float4_inr a b c d x y w h :
  py_float a = inr x -> py_float b = inr y ->
  py_float c = inr w -> py_float d = inr h ->
  float4 a b c d = inr (x, y, w, h).
Proof. unfold float4. now intros -> -> -> ->. Qed.

Lemma py_float_inl s e :
  py_float s = inl e -> e = FloatValueError s /\ PyFloat.float s = None.
Proof.
  unfold py_float. destruct (PyFloat.float s); [discriminate|].
  now intros [= <-].
Qed.

Lemma float4_inl a b c d e :
  float4 a b c d = inl e ->
  exists s, e = FloatValueError s /\ PyFloat.float s = None.
Proof.
  unfold float4.
  destruct (py_float a) eqn:Ea; [intros [= <-]; eexists; eapply py_float_inl, Ea|].
  destruct (py_float b) eqn:Eb; [intros [= <-]; eexists; eapply py_float_inl, Eb|].
  destruct (py_float c) eqn:Ec; [intros [= <-]; eexists; eapply py_float_inl, Ec|].
  destruct (py_float d) eqn:Ed; [intros [= <-]; eexists; eapply py_float_inl, Ed|].
  discriminate.
Qed.

Lemma viewbox_from_size_inl root e :
  viewbox_from_size root = inl e ->
  exists s, e = FloatValueError s /\ PyFloat.float s = None.
Proof.
  unfold viewbox_from_size.
  destruct (py_float (remove2 "p" "x" (elem_get_default root "width" "800")))
    eqn:Ew; [intros [= <-]; eexists; eapply py_float_inl, Ew|].
  destruct (py_float (remove2 "p" "x" (elem_get_default root "height" "600")))
    eqn:Eh; [intros [= <-]; eexists; eapply py_float_inl, Eh|].
  discriminate.
Qed.

(** When the [viewBox] attribute does not give four parts, the size
    attributes decide. *)
Lemma get_viewbox_fallback root :
  (elem_get root "viewBox" = None
   \/ exists s, elem_get root "viewBox" = Some s /\ length (split_ws s) <> 4) ->
  get_viewbox root = viewbox_from_size root.
Proof.
  unfold get_viewbox. intros [->|(s & -> & Hl)]; [reflexivity|].
  destruct s as [|c s]; [reflexivity|].
  destruct (split_ws (String c s)) as [|p1 [|p2 [|p3 [|p4 [|p5 r]]]]];
    try reflexivity.
  simpl in Hl. congruence.
Qed.

Lemma py_float_rejects s :
  PyFloat.float s = None -> py_float s = inl (FloatValueError s).
Proof. unfold py_float. now intros ->. Qed.

Lemma py_float_accepts s :
  float_rejects s = false -> exists x, py_float s = inr x.
Proof.
  unfold py_float, float_rejects. destruct (PyFloat.float s) as [f|]; [|discriminate].
  intros _. now exists (NFloat f).
Qed.

(** Of four parts, the first one [float] rejects is the one raised. *)
Lemma float4_first_rejected a b c d t :
  find float_rejects [a; b; c; d] = Some t ->
  float4 a b c d = inl (FloatValueError t).
Proof.
  assert (R : forall s, float_rejects s = true -> PyFloat.float s = None).
  { intros s. unfold float_rejects. now destruct (PyFloat.float s). }
  unfold float4. cbn [find].
  destruct (float_rejects a) eqn:Ea;
    [intros [= <-]; now rewrite (py_float_rejects a (R a Ea))|].
  destruct (py_float_accepts a Ea) as [x ->].
  destruct (float_rejects b) eqn:Eb;
    [intros [= <-]; now rewrite (py_float_rejects b (R b Eb))|].
  destruct (py_float_accepts b Eb) as [y ->].
  destruct (float_rejects c) eqn:Ec;
    [intros [= <-]; now rewrite (py_float_rejects c (R c Ec))|].
  destruct (py_float_accepts c Ec) as [w ->].
  destruct (float_rejects d) eqn:Ed;
    [intros [= <-]; now rewrite (py_float_rejects d (R d Ed))|].
  discriminate.
Qed.

(** C8 as stated fails: a width that is not a number, such as a
    percentage, makes [get_viewbox] raise instead of returning. *)
Lemma get_viewbox_percent_counterexample :
  get_viewbox
    (Element "svg" [("width", "100%"); ("height", "100%")] None [])
  = inl (FloatValueError "100%").
Proof. reflexivity. Qed.

(** C8 (amended): a [viewBox] attribute that splits on white space into
    four parts [float] accepts gives those four numbers; when the
    attribute is absent or does not split into four parts, the result
    is [(0, 0, width, height)] read from the width and height
    attributes, [800] and [600] standing in for an absent one, with
    every [px] removed, a [px] suffix in particular, as long as [float]
    accepts both; with none of the three attributes it is
    [(0, 0, 800, 600)]; and the only way not to return is the
    [ValueError] of [float] on a text it rejects. That error is raised
    whenever [float] rejects a text it is given: with four parts, for
    the first part rejected; in the other case for the width text, and
    for the height text when the width text was accepted. *)
Theorem get_viewbox_spec (root : element) :
  (forall s a b c d x y w h,
      elem_get root "viewBox" = Some s -> split_ws s = [a; b; c; d] ->
      py_float a = inr x -> py_float b = inr y ->
      py_float c = inr w -> py_float d = inr h ->
      get_viewbox root = inr (x, y, w, h))
  /\ (forall w h,
        (elem_get root "viewBox" = None
         \/ exists s, elem_get root "viewBox" = Some s
                      /\ length (split_ws s) <> 4) ->
        py_float (remove2 "p" "x" (elem_get_default root "width" "800")) = inr w ->
        py_float (remove2 "p" "x" (elem_get_default root "height" "600")) = inr h ->
        get_viewbox root = inr (NInt 0, NInt 0, w, h))
  /\ (forall s, contains "px" s = false ->
                remove2 "p" "x" (s ++ "px") = s /\ remove2 "p" "x" s = s)
  /\ (elem_get root "viewBox" = None -> elem_get root "width" = None ->
      elem_get root "height" = None ->
      get_viewbox root
      = inr (NInt 0, NInt 0,
             NFloat (FDec false 800 0), NFloat (FDec false 600 0)))
  /\ (forall e, get_viewbox root = inl e ->
                exists s, e = FloatValueError s /\ PyFloat.float s = None)
  /\ (forall s a b c d t,
        elem_get root "viewBox" = Some s -> split_ws s = [a; b; c; d] ->
        find float_rejects [a; b; c; d] = Some t ->
        get_viewbox root = inl (FloatValueError t))
  /\ (forall width,
        (elem_get root "viewBox" = None
         \/ exists s, elem_get root "viewBox" = Some s
                      /\ length (split_ws s) <> 4) ->
        remove2 "p" "x" (elem_get_default root "width" "800") = width ->
        PyFloat.float width = None ->
        get_viewbox root = inl (FloatValueError width))
  /\ (forall w height,
        (elem_get root "viewBox" = None
         \/ exists s, elem_get root "viewBox" = Some s
                      /\ length (split_ws s) <> 4) ->
        py_float (remove2 "p" "x" (elem_get_default root "width" "800"))
        = inr w ->
        remove2 "p" "x" (elem_get_default root "height" "600") = height ->
        PyFloat.float height = None ->
        get_viewbox root = inl (FloatValueError height)).
Proof.
  split; [|split; [|split; [|split; [|split; [|split; [|split]]]]]].
  - intros s a b c d x y w h Hs Hp Ha Hb Hc Hd.
    unfold get_viewbox. rewrite Hs.
    destruct s as [|ch s]; [discriminate|].
    rewrite Hp. now apply float4_inr.
  - intros w h Hvb Hw Hh. rewrite get_viewbox_fallback by exact Hvb.
    unfold viewbox_from_size. now rewrite Hw, Hh.
  - intros s Hs. split; [now apply remove2_px_suffix|now apply remove2_px_absent].
  - intros Hvb Hw Hh. rewrite get_viewbox_fallback by (now left).
    unfold viewbox_from_size, elem_get_default. rewrite Hw, Hh. reflexivity.
  - intros e. unfold get_viewbox.
    destruct (elem_get root "viewBox") as [[|ch s]|];
      try apply viewbox_from_size_inl.
    destruct (split_ws (String ch s)) as [|p1 [|p2 [|p3 [|p4 [|p5 r]]]]];
      try apply viewbox_from_size_inl.
    apply float4_inl.
  - intros s a b c d t Hs Hp Hf. unfold get_viewbox. rewrite Hs.
    destruct s as [|ch s]; [discriminate|].
    rewrite Hp. now apply float4_first_rejected.
  - intros width Hvb <- Hw. rewrite get_viewbox_fallback by exact Hvb.
    unfold viewbox_from_size. now rewrite (py_float_rejects _ Hw).
  - intros w height Hvb Hw <- Hh. rewrite get_viewbox_fallback by exact Hvb.
    unfold viewbox_from_size. now rewrite Hw, (py_float_rejects _ Hh).
Qed.

Lemma get_viewbox_spec_witness :
  let root :=
    Element "svg" [("viewBox", " 0 0  1000 500.5"); ("width", "640px")] None [] in
  let sized := Element "svg" [("width", "640px"); ("height", "480")] None [] in
  elem_get root "viewBox" = Some " 0 0  1000 500.5"
  /\ split_ws " 0 0  1000 500.5" = ["0"; "0"; "1000"; "500.5"]
  /\ get_viewbox root
     = inr (NFloat (FDec false 0 0), NFloat (FDec false 0 0),
            NFloat (FDec false 1000 0), NFloat (FDec false 5005 (-1)))
  /\ elem_get sized "viewBox" = None
  /\ get_viewbox sized
     = inr (NInt 0, NInt 0,
            NFloat (FDec false 640 0), NFloat (FDec false 480 0))
  /\ (let boxed := Element "svg" [("viewBox", "0 0 wide 500")] None [] in
      elem_get boxed "viewBox" = Some "0 0 wide 500"
      /\ split_ws "0 0 wide 500" = ["0"; "0"; "wide"; "500"]
      /\ get_viewbox boxed = inl (FloatValueError "wide"))
  /\ (let tall := Element "svg" [("width", "640px"); ("height", "50%")] None [] in
      elem_get tall "viewBox" = None
      /\ get_viewbox tall = inl (FloatValueError "50%")).
Proof.
  intros root sized.
  assert (H1 : elem_get root "viewBox" = Some " 0 0  1000 500.5") by reflexivity.
  assert (H2 : split_ws " 0 0  1000 500.5" = ["0"; "0"; "1000"; "500.5"])
    by reflexivity.
  assert (H3 : elem_get sized "viewBox" = None) by reflexivity.
  split; [exact H1|]. split; [exact H2|].
  split; [|split; [exact H3|split; [|split]]].
  - exact (proj1 (get_viewbox_spec root) _ _ _ _ _ _ _ _ _ H1 H2
             eq_refl eq_refl eq_refl eq_refl).
  - exact (proj1 (proj2 (get_viewbox_spec sized)) _ _ (or_introl H3)
             eq_refl eq_refl).
  - intros boxed.
    assert (H4 : elem_get boxed "viewBox" = Some "0 0 wide 500") by reflexivity.
    assert (H5 : split_ws "0 0 wide 500" = ["0"; "0"; "wide"; "500"])
      by reflexivity.
    split; [exact H4|]. split; [exact H5|].
    exact (proj1 (proj2 (proj2 (proj2 (proj2 (proj2
             (get_viewbox_spec boxed))))))
             _ _ _ _ _ _ H4 H5 eq_refl).
  - intros tall.
    assert (H6 : elem_get tall "viewBox" = None) by reflexivity.
    split; [exact H6|].
    exact (proj2 (proj2 (proj2 (proj2 (proj2 (proj2 (proj2
             (get_viewbox_spec tall)))))))
             _ _ (or_introl H6) eq_refl eq_refl eq_refl).
Defined.

(** ** The data file *)

Lemma parse_json_item_mem result item k :
  mem k (parse_json_item result item) = true
  <-> mem k result = true
      \/ (fst item = k /\ is_entry_value (snd item) = true).
Proof.
  destruct item as [code value]. cbn [fst snd].
  assert (Hset : forall e, mem k (set code e result) = true
                           <-> mem k result = true \/ code = k).
  { intros e. destruct (String.eqb_spec k code) as [->|Hne].
    - rewrite mem_set_same. tauto.
    - rewrite mem_set_other by exact Hne. intuition congruence. }
  destruct value; cbn [parse_json_item is_entry_value];
    try rewrite Hset; intuition discriminate.
Qed.

Lemma fold_parse_json_mem o acc k :
  mem k (fold_left parse_json_item o acc) = true
  <-> mem k acc = true
      \/ exists v, In (k, v) o /\ is_entry_value v = true.
Proof.
  revert acc. induction o as [|[code value] r IH]; intros acc.
  - simpl. split; [auto|intros [H|(v & [] & _)]; exact H].
  - cbn [fold_left]. rewrite IH, parse_json_item_mem. cbn [fst snd]. split.
    + intros [[H|[-> Hv]]|(v & Hin & Hv)]; auto.
      * right. exists value. split; [now left|exact Hv].
      * right. exists v. split; [now right|exact Hv].
    + intros [H|(v & [[= -> ->]|Hin] & Hv)]; auto.
      right. now exists v.
Qed.

(** Decoding a JSON object never raises; the codes of the catalog are
    exactly the keys bound to a string or an object. *)
Lemma parse_json_entries (o : dict json) :
  exists result,
    parse_json (JObj o) = inr result
    /\ (forall k, mem k result = true
                  <-> exists v, In (k, v) o /\ is_entry_value v = true)
    /\ (forall k v, wf o -> In (k, v) o -> is_entry_value v = false ->
                    get k result = None).
Proof.
  exists (fold_left parse_json_item o []). split; [reflexivity|].
  assert (Hmem : forall k, mem k (fold_left parse_json_item o []) = true
                           <-> exists v, In (k, v) o /\ is_entry_value v = true).
  { intros k. rewrite fold_parse_json_mem. split; [|auto].
    intros [H|H]; [discriminate|exact H]. }
  split; [exact Hmem|].
  intros k v Hwf Hin Hv.
  assert (Hf : mem k (fold_left parse_json_item o []) = false).
  { destruct (mem k (fold_left parse_json_item o [])) eqn:E; [|reflexivity].
    apply Hmem in E. destruct E as (v' & Hin' & Hv').
    apply (wf_get_In _ _ _ Hwf) in Hin. apply (wf_get_In _ _ _ Hwf) in Hin'.
    congruence. }
  unfold mem in Hf.
  now destruct (get k (fold_left parse_json_item o [])).
Qed.

(** C10: for a data file with the [.json] extension that decodes to an
    object, [parse_data] returns a catalog and does not raise; the codes
    of the catalog are exactly the keys bound to a string or an object;
    so a key whose value is a number, a boolean, a list or null has no
    entry in the catalog. *)
Theorem parse_data_omits_other_values (fs : Type)
    (json_load : fs -> string -> exn + json)
    (csv_rows : fs -> string -> exn + list (exn + csv_row))
    (w : fs) (data_path : string) (o : dict json) :
  lower (splitext_ext data_path) = ".json" ->
  json_load w data_path = inr (JObj o) ->
  wf o ->
  exists result,
    parse_data fs json_load csv_rows w data_path = inr result
    /\ (forall k, mem k result = true
                  <-> exists v, In (k, v) o /\ is_entry_value v = true)
    /\ (forall k v, In (k, v) o -> is_entry_value v = false ->
                    get k result = None).
Proof.
  intros Hext Hload Hwf.
  destruct (parse_json_entries o) as (result & Hr & Hm & Ho).
  exists result. split; [|split; [exact Hm|]].
  - unfold parse_data. now rewrite Hext, Hload.
  - intros k v. now apply Ho.
Qed.

Lemma parse_data_omits_other_values_witness :
  let o : dict json :=
    [ ("US", JStr "#3b82f6"); ("N", JInt 5); ("B", JBool true);
      ("L", JArr [JStr "#111"]); ("Z", JNull);
      ("CA", JObj [("label", JStr "Canada")]) ] in
  let w : MemFS.fs := [ ("Data.JSON", MemFS.JsonFile (JObj o)) ] in
  lower (splitext_ext "Data.JSON") = ".json"
  /\ MemFS.json_load w "Data.JSON" = inr (JObj o)
  /\ wf o
  /\ exists result,
       parse_data MemFS.fs MemFS.json_load MemFS.csv_rows w "Data.JSON"
       = inr result
       /\ keys result = ["US"; "CA"]
       /\ get "N" result = None /\ get "B" result = None
       /\ get "L" result = None /\ get "Z" result = None.
Proof.
  intros o w.
  assert (Hext : lower (splitext_ext "Data.JSON") = ".json") by reflexivity.
  assert (Hload : MemFS.json_load w "Data.JSON" = inr (JObj o)) by reflexivity.
  assert (Hwf : wf o).
  { unfold wf. simpl. repeat constructor; simpl; intuition discriminate. }
  split; [exact Hext|]. split; [exact Hload|]. split; [exact Hwf|].
  destruct (parse_data_omits_other_values MemFS.fs MemFS.json_load
              MemFS.csv_rows w "Data.JSON" o Hext Hload Hwf)
    as (result & Hr & Hm & Ho).
  exists result. split; [exact Hr|]. split.
  - injection Hr as <-. reflexivity.
  - split; [|split; [|split]].
    + apply (Ho "N" (JInt 5)); [right; now left|reflexivity].
    + apply (Ho "B" (JBool true)); [do 2 right; now left|reflexivity].
    + apply (Ho "L" (JArr [JStr "#111"])); [do 3 right; now left|reflexivity].
    + apply (Ho "Z" JNull); [do 4 right; now left|reflexivity].
Defined.

(** ** Fatal conditions *)

Section RunFacts.
Variable str_num : num -> string.
Variable fs : Type.
Variable path_exists : fs -> string -> bool.
Variable json_load : fs -> string -> exn + json.
Variable csv_rows : fs -> string -> exn + list (exn + csv_row).
Variable et_parse : fs -> string -> exn + element.
Variable et_write : fs -> string -> element -> fs * option exn.

Let run := color_map str_num fs path_exists json_load csv_rows et_parse et_write.
Let data_of := parse_data fs json_load csv_rows.

Lemma parse_data_unsupported w data_path :
  supported_ext data_path = false ->
  data_of w data_path
  = inl (ValueError ("Unsupported data format: "
                     ++ lower (splitext_ext data_path)
                     ++ ". Use .json or .csv")).
Proof.
  unfold supported_ext, data_of, parse_data. intros H.
  apply orb_false_iff in H. destruct H as [-> ->]. reflexivity.
Qed.

(** Whatever the run does, the file system it leaves is the one it
    found, unless every step before the write succeeded. *)
Lemma color_map_write_last w input_path data_path output_path opts w' r :
  run w input_path data_path output_path opts = Some (w', r) ->
  w' = w
  \/ exists raw data root vb,
       data_of w data_path = inr raw
       /\ as_catalog raw = Some data
       /\ et_parse w input_path = inr root
       /\ get_viewbox root = inr vb
       /\ w' = fst (et_write w output_path
                      (fst (color_tree str_num data opts vb root))).
Proof.
  unfold run, color_map, data_of.
  destruct (path_exists w input_path); cbn [negb];
    [|intros [= <- _]; now left].
  destruct (path_exists w data_path); cbn [negb];
    [|intros [= <- _]; now left].
  destruct (parse_data fs json_load csv_rows w data_path) as [e|raw] eqn:Ep;
    [intros [= <- _]; now left|].
  destruct (et_parse w input_path) as [e|root] eqn:Er;
    [intros [= <- _]; now left|].
  destruct (get_viewbox root) as [e|vb] eqn:Ev; [intros [= <- _]; now left|].
  destruct (as_catalog raw) as [data|] eqn:Ec; [|discriminate].
  destruct (color_tree str_num data opts vb root) as [tree stats] eqn:Et.
  intros H. right. exists raw, data, root, vb.
  split; [reflexivity|]. split; [exact Ec|]. split; [reflexivity|].
  split; [exact Ev|]. rewrite Et. cbn [fst].
  destruct (et_write w output_path tree) as [w1 [e|]];
    injection H as <- _; reflexivity.
Qed.
End RunFacts.

(** C9: a missing input document, a missing data file and a data file
    with an unsupported extension each make [color_map] raise, with the
    file system left as it was; and in every run the file system only
    changes through the write that follows a completed walk. *)
Theorem color_map_fatal (str_num : num -> string) (fs : Type)
    (path_exists : fs -> string -> bool)
    (json_load : fs -> string -> exn + json)
    (csv_rows : fs -> string -> exn + list (exn + csv_row))
    (et_parse : fs -> string -> exn + element)
    (et_write : fs -> string -> element -> fs * option exn)
    (w : fs) (input_path data_path output_path : string) (opts : options) :
  let run :=
    color_map str_num fs path_exists json_load csv_rows et_parse et_write in
  (path_exists w input_path = false ->
   run w input_path data_path output_path opts
   = Some (w, inl (FileNotFoundError
                     ("Input SVG file not found: " ++ input_path))))
  /\ (path_exists w input_path = true -> path_exists w data_path = false ->
      run w input_path data_path output_path opts
      = Some (w, inl (FileNotFoundError
                        ("Data file not found: " ++ data_path))))
  /\ (path_exists w input_path = true -> path_exists w data_path = true ->
      supported_ext data_path = false ->
      run w input_path data_path output_path opts
      = Some (w, inl (ValueError
                        ("Unsupported data format: "
                         ++ lower (splitext_ext data_path)
                         ++ ". Use .json or .csv"))))
  /\ (path_exists w input_path = false \/ path_exists w data_path = false
      \/ supported_ext data_path = false ->
      exists e, run w input_path data_path output_path opts = Some (w, inl e))
  /\ (forall w' r,
        run w input_path data_path output_path opts = Some (w', r) ->
        w' = w
        \/ exists raw data root vb,
             parse_data fs json_load csv_rows w data_path = inr raw
             /\ as_catalog raw = Some data
             /\ et_parse w input_path = inr root
             /\ get_viewbox root = inr vb
             /\ w' = fst (et_write w output_path
                            (fst (color_tree str_num data opts vb root)))).
Proof.
  intros run.
  assert (H1 : path_exists w input_path = false ->
               run w input_path data_path output_path opts
               = Some (w, inl (FileNotFoundError
                                 ("Input SVG file not found: " ++ input_path)))).
  { intros H. unfold run, color_map. now rewrite H. }
  assert (H2 : path_exists w input_path = true ->
               path_exists w data_path = false ->
               run w input_path data_path output_path opts
               = Some (w, inl (FileNotFoundError
                                 ("Data file not found: " ++ data_path)))).
  { intros Hi Hd. unfold run, color_map. now rewrite Hi, Hd. }
  assert (H3 : path_exists w input_path = true ->
               path_exists w data_path = true ->
               supported_ext data_path = false ->
               run w input_path data_path output_path opts
               = Some (w, inl (ValueError
                                 ("Unsupported data format: "
                                  ++ lower (splitext_ext data_path)
                                  ++ ". Use .json or .csv")))).
  { intros Hi Hd He. unfold run, color_map. rewrite Hi, Hd. cbn [negb].
    now rewrite (parse_data_unsupported fs json_load csv_rows w data_path He). }
  split; [exact H1|]. split; [exact H2|]. split; [exact H3|]. split.
  - intros H.
    destruct (path_exists w input_path) eqn:Hi; [|eexists; now apply H1].
    destruct (path_exists w data_path) eqn:Hd; [|eexists; now apply H2].
    destruct H as [H|[H|H]]; try discriminate.
    eexists. now apply H3.
  - intros w' r. apply color_map_write_last.
Qed.

Lemma color_map_fatal_witness :
  let opts :=
    {| default_color := "#ececec"; add_legend_flag := true;
       title_text := None; legend_x := NInt 50; legend_y := None |} in
  let svg := Element "svg" [] None [ Element "path" [("id", "US")] None [] ] in
  let catalog_file := MemFS.JsonFile (JObj [("US", JStr "#3b82f6")]) in
  let no_input : MemFS.fs := [ ("data.json", catalog_file) ] in
  let no_data : MemFS.fs := [ ("map.svg", MemFS.SvgFile svg) ] in
  let bad_ext : MemFS.fs :=
    [ ("map.svg", MemFS.SvgFile svg); ("data.yaml", catalog_file) ] in
  (MemFS.path_exists no_input "map.svg" = false
   /\ MemFS.color_map (fun _ => "0") no_input "map.svg" "data.json" "out.svg" opts
      = Some (no_input,
              inl (FileNotFoundError "Input SVG file not found: map.svg")))
  /\ (MemFS.path_exists no_data "data.json" = false
      /\ MemFS.color_map (fun _ => "0") no_data "map.svg" "data.json" "out.svg" opts
         = Some (no_data,
                 inl (FileNotFoundError "Data file not found: data.json")))
  /\ (supported_ext "data.yaml" = false
      /\ MemFS.color_map (fun _ => "0") bad_ext "map.svg" "data.yaml" "out.svg" opts
         = Some (bad_ext,
                 inl (ValueError
                        "Unsupported data format: .yaml. Use .json or .csv"))).
Proof.
  intros opts svg catalog_file no_input no_data bad_ext.
  pose (thm := fun w d =>
          color_map_fatal (fun _ => "0") MemFS.fs MemFS.path_exists
            MemFS.json_load MemFS.csv_rows MemFS.et_parse MemFS.et_write
            w "map.svg" d "out.svg" opts).
  assert (H1 : MemFS.path_exists no_input "map.svg" = false) by reflexivity.
  assert (H2 : MemFS.path_exists no_data "data.json" = false) by reflexivity.
  assert (H3 : supported_ext "data.yaml" = false) by reflexivity.
  split; [split; [exact H1|]|split; [split; [exact H2|]|split; [exact H3|]]].
  - exact (proj1 (thm no_input "data.json") H1).
  - exact (proj1 (proj2 (thm no_data "data.json")) eq_refl H2).
  - exact (proj1 (proj2 (proj2 (thm bad_ext "data.yaml"))) eq_refl eq_refl H3).
Defined.

(** A run that meets no fatal condition writes the coloured tree and
    returns the statistics. *)
Example color_map_success :
  let opts :=
    {| default_color := "#ececec"; add_legend_flag := false;
       title_text := None; legend_x := NInt 50; legend_y := None |} in
  let svg :=
    Element "svg" [] None
      [ Element "path" [("id", "US")] None [];
        Element "path" [("id", "FR")] None [] ] in
  let w : MemFS.fs :=
    [ ("map.svg", MemFS.SvgFile svg);
      ("data.json", MemFS.JsonFile (JObj [("US", JStr "#3b82f6")])) ] in
  MemFS.color_map (fun _ => "0") w "map.svg" "data.json" "out.svg" opts
  = Some (w ++ [ ("out.svg",
                  MemFS.SvgFile
                    (Element "svg" [] None
                       [ Element "path" [("id", "US"); ("fill", "#3b82f6")] None [];
                         Element "path" [("id", "FR"); ("fill", "#ececec")] None [] ])) ],
          inr {| colored := 1; multi_path := 0; unmatched := 0;
                 unmatched_codes := [] |})%list.
Proof. reflexivity. Qed.

(** ** Scenarios *)

(** Two paths of class [Canada] and no id, catalog [{"CA": "#ef4444"}]:
    both are coloured through the alias table. *)
Example scenario_multi_path :
  let data : catalog := [ ("CA", {| color := "#ef4444"; label := "CA" |}) ] in
  let opts :=
    {| default_color := "#ececec"; add_legend_flag := false;
       title_text := None; legend_x := NInt 50; legend_y := None |} in
  let root :=
    Element "svg" [] None
      [ Element "path" [("class", "Canada")] None [];
        Element "path" [("class", "Canada")] None [] ] in
  color_document (fun _ => "0") data opts root
  = inr (Element "svg" [] None
           [ Element "path" [("class", "Canada"); ("fill", "#ef4444")] None [];
             Element "path" [("class", "Canada"); ("fill", "#ef4444")] None [] ],
         {| colored := 2; multi_path := 2; unmatched := 0;
            unmatched_codes := [] |}).
Proof. reflexivity. Qed.

(** A code no path resolves to is reported as unmatched. *)
Example scenario_unmatched :
  let data : catalog := [ ("ZZ", {| color := "#000000"; label := "ZZ" |}) ] in
  let opts :=
    {| default_color := "#ececec"; add_legend_flag := false;
       title_text := None; legend_x := NInt 50; legend_y := None |} in
  let root :=
    Element "svg" [] None [ Element "path" [("id", "US")] None [] ] in
  option_map snd
    (match color_document (fun _ => "0") data opts root with
     | inr r => Some r
     | inl _ => None
     end)
  = Some {| colored := 0; multi_path := 0; unmatched := 1;
            unmatched_codes := ["ZZ"] |}.
Proof. reflexivity. Qed.

(** Two codes sharing a colour give one legend row, labelled by the
    code inserted first. *)
Example scenario_legend :
  legend_rows
    [ ("US", {| color := "#111"; label := "USA" |});
      ("CA", {| color := "#111"; label := "Canada" |}) ]
  = [ ("#111", "USA") ].
Proof. reflexivity. Qed.

(** * Further properties of the script *)

(** ** Style codec *)





Lemma mem_existsb_keys {V} k (d : dict V) :
  mem k d = existsb (String.eqb k) (keys d).
Proof.
  unfold mem. induction d as [|[k' v'] r IH]; simpl; [reflexivity|].
  rewrite (String.eqb_sym k k').
  destruct (String.eqb k' k); [reflexivity|exact IH].
Qed.

Lemma keys_set_add {V} k (v : V) d : keys (set k v d) = set_add k (keys d).
Proof.
  rewrite keys_set. unfold set_add. now rewrite mem_existsb_keys.
Qed.

Lemma fold_set_keys {V} (m acc : dict V) :
  keys (fold_left (fun a kv => set (fst kv) (snd kv) a) m acc)
  = fold_left (fun s k => set_add k s) (keys m) (keys acc).
Proof.
  revert acc. induction m as [|[k v] r IH]; intros acc; [reflexivity|].
  cbn [fold_left fst snd]. rewrite IH, keys_set_add. reflexivity.
Qed.

Lemma get_app_last {V} k (d : dict V) k' v' :
  get k (d ++ [(k', v')])%list
  = match get k d with
    | Some v => Some v
    | None => if String.eqb k' k then Some v' else None
    end.
Proof.
  induction d as [|[k0 v0] r IH]; simpl; [reflexivity|].
  destruct (String.eqb k0 k); [reflexivity|exact IH].
Qed.

(** Filling a dictionary binding by binding: the last binding of a key
    is the one that stays. *)
Lemma fold_set_get {V} (m acc : dict V) k :
  get k (fold_left (fun a kv => set (fst kv) (snd kv) a) m acc)
  = match get k (rev m) with
    | Some v => Some v
    | None => get k acc
    end.
Proof.
  revert acc. induction m as [|[k' v'] r IH]; intros acc; [reflexivity|].
  cbn [fold_left fst snd rev]. rewrite IH, get_app_last.
  destruct (get k (rev r)); [reflexivity|].
  destruct (String.eqb_spec k' k) as [->|Hne].
  - apply get_set_same.
  - apply get_set_other. congruence.
Qed.

Lemma parse_serialized_clean m :
  clean_style m = true ->
  parse_style (style_to_string m)
  = fold_left (fun a kv => set (fst kv) (snd kv) a) m [].
Proof.
  intros Hclean. rewrite parse_style_fold. unfold style_to_string.
  destruct m as [|kv r] eqn:Em; [reflexivity|].
  rewrite <- Em in *. rewrite split_join.
  - now apply fold_parse_clean.
  - rewrite Em. discriminate.
  - now apply clean_style_no_semicolon.
Qed.

(** X2: parsing the serialized form of a clean list of declarations in
    which a property may occur more than once keeps, for each property,
    its last value, and lists the properties in the order of their
    first appearance. *)
Theorem parse_style_last_wins (m : dict string) :
  clean_style m = true ->
  (forall k, get k (parse_style (style_to_string m)) = get k (rev m))
  /\ keys (parse_style (style_to_string m)) = first_seen (keys m).
Proof.
  intros Hclean. rewrite parse_serialized_clean by exact Hclean. split.
  - intros k. rewrite fold_set_get. now destruct (get k (rev m)).
  - apply (fold_set_keys m []).
Qed.

Lemma parse_style_last_wins_witness :
  let m := [("fill", "red"); ("stroke", "#000"); ("fill", "blue")] in
  clean_style m = true
  /\ get "fill" (parse_style (style_to_string m)) = Some "blue"
  /\ keys (parse_style (style_to_string m)) = ["fill"; "stroke"].
Proof.
  intros m.
  assert (H : clean_style m = true) by reflexivity.
  split; [exact H|].
  destruct (parse_style_last_wins m H) as [Hg Hk].
  split; [exact (Hg "fill")|exact Hk].
Defined.

(** ** [set_fill_color] on a clean colour *)

Lemma reparse_clean m :
  wf m -> clean_style m = true -> parse_style (style_to_string m) = m.
Proof.
  intros Hwf Hclean. rewrite parse_serialized_clean by exact Hclean.
  rewrite fold_set_fresh; [reflexivity|exact Hwf|intros k _ []].
Qed.

Lemma reparse_fill s c :
  clean_value c = true ->
  parse_style (style_to_string (set "fill" c (parse_style s)))
  = set "fill" c (parse_style s).
Proof.
  intros Hc. apply reparse_clean.
  - apply set_keeps_wf, parse_style_wf.
  - apply clean_style_set; [reflexivity|exact Hc|apply parse_style_clean].
Qed.

Lemma style_to_string_nonempty (m : dict string) :
  m <> [] -> style_to_string m <> EmptyString.
Proof.
  destruct m as [|[k v] r]; [congruence|]. intros _ H.
  unfold style_to_string in H. cbn [map fst snd] in H.
  assert (E : forall x y : string, x ++ ":" ++ y <> EmptyString)
    by (intros [|a x] y; discriminate).
  destruct (map (fun kv => fst kv ++ ":" ++ snd kv) r) as [|seg segs].
  - simpl in H. exact (E _ _ H).
  - change (join ";" ((k ++ ":" ++ v) :: seg :: segs))
      with ((k ++ ":" ++ v) ++ ";" ++ join ";" (seg :: segs)) in H.
    destruct k; discriminate.
Qed.

Lemma set_nonempty {V} k (v : V) d : set k v d <> [].
Proof.
  destruct d as [|[k' v'] r]; simpl; [discriminate|].
  destruct (String.eqb k' k); discriminate.
Qed.

Lemma set_set {V} k (v1 v2 : V) d : set k v2 (set k v1 d) = set k v2 d.
Proof.
  induction d as [|[k' v'] r IH]; simpl.
  - now rewrite String.eqb_refl.
  - destruct (String.eqb k' k) eqn:E; simpl; rewrite E; [reflexivity|].
    now rewrite IH.
Qed.

Lemma elem_set_set e name v1 v2 :
  elem_set (elem_set e name v1) name v2 = elem_set e name v2.
Proof. destruct e. simpl. now rewrite set_set. Qed.

Lemma truthy_nonempty s : s <> EmptyString -> truthy (Some s) = true.
Proof. destruct s; [congruence|reflexivity]. Qed.

(** X4: with a colour the codec can carry, [set_fill_color] on an
    element with a non-empty style leaves a style that parses to the
    old map with [fill] set to the colour, the other properties and
    their order untouched; without a style it leaves the colour in the
    [fill] attribute; and no attribute other than the one written
    changes. *)
Theorem set_fill_color_reads_back (e : element) (c : string) :
  clean_value c = true ->
  (truthy (elem_get e "style") = true ->
   exists s',
     elem_get (set_fill_color e c) "style" = Some s'
     /\ parse_style s'
        = set "fill" c (parse_style (elem_get_default e "style" ""))
     /\ forall name, name <> "style" ->
                     elem_get (set_fill_color e c) name = elem_get e name)
  /\ (truthy (elem_get e "style") = false ->
      elem_get (set_fill_color e c) "fill" = Some c
      /\ forall name, name <> "fill" ->
                      elem_get (set_fill_color e c) name = elem_get e name).
Proof.
  intros Hc. split; intros Hs.
  - rewrite set_fill_color_style by exact Hs. eexists.
    split; [apply elem_get_set_same|]. split.
    + now apply reparse_fill.
    + intros name Hn. now apply elem_get_set_other.
  - rewrite set_fill_color_bare by exact Hs.
    split; [apply elem_get_set_same|].
    intros name Hn. now apply elem_get_set_other.
Qed.

Lemma set_fill_color_reads_back_witness :
  let e := Element "path" [("id", "US"); ("style", "stroke:#000; fill:red")] None [] in
  clean_value "#3b82f6" = true
  /\ truthy (elem_get e "style") = true
  /\ exists s',
       elem_get (set_fill_color e "#3b82f6") "style" = Some s'
       /\ parse_style s' = [("stroke", "#000"); ("fill", "#3b82f6")]
       /\ forall name, name <> "style" ->
                       elem_get (set_fill_color e "#3b82f6") name
                       = elem_get e name.
Proof.
  intros e.
  assert (Hc : clean_value "#3b82f6" = true) by reflexivity.
  assert (Hs : truthy (elem_get e "style") = true) by reflexivity.
  split; [exact Hc|]. split; [exact Hs|].
  exact (proj1 (set_fill_color_reads_back e "#3b82f6" Hc) Hs).
Defined.

Lemma elem_get_default_set_same e name value default :
  elem_get_default (elem_set e name value) name default = value.
Proof. unfold elem_get_default. now rewrite elem_get_set_same. Qed.

(** A second colour replaces a first one the codec can carry, as if the
    first had never been set. *)
Lemma set_fill_color_twice e c1 c2 :
  clean_value c1 = true ->
  set_fill_color (set_fill_color e c1) c2 = set_fill_color e c2.
Proof.
  intros Hc. destruct (truthy (elem_get e "style")) eqn:Hs.
  - rewrite (set_fill_color_style e c1 Hs), (set_fill_color_style e c2 Hs).
    rewrite set_fill_color_style.
    + rewrite elem_get_default_set_same.
      rewrite reparse_fill by exact Hc. now rewrite set_set, elem_set_set.
    + rewrite elem_get_set_same.
      apply truthy_nonempty, style_to_string_nonempty, set_nonempty.
  - rewrite (set_fill_color_bare e c1 Hs), (set_fill_color_bare e c2 Hs).
    rewrite set_fill_color_bare; [apply elem_set_set|].
    now rewrite elem_get_set_other by discriminate.
Qed.

(** Without a style the first colour may be any string. *)
Lemma set_fill_color_twice_bare e c1 c2 :
  truthy (elem_get e "style") = false ->
  set_fill_color (set_fill_color e c1) c2 = set_fill_color e c2.
Proof.
  intros Hs.
  rewrite (set_fill_color_bare e c1 Hs), (set_fill_color_bare e c2 Hs).
  rewrite set_fill_color_bare; [apply elem_set_set|].
  now rewrite elem_get_set_other by discriminate.
Qed.

(** X5: setting a colour the codec can carry and then another is the
    same as setting the second alone; in particular setting the same
    colour twice is the same as setting it once. *)
Theorem set_fill_color_overwrite (e : element) (c1 c2 : string) :
  clean_value c1 = true ->
  set_fill_color (set_fill_color e c1) c2 = set_fill_color e c2
  /\ set_fill_color (set_fill_color e c1) c1 = set_fill_color e c1.
Proof.
  intros Hc. split; now apply set_fill_color_twice.
Qed.

Lemma set_fill_color_overwrite_witness :
  let e := Element "path" [("style", "stroke:#000")] None [] in
  clean_value "red" = true
  /\ set_fill_color (set_fill_color e "red") "blue" = set_fill_color e "blue"
  /\ set_fill_color (set_fill_color e "red") "red" = set_fill_color e "red".
Proof.
  intros e.
  assert (Hc : clean_value "red" = true) by reflexivity.
  split; [exact Hc|exact (set_fill_color_overwrite e "red" "blue" Hc)].
Defined.

(** ** What the walk changes *)

Lemma set_fill_color_frame e c name :
  name <> "fill" -> name <> "style" ->
  elem_get (set_fill_color e c) name = elem_get e name.
Proof.
  intros Hf Hs. unfold set_fill_color.
  destruct (elem_get e "style") as [[|a s]|];
    now apply elem_get_set_other.
Qed.

Lemma color_path_frame data dflt st p name :
  name <> "fill" -> name <> "style" ->
  elem_get (snd (color_path data dflt st p)) name = elem_get p name.
Proof.
  intros Hf Hs. unfold color_path, apply_color, apply_default.
  destruct (resolve data p) as [[|a c] code|[|a c] code|]; simpl;
    try (now apply set_fill_color_frame);
    destruct (wants_default p);
    try (now apply set_fill_color_frame); reflexivity.
Qed.

Section FrameFacts.
Variables (data : catalog) (dflt t : string).

Lemma walk_list_length st cs :
  length (snd (walk_list data dflt t st cs)) = length cs.
Proof.
  revert st. induction cs as [|c r IH]; intros st; [reflexivity|].
  cbn [walk_list]. destruct (walk_elem data dflt t st c) as [sta c'].
  specialize (IH sta). destruct (walk_list data dflt t sta r) as [stb r'].
  simpl in *. now rewrite IH.
Qed.

Lemma walk_list_frame st cs :
  Forall (fun e => forall st,
            Forall2 (only_fill_changed t) (iter e)
                    (iter (snd (walk_elem data dflt t st e)))) cs ->
  Forall2 (only_fill_changed t) (flat_map iter cs)
          (flat_map iter (snd (walk_list data dflt t st cs))).
Proof.
  intros H. revert st. induction H as [|c r Hc Hr IH]; intros st.
  - constructor.
  - cbn [walk_list flat_map].
    specialize (Hc st).
    destruct (walk_elem data dflt t st c) as [sta c'].
    specialize (IH sta).
    destruct (walk_list data dflt t sta r) as [stb r'].
    simpl in *. now apply Forall2_app.
Qed.

Lemma walk_elem_frame e st :
  Forall2 (only_fill_changed t) (iter e)
          (iter (snd (walk_elem data dflt t st e))).
Proof.
  revert st. induction e as [tg a x cs IH] using element_nested_ind.
  intros st. rewrite walk_elem_unfold.
  destruct (String.eqb_spec tg t) as [Et|Et].
  - pose proof (color_path_same_key data dflt st (Element tg a x cs)) as Hk.
    pose proof (color_path_shape data dflt st (Element tg a x cs)) as Hsh.
    pose proof (color_path_frame data dflt st (Element tg a x cs)) as Hfr.
    destruct (color_path data dflt st (Element tg a x cs)) as [st1 e1].
    cbn [snd] in *.
    pose proof (walk_list_frame st1 cs IH) as Hl.
    pose proof (walk_list_length st1 cs) as Hlen.
    destruct (walk_list data dflt t st1 cs) as [st2 cs'].
    cbn [snd iter] in *. constructor; [|exact Hl].
    destruct Hk as (Htag & _). destruct Hsh as (Htext & _).
    unfold only_fill_changed. cbn [tag text children attrib] in *.
    split; [now symmetry|]. split; [exact Htext|]. split; [exact Hlen|].
    split; [|intros Hne; contradiction].
    intros name Hf Hs. rewrite <- (Hfr name Hf Hs). reflexivity.
  - pose proof (walk_list_frame st cs IH) as Hl.
    pose proof (walk_list_length st cs) as Hlen.
    destruct (walk_list data dflt t st cs) as [st2 cs'].
    cbn [snd iter tag attrib text] in *. constructor; [|exact Hl].
    unfold only_fill_changed. cbn [tag text children attrib].
    repeat split; [exact Hlen].
Qed.

Lemma walk_root_frame root st :
  let root1 := snd (walk_root data dflt t st root) in
  tag root1 = tag root /\ attrib root1 = attrib root /\ text root1 = text root
  /\ Forall2 (only_fill_changed t) (flat_map iter (children root))
             (flat_map iter (children root1)).
Proof.
  destruct root as [tg a x cs]. unfold walk_root. cbn [children].
  pose proof (walk_list_frame st cs) as Hl.
  destruct (walk_list data dflt t st cs) as [st' cs'].
  cbn [snd tag attrib text children] in *.
  repeat split. apply Hl.
  apply Forall_forall. intros e _ st0. apply walk_elem_frame.
Qed.
End FrameFacts.

Lemma iter_append_child p c :
  flat_map iter (children (append_child p c))
  = (flat_map iter (children p) ++ iter c)%list.
Proof.
  destruct p as [tg a x cs]. cbn [append_child children].
  rewrite flat_map_app. cbn [flat_map]. now rewrite app_nil_r.
Qed.

Lemma append_child_root p c :
  tag (append_child p c) = tag p /\ attrib (append_child p c) = attrib p
  /\ text (append_child p c) = text p.
Proof. destruct p. repeat split. Qed.

Section LayoutNodes.
Variable str_num : num -> string.

Lemma legend_items_layout x y rows :
  flat_map iter (legend_items str_num x y rows) = legend_items str_num x y rows
  /\ Forall (fun e => layout_tag e = true) (legend_items str_num x y rows).
Proof.
  revert y. induction rows as [|[c l] r IH]; intros y.
  - split; [reflexivity|constructor].
  - destruct (IH (NAdd y (NInt 20))) as [Hi Hf].
    cbn [legend_items flat_map]. unfold legend_rect at 1, legend_text at 1.
    cbn [iter flat_map app]. rewrite Hi. split; [reflexivity|].
    repeat constructor. exact Hf.
Qed.

(** What [add_legend] and [add_title] add, in document order. *)
Lemma add_legend_nodes root data x y vb :
  let root' := add_legend str_num root data x y vb in
  tag root' = tag root /\ attrib root' = attrib root /\ text root' = text root
  /\ exists added,
       flat_map iter (children root')
       = (flat_map iter (children root) ++ added)%list
       /\ Forall (fun e => layout_tag e = true) added.
Proof.
  unfold add_legend.
  set (g := Element "g" _ None _).
  destruct (append_child_root root g) as (Ht & Ha & Hx).
  cbn zeta. split; [exact Ht|]. split; [exact Ha|]. split; [exact Hx|].
  exists (iter g). split; [apply iter_append_child|].
  subst g. cbn [iter].
  match goal with
  | |- context [legend_items str_num ?a ?b ?c] =>
      destruct (legend_items_layout a b c) as [Hi Hf]; rewrite Hi
  end.
  constructor; [reflexivity|exact Hf].
Qed.

Lemma add_title_nodes root title vb :
  let root' := add_title str_num root title vb in
  tag root' = tag root /\ attrib root' = attrib root /\ text root' = text root
  /\ exists added,
       flat_map iter (children root')
       = (flat_map iter (children root) ++ added)%list
       /\ Forall (fun e => layout_tag e = true) added.
Proof.
  unfold add_title. destruct vb as [[[vx vy] vw] vh].
  set (tx := Element "text" _ _ _).
  destruct (append_child_root root tx) as (Ht & Ha & Hx).
  cbn zeta. split; [exact Ht|]. split; [exact Ha|]. split; [exact Hx|].
  exists (iter tx). split; [apply iter_append_child|].
  subst tx. repeat constructor.
Qed.

(** The document the engine returns, below its root: the elements of
    the input in order, changed only in [fill] and [style] and only on
    the selected paths, then the nodes of the legend and the title. *)
Lemma color_tree_nodes data opts vb root :
  let root' := fst (color_tree str_num data opts vb root) in
  tag root' = tag root /\ attrib root' = attrib root /\ text root' = text root
  /\ exists walked added,
       flat_map iter (children root') = (walked ++ added)%list
       /\ Forall2 (only_fill_changed (path_tag root))
                  (flat_map iter (children root)) walked
       /\ Forall (fun e => layout_tag e = true) added
       /\ (add_legend_flag opts = false ->
           truthy (title_text opts) = false -> added = []).
Proof.
  unfold color_tree.
  pose proof (walk_root_frame data (default_color opts) (path_tag root)
                root walk_init) as Hw.
  destruct (walk_root data (default_color opts) (path_tag root) walk_init root)
    as [st root1].
  cbn [fst snd] in *. cbn zeta in Hw. destruct Hw as (Ht & Ha & Hx & Hf).
  set (root2 := if add_legend_flag opts
                then add_legend str_num root1 data (legend_x opts)
                       (legend_y opts) vb
                else root1).
  assert (H2 : tag root2 = tag root /\ attrib root2 = attrib root
               /\ text root2 = text root
               /\ exists added,
                    flat_map iter (children root2)
                    = (flat_map iter (children root1) ++ added)%list
                    /\ Forall (fun e => layout_tag e = true) added
                    /\ (add_legend_flag opts = false -> added = [])).
  { subst root2. destruct (add_legend_flag opts).
    - destruct (add_legend_nodes root1 data (legend_x opts) (legend_y opts) vb)
        as (Ht2 & Ha2 & Hx2 & added & Hi & Hl).
      split; [congruence|]. split; [congruence|]. split; [congruence|].
      exists added. split; [exact Hi|]. split; [exact Hl|discriminate].
    - split; [exact Ht|]. split; [exact Ha|]. split; [exact Hx|].
      exists []. rewrite app_nil_r. repeat split. constructor. }
  destruct H2 as (Ht2 & Ha2 & Hx2 & added2 & Hi2 & Hl2 & He2).
  cbn zeta.
  destruct (title_text opts) as [[|ch title]|] eqn:Etitle.
  - split; [exact Ht2|]. split; [exact Ha2|]. split; [exact Hx2|].
    exists (flat_map iter (children root1)), added2.
    split; [exact Hi2|]. split; [exact Hf|]. split; [exact Hl2|].
    intros Hl _. now apply He2.
  - destruct (add_title_nodes root2 (String ch title) vb)
      as (Ht3 & Ha3 & Hx3 & added3 & Hi3 & Hl3).
    split; [congruence|]. split; [congruence|]. split; [congruence|].
    exists (flat_map iter (children root1)), (added2 ++ added3)%list.
    split; [rewrite Hi3, Hi2; now rewrite <- app_assoc|].
    split; [exact Hf|]. split; [now apply Forall_app|].
    intros _ Hfalse. discriminate.
  - split; [exact Ht2|]. split; [exact Ha2|]. split; [exact Hx2|].
    exists (flat_map iter (children root1)), added2.
    split; [exact Hi2|]. split; [exact Hf|]. split; [exact Hl2|].
    intros Hl _. now apply He2.
Qed.
End LayoutNodes.

(** X6: the engine changes nothing of the input document but the
    [fill] and [style] attributes of the selected paths: root tag,
    attributes and text stay; below the root the elements keep their
    order, tags, texts, child counts and every other attribute, an
    element that is not a selected path keeps all its attributes; what
    is added comes after them and is made of [g], [rect] and [text]
    nodes only, and nothing is added without legend and title. *)
Theorem color_tree_frame (str_num : num -> string) (data : catalog)
    (opts : options) (vb : viewbox) (root : element) :
  let root' := fst (color_tree str_num data opts vb root) in
  tag root' = tag root /\ attrib root' = attrib root /\ text root' = text root
  /\ exists walked added,
       flat_map iter (children root') = (walked ++ added)%list
       /\ Forall2 (only_fill_changed (path_tag root))
                  (flat_map iter (children root)) walked
       /\ Forall (fun e => layout_tag e = true) added
       /\ (add_legend_flag opts = false ->
           truthy (title_text opts) = false -> added = []).
Proof. exact (color_tree_nodes str_num data opts vb root). Qed.

Lemma filter_frame_other t u l l' :
  Forall2 (only_fill_changed t) l l' -> u <> t ->
  map attrib (filter (fun e => String.eqb (tag e) u) l')
  = map attrib (filter (fun e => String.eqb (tag e) u) l).
Proof.
  intros H Hne. induction H as [|e e' r r' He Hr IH]; [reflexivity|].
  destruct He as (Ht & _ & _ & _ & Ha). simpl. rewrite Ht.
  destruct (String.eqb_spec (tag e) u) as [Eu|Eu]; [|exact IH].
  simpl. rewrite IH. f_equal. apply Ha. congruence.
Qed.

Lemma filter_layout_not_path l :
  Forall (fun e => layout_tag e = true) l ->
  filter (fun e => String.eqb (tag e) "path") l = [].
Proof.
  induction 1 as [|e r He Hr IH]; [reflexivity|].
  simpl. rewrite IH. unfold layout_tag in He.
  destruct (String.eqb_spec (tag e) "path") as [E|E]; [|reflexivity].
  rewrite E in He. discriminate.
Qed.

(** X7: in a document that has a namespaced path, the paths without a
    namespace are not part of the walk: each keeps all its attributes,
    [fill] and [style] included. *)
Theorem plain_paths_untouched (str_num : num -> string) (data : catalog)
    (opts : options) (vb : viewbox) (root : element) :
  findall root SVG_PATH <> [] ->
  map attrib (findall (fst (color_tree str_num data opts vb root)) "path")
  = map attrib (findall root "path").
Proof.
  intros Hns.
  destruct (color_tree_nodes str_num data opts vb root)
    as (_ & _ & _ & walked & added & Hi & Hf & Hl & _).
  assert (Ht : path_tag root = SVG_PATH).
  { unfold path_tag. destruct (findall root SVG_PATH); [congruence|reflexivity]. }
  rewrite Ht in Hf. unfold findall. rewrite Hi, filter_app.
  rewrite (filter_layout_not_path added Hl), app_nil_r.
  apply (filter_frame_other SVG_PATH "path" _ _ Hf). discriminate.
Qed.

Lemma plain_paths_untouched_witness :
  let data : catalog := [ ("US", {| color := "#3b82f6"; label := "US" |});
                          ("CA", {| color := "#ef4444"; label := "CA" |}) ] in
  let opts :=
    {| default_color := "#ececec"; add_legend_flag := true;
       title_text := Some "Map"; legend_x := NInt 50; legend_y := None |} in
  let vb : viewbox := (NInt 0, NInt 0, NInt 800, NInt 600) in
  let root :=
    Element "{http://www.w3.org/2000/svg}svg" [] None
      [ Element SVG_PATH [("id", "US")] None [];
        Element "path" [("id", "CA")] None [] ] in
  findall root SVG_PATH <> []
  /\ map attrib (findall (fst (color_tree (fun _ => "0") data opts vb root)) "path")
     = [ [("id", "CA")] ].
Proof.
  intros data opts vb root.
  assert (H : findall root SVG_PATH <> []) by discriminate.
  split; [exact H|].
  exact (plain_paths_untouched (fun _ => "0") data opts vb root H).
Defined.

(** ** Walking a walked document *)

Lemma append_assoc (a b c : string) : (a ++ b) ++ c = a ++ (b ++ c).
Proof. induction a as [|x a IH]; simpl; [reflexivity|now rewrite IH]. Qed.

Lemma startswith_app s y : startswith s (s ++ y) = true.
Proof.
  induction s as [|a r IH]; [reflexivity|].
  simpl. now rewrite Ascii.eqb_refl, IH.
Qed.

Lemma contains_here sub y : contains sub (sub ++ y) = true.
Proof.
  destruct (sub ++ y) eqn:E; simpl; rewrite <- E, startswith_app; reflexivity.
Qed.

Lemma contains_app_r sub x y :
  contains sub y = true -> contains sub (x ++ y) = true.
Proof.
  intros H. induction x as [|a r IH]; [exact H|].
  simpl. rewrite IH. apply orb_true_r.
Qed.

Lemma join_around sep l1 x l2 :
  exists pre suf, join sep (l1 ++ x :: l2) = pre ++ x ++ suf.
Proof.
  induction l1 as [|y r IH].
  - destruct l2 as [|z l2'].
    + exists EmptyString, EmptyString. simpl.
      induction x as [|a x IHx]; simpl; [reflexivity|now rewrite <- IHx].
    + exists EmptyString, (sep ++ join sep (z :: l2')). reflexivity.
  - destruct IH as (pre & suf & E).
    exists (y ++ sep ++ pre), suf.
    cbn [app]. destruct (r ++ x :: l2)%list eqn:El.
    + destruct r; discriminate.
    + change (join sep (y :: s :: l)) with (y ++ sep ++ join sep (s :: l)).
      rewrite E. now rewrite !append_assoc.
Qed.

(** The serialized map shows its [fill] property as the text [fill:]. *)
Lemma contains_fill_serialized m c :
  contains "fill:" (style_to_string (set "fill" c m)) = true.
Proof.
  unfold style_to_string.
  assert (Hin : In ("fill", c) (set "fill" c m))
    by (apply get_In, get_set_same).
  apply in_split in Hin. destruct Hin as (l1 & l2 & ->).
  rewrite map_app. cbn [map fst snd].
  destruct (join_around ";" (map (fun kv => fst kv ++ ":" ++ snd kv) l1)
              ("fill" ++ ":" ++ c)
              (map (fun kv => fst kv ++ ":" ++ snd kv) l2)) as (pre & suf & ->).
  apply contains_app_r.
  change (("fill" ++ ":" ++ c) ++ suf) with ("fill:" ++ (c ++ suf)).
  apply contains_here.
Qed.

Lemma apply_default_idem dflt p :
  apply_default dflt (apply_default dflt p) = apply_default dflt p.
Proof.
  unfold apply_default at 2 3. destruct (wants_default p) eqn:Hw.
  - unfold apply_default.
    destruct (wants_default (set_fill_color p dflt)) eqn:Hw1; [|reflexivity].
    destruct (truthy (elem_get p "style")) eqn:Hs.
    + exfalso. rewrite (set_fill_color_style p dflt Hs) in Hw1.
      unfold wants_default in Hw1.
      rewrite elem_get_default_set_same, contains_fill_serialized in Hw1.
      rewrite andb_false_r in Hw1. discriminate.
    + now apply set_fill_color_twice_bare.
  - unfold apply_default. now rewrite Hw.
Qed.

Lemma color_elem_cases data dflt p :
  color_elem data dflt p
  = match resolve data p with
    | ById (String a c) _ | ByClass (String a c) _ =>
        set_fill_color p (String a c)
    | _ => apply_default dflt p
    end.
Proof.
  unfold color_elem, color_path.
  destruct (resolve data p) as [[|a c] code|[|a c] code|]; reflexivity.
Qed.

Lemma color_path_elem data dflt st p :
  snd (color_path data dflt st p) = color_elem data dflt p.
Proof.
  unfold color_elem, color_path.
  destruct (resolve data p) as [[|a c] code|[|a c] code|]; reflexivity.
Qed.

Lemma resolve_color_in_catalog data p :
  match resolve data p with
  | ById c code | ByClass c code =>
      exists info, In (code, info) data /\ color info = c
  | NoCode => True
  end.
Proof.
  unfold resolve.
  destruct (get (strip (elem_get_default p "id" "")) data) as [info|] eqn:E1.
  - exists info. split; [now apply get_In|reflexivity].
  - destruct (get (strip (elem_get_default p "class" "")) class_to_code)
      as [code|]; [|exact I].
    destruct (get code data) as [info|] eqn:E2; [|exact I].
    exists info. split; [now apply get_In|reflexivity].
Qed.

Lemma clean_colors_In data code info :
  clean_colors data = true -> In (code, info) data ->
  clean_value (color info) = true.
Proof.
  unfold clean_colors. rewrite forallb_forall. intros H Hin.
  exact (H (code, info) Hin).
Qed.

(** One round of the loop on a path the loop has already treated
    changes nothing. *)
Lemma color_elem_idem data dflt p :
  clean_colors data = true ->
  color_elem data dflt (color_elem data dflt p) = color_elem data dflt p.
Proof.
  intros Hclean.
  assert (Hk : resolve data (color_elem data dflt p) = resolve data p).
  { symmetry. apply resolve_same_key. unfold color_elem.
    apply color_path_same_key. }
  rewrite (color_elem_cases data dflt (color_elem data dflt p)), Hk.
  rewrite (color_elem_cases data dflt p).
  pose proof (resolve_color_in_catalog data p) as Hc.
  destruct (resolve data p) as [[|a c] code|[|a c] code|];
    try apply apply_default_idem;
    destruct Hc as (info & Hin & Hcol);
    apply set_fill_color_twice; rewrite <- Hcol;
    now apply (clean_colors_In data code info).
Qed.

Lemma resolve_attrib data e e' :
  attrib e = attrib e' -> resolve data e = resolve data e'.
Proof.
  intros H. unfold resolve, elem_get_default, elem_get. now rewrite H.
Qed.

Lemma set_fill_color_attrib e e' c :
  attrib e = attrib e' ->
  attrib (set_fill_color e c) = attrib (set_fill_color e' c).
Proof.
  intros H. unfold set_fill_color, elem_get. rewrite H.
  destruct (get "style" (attrib e')) as [[|a s]|];
    rewrite !attrib_elem_set; now rewrite H.
Qed.

Lemma color_elem_attrib data dflt e e' :
  attrib e = attrib e' ->
  attrib (color_elem data dflt e) = attrib (color_elem data dflt e').
Proof.
  intros H. rewrite !color_elem_cases, (resolve_attrib data e e' H).
  assert (Hd : attrib (apply_default dflt e) = attrib (apply_default dflt e')).
  { unfold apply_default, wants_default, elem_get_default, elem_get.
    rewrite H. destruct (_ && _); [now apply set_fill_color_attrib|exact H]. }
  destruct (resolve data e') as [[|a c] code|[|a c] code|];
    try exact Hd; now apply set_fill_color_attrib.
Qed.

Lemma color_elem_shape data dflt e :
  tag (color_elem data dflt e) = tag e /\ text (color_elem data dflt e) = text e.
Proof.
  unfold color_elem. split.
  - symmetry. apply (color_path_same_key data dflt walk_init e).
  - apply (color_path_shape data dflt walk_init e).
Qed.

Section MapPaths.
Variables (data : catalog) (dflt t : string).

Lemma walk_list_map st cs :
  Forall (fun e => forall st,
            snd (walk_elem data dflt t st e)
            = map_paths (color_elem data dflt) t e) cs ->
  snd (walk_list data dflt t st cs)
  = map (map_paths (color_elem data dflt) t) cs.
Proof.
  intros H. revert st. induction H as [|c r Hc Hr IH]; intros st;
    [reflexivity|].
  cbn [walk_list map]. specialize (Hc st).
  destruct (walk_elem data dflt t st c) as [sta c'].
  specialize (IH sta).
  destruct (walk_list data dflt t sta r) as [stb r'].
  simpl in *. now rewrite Hc, IH.
Qed.

(** The tree the walk leaves does not depend on the counters: it is the
    input with every selected path rewritten by one round of the
    loop. *)
Lemma walk_elem_map e st :
  snd (walk_elem data dflt t st e) = map_paths (color_elem data dflt) t e.
Proof.
  revert st. induction e as [tg a x cs IH] using element_nested_ind.
  intros st. rewrite walk_elem_unfold. cbn [map_paths].
  destruct (String.eqb tg t).
  - pose proof (color_path_elem data dflt st (Element tg a x cs)) as He.
    destruct (color_path data dflt st (Element tg a x cs)) as [st1 e1].
    cbn [snd] in He. subst e1.
    pose proof (walk_list_map st1 cs IH) as Hl.
    destruct (walk_list data dflt t st1 cs) as [st2 cs'].
    cbn [snd] in *. now rewrite Hl.
  - pose proof (walk_list_map st cs IH) as Hl.
    destruct (walk_list data dflt t st cs) as [st2 cs'].
    cbn [snd] in *. now rewrite Hl.
Qed.

Lemma walk_root_map root st :
  snd (walk_root data dflt t st root)
  = Element (tag root) (attrib root) (text root)
      (map (map_paths (color_elem data dflt) t) (children root)).
Proof.
  destruct root as [tg a x cs]. unfold walk_root.
  pose proof (walk_list_map st cs) as Hl.
  destruct (walk_list data dflt t st cs) as [st' cs'].
  cbn [snd tag attrib text children] in *. rewrite Hl; [reflexivity|].
  apply Forall_forall. intros e _ st0. apply walk_elem_map.
Qed.

Lemma map_paths_idem e :
  clean_colors data = true ->
  map_paths (color_elem data dflt) t (map_paths (color_elem data dflt) t e)
  = map_paths (color_elem data dflt) t e.
Proof.
  intros Hclean. induction e as [tg a x cs IH] using element_nested_ind.
  assert (Hcs : map (map_paths (color_elem data dflt) t)
                    (map (map_paths (color_elem data dflt) t) cs)
                = map (map_paths (color_elem data dflt) t) cs).
  { induction IH as [|c r Hc Hr IHr]; [reflexivity|].
    cbn [map]. now rewrite Hc, IHr. }
  cbn [map_paths]. destruct (String.eqb tg t) eqn:Et.
  - destruct (color_elem_shape data dflt (Element tg a x cs)) as [Htag Htext].
    cbn [tag text] in Htag, Htext. rewrite Htag, Htext.
    cbn [map_paths]. rewrite Et, Hcs.
    set (e1 := Element tg (attrib (color_elem data dflt (Element tg a x cs))) x
                 (map (map_paths (color_elem data dflt) t) cs)).
    destruct (color_elem_shape data dflt e1) as [Htag1 Htext1].
    rewrite Htag1, Htext1.
    rewrite (color_elem_attrib data dflt e1
               (color_elem data dflt (Element tg a x cs)) eq_refl).
    rewrite color_elem_idem by exact Hclean. reflexivity.
  - cbn [tag attrib text map_paths]. now rewrite Et, Hcs.
Qed.
End MapPaths.

(** ** Bounds on the statistics *)

Lemma set_add_length x s : length (set_add x s) <= S (length s).
Proof.
  unfold set_add. destruct (existsb (String.eqb x) s); [lia|].
  rewrite length_app. simpl. lia.
Qed.

Lemma walk_steps_counters data l st0 :
  counters_ok (length l) st0 (walk_steps data st0 l).
Proof.
  assert (G : forall l st n, counters_ok n st0 st ->
                             counters_ok (n + length l) st0 (walk_steps data st l)).
  { clear l. induction l as [|p r IH]; intros st n H.
    - simpl. now rewrite Nat.add_0_r.
    - simpl. replace (n + S (length r)) with (S n + length r) by lia.
      apply IH. destruct H as (H1 & H2 & H3). unfold counters_ok.
      destruct (resolve data p) as [[|a c] code|[|a c] code|]; simpl;
        try pose proof (set_add_length code (matched_codes st));
        repeat split; lia. }
  apply (G l st0 0). unfold counters_ok. repeat split; lia.
Qed.

Lemma walk_steps_multi_le_colored data l st :
  (forall k info, In (k, info) data -> color info <> EmptyString) ->
  multi_path_count st <= colored_count st ->
  multi_path_count (walk_steps data st l)
  <= colored_count (walk_steps data st l).
Proof.
  intros Hne. revert st. induction l as [|p r IH]; intros st H; [exact H|].
  simpl. apply IH. pose proof (resolve_color_in_catalog data p) as Hc.
  destruct (resolve data p) as [[|a c] code|[|a c] code|]; simpl; try lia.
  destruct Hc as (info & Hin & Hcol). exfalso. exact (Hne _ _ Hin Hcol).
Qed.

(** X9: [colored] and [multi_path] never exceed the number of paths the
    walk visits; every code of the catalog is either unmatched or paid
    for by a coloured path, so the catalog has at most
    [colored + unmatched] codes; and when no catalog colour is empty,
    [multi_path] does not exceed [colored]. *)
Theorem color_tree_stats_bounds (str_num : num -> string) (data : catalog)
    (opts : options) (vb : viewbox) (root : element) :
  wf data ->
  let stats := snd (color_tree str_num data opts vb root) in
  let paths := findall root (path_tag root) in
  colored stats <= length paths
  /\ multi_path stats <= length paths
  /\ unmatched stats <= length data
  /\ length data <= colored stats + unmatched stats
  /\ ((forall k info, In (k, info) data -> color info <> EmptyString) ->
      multi_path stats <= colored stats).
Proof.
  intros Hwf stats paths. subst stats paths.
  rewrite color_tree_stats. unfold make_stats. cbn [colored multi_path unmatched].
  destruct (walk_matched_ok data (default_color opts) root) as [Hnd Hin].
  rewrite walk_root_state in *.
  pose proof (walk_steps_counters data (findall root (path_tag root)) walk_init)
    as (H1 & H2 & H3).
  cbn [walk_init colored_count multi_path_count matched_codes length] in *.
  rewrite set_diff_length by assumption.
  unfold keys. rewrite length_map.
  split; [lia|]. split; [lia|]. split; [lia|]. split; [lia|].
  intros Hne. apply walk_steps_multi_le_colored; [exact Hne|simpl; lia].
Qed.

Lemma color_tree_stats_bounds_witness :
  let data : catalog :=
    [ ("US", {| color := "#3b82f6"; label := "US" |});
      ("CA", {| color := "#ef4444"; label := "CA" |});
      ("ZZ", {| color := "#000000"; label := "ZZ" |}) ] in
  let opts :=
    {| default_color := "#ececec"; add_legend_flag := false;
       title_text := None; legend_x := NInt 50; legend_y := None |} in
  let vb : viewbox := (NInt 0, NInt 0, NInt 800, NInt 600) in
  let root :=
    Element "svg" [] None
      [ Element "path" [("id", "US")] None [];
        Element "path" [("class", "Canada")] None [];
        Element "path" [("class", "Canada")] None [];
        Element "path" [("id", "FR")] None [] ] in
  wf data
  /\ (let stats := snd (color_tree (fun _ => "0") data opts vb root) in
      let paths := findall root (path_tag root) in
      colored stats <= length paths
      /\ multi_path stats <= length paths
      /\ unmatched stats <= length data
      /\ length data <= colored stats + unmatched stats
      /\ ((forall k info, In (k, info) data -> color info <> EmptyString) ->
          multi_path stats <= colored stats)).
Proof.
  intros data opts vb root.
  assert (Hwf : wf data).
  { unfold wf. simpl. repeat constructor; simpl; intuition discriminate. }
  split; [exact Hwf|].
  exact (color_tree_stats_bounds (fun _ => "0") data opts vb root Hwf).
Defined.

(** X10: the statistics depend on the catalog and the document alone:
    the default colour, the legend, the title, their positions and the
    view box have no part in them. *)
Theorem color_tree_stats_options (str_num str_num' : num -> string)
    (data : catalog) (opts opts' : options) (vb vb' : viewbox)
    (root : element) :
  snd (color_tree str_num data opts vb root)
  = snd (color_tree str_num' data opts' vb' root).
Proof.
  rewrite !color_tree_stats. f_equal. now rewrite !walk_root_state.
Qed.

(** ** The CSV branch of [parse_data] *)

Lemma row_get_strip_complete row k default :
  match get k row with Some None => false | _ => true end = true ->
  row_get_strip row k default = inr (row_field row k default).
Proof.
  unfold row_get_strip, row_field.
  destruct (get k row) as [[v|]|]; try reflexivity. discriminate.
Qed.

Lemma row_get_strip_short row k default :
  match get k row with Some None => false | _ => true end = false ->
  row_get_strip row k default = inl AttributeError.
Proof.
  unfold row_get_strip.
  destruct (get k row) as [[v|]|]; try discriminate. reflexivity.
Qed.

Lemma parse_csv_row result row rest :
  parse_csv result (row :: rest)
  = if row_complete row then parse_csv (csv_step result row) rest
    else inl AttributeError.
Proof.
  unfold row_complete. cbn [parse_csv].
  destruct (match get "code" row with Some None => false | _ => true end) eqn:E1.
  - rewrite (row_get_strip_complete row "code" "" E1).
    destruct (match get "color" row with Some None => false | _ => true end)
      eqn:E2.
    + rewrite (row_get_strip_complete row "color" "#ececec" E2).
      destruct (match get "label" row with Some None => false | _ => true end)
        eqn:E3.
      * rewrite (row_get_strip_complete row "label" _ E3).
        cbn [andb]. unfold csv_step, csv_entry.
        now destruct (row_field row "code" "").
      * now rewrite (row_get_strip_short row "label" _ E3).
    + now rewrite (row_get_strip_short row "color" _ E2).
  - now rewrite (row_get_strip_short row "code" _ E1).
Qed.

(** The loop over the rows either stops at the first row cut short or
    folds [csv_step] over all of them. *)
Lemma parse_csv_fold rows result :
  parse_csv result rows
  = if forallb row_complete rows then inr (fold_left csv_step rows result)
    else inl AttributeError.
Proof.
  revert result. induction rows as [|row rest IH]; intros result;
    [reflexivity|].
  rewrite parse_csv_row. cbn [forallb fold_left].
  destruct (row_complete row); [apply IH|reflexivity].
Qed.

Lemma In_set {V} k (v : V) d k' v' :
  In (k', v') (set k v d) -> (k' = k /\ v' = v) \/ In (k', v') d.
Proof.
  induction d as [|[k0 v0] r IH]; simpl.
  - intros [[= <- <-]|[]]. now left.
  - destruct (String.eqb_spec k0 k) as [->|Hne]; simpl.
    + intros [[= <- <-]|H]; [now left|right; now right].
    + intros [H|H]; [right; now left|].
      destruct (IH H) as [H'|H']; [now left|right; now right].
Qed.

Lemma row_field_stripped row k default :
  strip (row_field row k default) = row_field row k default.
Proof.
  unfold row_field. destruct (get k row) as [[v|]|]; apply strip_idem.
Qed.

Lemma csv_step_ok result row :
  wf result -> (forall k e, In (k, e) result -> csv_entry_ok k e) ->
  wf (csv_step result row)
  /\ forall k e, In (k, e) (csv_step result row) -> csv_entry_ok k e.
Proof.
  intros Hwf Hok. unfold csv_step.
  destruct (row_field row "code" "") as [|a code] eqn:Ec; [now split|].
  split; [now apply set_keeps_wf|].
  intros k e Hin. apply In_set in Hin. destruct Hin as [[-> ->]|Hin];
    [|now apply Hok].
  split; [discriminate|]. split; [rewrite <- Ec; apply row_field_stripped|].
  unfold csv_entry. eexists _, _. split; [reflexivity|]. split; [reflexivity|].
  split; apply row_field_stripped.
Qed.

Lemma fold_csv_step_ok rows result :
  wf result -> (forall k e, In (k, e) result -> csv_entry_ok k e) ->
  wf (fold_left csv_step rows result)
  /\ forall k e, In (k, e) (fold_left csv_step rows result) -> csv_entry_ok k e.
Proof.
  revert result. induction rows as [|row rest IH]; intros result Hwf Hok;
    [now split|].
  simpl. destruct (csv_step_ok result row Hwf Hok) as [Hwf' Hok'].
  now apply IH.
Qed.

Lemma as_catalog_ok raw :
  (forall k e, In (k, e) raw -> csv_entry_ok k e) ->
  exists cat,
    as_catalog raw = Some cat
    /\ keys cat = keys raw
    /\ forall k info, In (k, info) cat ->
         k <> EmptyString /\ strip k = k
         /\ strip (color info) = color info
         /\ strip (label info) = label info.
Proof.
  induction raw as [|[k e] r IH]; intros H.
  - exists []. split; [reflexivity|]. split; [reflexivity|]. intros k info [].
  - destruct IH as (cat & Hc & Hk & Hi).
    { intros k' e' Hin. apply H. now right. }
    destruct (H k e (or_introl eq_refl)) as (Hne & Hs & c & l & Ec & El & Sc & Sl).
    exists ((k, {| color := c; label := l |}) :: cat).
    split; [|split].
    + cbn [as_catalog]. unfold entry_of_raw. now rewrite Ec, El, Hc.
    + unfold keys in *. cbn [map fst]. now rewrite Hk.
    + intros k' info [[= <- <-]|Hin]; [|now apply Hi].
      repeat split; assumption.
Qed.

(** X11: the loop over CSV rows raises [AttributeError] exactly when
    some row is cut short in one of the columns it reads; otherwise it
    returns a catalog of strings with one entry per code, in which no
    code is empty and every code, colour and label is trimmed. *)
Theorem parse_csv_catalog (rows : list csv_row) :
  (forallb row_complete rows = false ->
   parse_csv [] rows = inl AttributeError)
  /\ (forallb row_complete rows = true ->
      exists result cat,
        parse_csv [] rows = inr result
        /\ wf result
        /\ as_catalog result = Some cat
        /\ keys cat = keys result
        /\ forall k info, In (k, info) cat ->
             k <> EmptyString /\ strip k = k
             /\ strip (color info) = color info
             /\ strip (label info) = label info).
Proof.
  rewrite parse_csv_fold. split; intros H; rewrite H; [reflexivity|].
  destruct (fold_csv_step_ok rows []) as [Hwf Hok];
    [constructor|intros k e []|].
  destruct (as_catalog_ok _ Hok) as (cat & Hc & Hk & Hi).
  exists (fold_left csv_step rows []), cat.
  split; [reflexivity|]. split; [exact Hwf|]. split; [exact Hc|].
  split; [exact Hk|exact Hi].
Qed.

Lemma parse_csv_catalog_witness :
  let rows : list csv_row :=
    [ [("code", Some " US "); ("color", Some "#3b82f6 ")];
      [("code", Some "  "); ("color", Some "#000")];
      [("code", Some "CA"); ("color", Some "#ef4444"); ("label", Some " Canada")] ] in
  let short : list csv_row :=
    [ [("code", Some "US"); ("color", None)] ] in
  forallb row_complete rows = true
  /\ forallb row_complete short = false
  /\ parse_csv [] short = inl AttributeError
  /\ exists result cat,
       parse_csv [] rows = inr result
       /\ as_catalog result = Some cat
       /\ cat = [ ("US", {| color := "#3b82f6"; label := "US" |});
                  ("CA", {| color := "#ef4444"; label := "Canada" |}) ].
Proof.
  intros rows short.
  assert (H1 : forallb row_complete rows = true) by reflexivity.
  assert (H2 : forallb row_complete short = false) by reflexivity.
  split; [exact H1|]. split; [exact H2|].
  split; [exact (proj1 (parse_csv_catalog short) H2)|].
  destruct (proj2 (parse_csv_catalog rows) H1)
    as (result & cat & Hr & _ & Hc & _).
  exists result, cat. split; [exact Hr|]. split; [exact Hc|].
  injection Hr as <-. injection Hc as <-. reflexivity.
Defined.

Lemma csv_step_get_other result row k :
  row_field row "code" "" <> k ->
  get k (csv_step result row) = get k result.
Proof.
  intros Hne. unfold csv_step.
  destruct (row_field row "code" "") as [|a code]; [reflexivity|].
  apply get_set_other. congruence.
Qed.

Lemma fold_csv_step_get_other rows result k :
  Forall (fun row => row_field row "code" "" <> k) rows ->
  get k (fold_left csv_step rows result) = get k result.
Proof.
  intros H. revert result. induction H as [|row rest Hr Hrest IH];
    intros result; [reflexivity|].
  simpl. rewrite IH. now apply csv_step_get_other.
Qed.

(** X12: when several CSV rows carry the same code, the last of them
    decides the entry: its colour, or [#ececec] without a colour column,
    and its label, or the code without a label column. *)
Theorem parse_csv_last_row_wins (before after : list csv_row) (row : csv_row) :
  forallb row_complete (before ++ row :: after) = true ->
  row_field row "code" "" <> EmptyString ->
  Forall (fun r => row_field r "code" "" <> row_field row "code" "") after ->
  exists result,
    parse_csv [] (before ++ row :: after) = inr result
    /\ get (row_field row "code" "") result
       = Some {| raw_color := JStr (row_field row "color" "#ececec");
                 raw_label := JStr (row_field row "label"
                                      (row_field row "code" "")) |}.
Proof.
  intros Hc Hne Hafter. rewrite parse_csv_fold, Hc.
  eexists. split; [reflexivity|].
  rewrite fold_left_app. cbn [fold_left].
  rewrite fold_csv_step_get_other by exact Hafter.
  unfold csv_step at 1.
  destruct (row_field row "code" "") as [|a code] eqn:E; [congruence|].
  rewrite get_set_same. unfold csv_entry. now rewrite E.
Qed.

Lemma parse_csv_last_row_wins_witness :
  let before : list csv_row :=
    [ [("code", Some "US"); ("color", Some "red"); ("label", Some "first")] ] in
  let row : csv_row := [("code", Some "US ")] in
  let after : list csv_row := [ [("code", Some "CA"); ("color", Some "blue")] ] in
  forallb row_complete (before ++ row :: after) = true
  /\ row_field row "code" "" = "US"
  /\ exists result,
       parse_csv [] (before ++ row :: after) = inr result
       /\ get "US" result
          = Some {| raw_color := JStr "#ececec"; raw_label := JStr "US" |}.
Proof.
  intros before row after.
  assert (H1 : forallb row_complete (before ++ row :: after) = true)
    by reflexivity.
  assert (H2 : row_field row "code" "" <> EmptyString) by discriminate.
  assert (H3 : Forall (fun r => row_field r "code" "" <> row_field row "code" "")
                      after)
    by (repeat constructor; discriminate).
  split; [exact H1|]. split; [reflexivity|].
  exact (parse_csv_last_row_wins before after row H1 H2 H3).
Defined.

(** ** The JSON branch of [parse_data] *)

Lemma parse_json_item_binding result item :
  parse_json_item result item
  = match json_entry (fst item) (snd item) with
    | Some e => set (fst item) e result
    | None => result
    end.
Proof. destruct item as [code value]. now destruct value. Qed.

Lemma json_binding_keys o k :
  In k (keys (flat_map json_binding o)) -> In k (keys o).
Proof.
  induction o as [|[code value] r IH]; [intros []|].
  cbn [flat_map]. unfold keys in *. rewrite map_app, in_app_iff.
  intros [H|H]; [|right; now apply IH].
  unfold json_binding in H. cbn [fst snd] in H.
  destruct (json_entry code value); [|destruct H].
  destruct H as [<-|[]]. now left.
Qed.

Lemma fold_parse_json_fresh o acc :
  wf o -> (forall k, In k (keys o) -> ~ In k (keys acc)) ->
  fold_left parse_json_item o acc = (acc ++ flat_map json_binding o)%list.
Proof.
  revert acc. induction o as [|[code value] r IH]; intros acc Hwf Hfr.
  - simpl. now rewrite app_nil_r.
  - inversion Hwf as [|? ? Hk Hr]; subst.
    cbn [fold_left flat_map]. rewrite parse_json_item_binding.
    unfold json_binding at 1. cbn [fst snd].
    destruct (json_entry code value) as [e|].
    + rewrite IH; [|exact Hr|].
      * rewrite set_fresh by (apply mem_false_In, Hfr; now left).
        now rewrite <- app_assoc.
      * intros k Hin. rewrite keys_set_add, set_add_In.
        intros [->|H]; [exact (Hk Hin)|].
        apply (Hfr k); [now right|exact H].
    + rewrite IH; [reflexivity|exact Hr|].
      intros k Hin. apply Hfr. now right.
Qed.

(** X13: a decoded JSON object gives a catalog that lists, in the order
    of the file, exactly the members whose value is a string or an
    object: a string becomes the colour with the code as label, an
    object gives its [color], or [#ececec], and its [label], or the
    code. *)
Theorem parse_json_in_order (o : dict json) :
  wf o ->
  parse_json (JObj o) = inr (flat_map json_binding o).
Proof.
  intros Hwf. cbn [parse_json]. f_equal.
  now rewrite (fold_parse_json_fresh o [] Hwf) by (intros k _ []).
Qed.

Lemma parse_json_in_order_witness :
  let o : dict json :=
    [ ("ZZ", JObj [("label", JStr "Nowhere")]); ("N", JInt 5);
      ("US", JStr "#3b82f6"); ("CA", JObj [("color", JStr "#ef4444")]) ] in
  wf o
  /\ parse_json (JObj o)
     = inr [ ("ZZ", {| raw_color := JStr "#ececec"; raw_label := JStr "Nowhere" |});
             ("US", {| raw_color := JStr "#3b82f6"; raw_label := JStr "US" |});
             ("CA", {| raw_color := JStr "#ef4444"; raw_label := JStr "CA" |}) ].
Proof.
  intros o.
  assert (Hwf : wf o).
  { unfold wf. simpl. repeat constructor; simpl; intuition discriminate. }
  split; [exact Hwf|exact (parse_json_in_order o Hwf)].
Defined.

(** ** The extension of the data path *)

Lemma last_component_slash acc d comp :
  last_component acc (d ++ String "/" comp) = last_component comp comp.
Proof.
  revert acc. induction d as [|c r IH]; intros acc; [reflexivity|].
  simpl. destruct (Ascii.eqb c "/"); apply IH.
Qed.

Lemma last_component_plain acc s :
  has_char "/" s = false -> last_component acc s = acc.
Proof.
  revert acc. induction s as [|c r IH]; intros acc H; [reflexivity|].
  simpl in *. apply orb_false_iff in H. destruct H as [Hc Hr].
  rewrite Hc. now apply IH.
Qed.

Lemma ext_of_no_dot seen s : has_char "." s = false -> ext_of seen s = EmptyString.
Proof.
  revert seen. induction s as [|c r IH]; intros seen H; [reflexivity|].
  simpl in *. apply orb_false_iff in H. destruct H as [Hc Hr].
  rewrite Hc. now apply IH.
Qed.

Lemma ext_of_last_dot seen stem e :
  has_char "." e = false ->
  ext_of seen (stem ++ String "." e)
  = if seen || negb (all_dots stem) then String "." e else EmptyString.
Proof.
  intros He. revert seen. induction stem as [|c r IH]; intros seen.
  - simpl. rewrite He, orb_false_r. reflexivity.
  - cbn [append ext_of all_dots]. destruct (Ascii.eqb c ".") eqn:Ec.
    + rewrite has_char_app. cbn [has_char]. rewrite Ascii.eqb_refl.
      rewrite orb_true_r. cbn [orb andb]. apply IH.
    + rewrite IH. cbn [andb negb]. now rewrite orb_true_r.
Qed.

(** X14: the extension [parse_data] looks at is the text from the last
    dot of the last path component, and is empty when that component
    has no dot or only dots before its last dot; so a data file named
    like [.json] has no extension and is refused as unsupported. *)
Theorem splitext_ext_last_component (dir stem e : string) :
  has_char "/" stem = false -> has_char "/" e = false ->
  has_char "." e = false ->
  splitext_ext (stem ++ "." ++ e)
  = (if all_dots stem then EmptyString else "." ++ e)
  /\ splitext_ext (dir ++ "/" ++ stem ++ "." ++ e)
     = (if all_dots stem then EmptyString else "." ++ e)
  /\ splitext_ext (dir ++ "/" ++ e) = EmptyString
  /\ (all_dots stem = true ->
      supported_ext (dir ++ "/" ++ stem ++ "." ++ e) = false).
Proof.
  intros Hs He Hd.
  assert (Hcomp : has_char "/" (stem ++ "." ++ e) = false).
  { rewrite has_char_app, Hs. cbn [append has_char]. now rewrite He. }
  assert (Hext : ext_of false (stem ++ "." ++ e)
                 = if all_dots stem then EmptyString else "." ++ e).
  { change (stem ++ "." ++ e) with (stem ++ String "." e).
    rewrite ext_of_last_dot by exact Hd. cbn [orb].
    now destruct (all_dots stem). }
  assert (H2 : splitext_ext (dir ++ "/" ++ stem ++ "." ++ e)
               = if all_dots stem then EmptyString else "." ++ e).
  { unfold splitext_ext.
    change (dir ++ "/" ++ stem ++ "." ++ e)
      with (dir ++ String "/" (stem ++ "." ++ e)).
    rewrite last_component_slash, last_component_plain by exact Hcomp.
    exact Hext. }
  split; [|split; [exact H2|split]].
  - unfold splitext_ext. rewrite last_component_plain by exact Hcomp.
    exact Hext.
  - unfold splitext_ext. change (dir ++ "/" ++ e) with (dir ++ String "/" e).
    rewrite last_component_slash, last_component_plain by exact He.
    now apply ext_of_no_dot.
  - intros Hdots. unfold supported_ext. rewrite H2, Hdots. reflexivity.
Qed.

Lemma splitext_ext_last_component_witness :
  has_char "/" "regions.v2" = false
  /\ has_char "/" "CSV" = false
  /\ has_char "." "CSV" = false
  /\ splitext_ext "regions.v2.CSV" = ".CSV"
  /\ splitext_ext ("my.data/out" ++ "/" ++ "regions.v2" ++ "." ++ "CSV") = ".CSV"
  /\ splitext_ext ("my.data" ++ "/" ++ "CSV") = ""
  /\ supported_ext ("data" ++ "/" ++ "" ++ "." ++ "json") = false.
Proof.
  assert (H1 : has_char "/" "regions.v2" = false) by reflexivity.
  assert (H2 : has_char "/" "CSV" = false) by reflexivity.
  assert (H3 : has_char "." "CSV" = false) by reflexivity.
  pose proof (splitext_ext_last_component "my.data/out" "regions.v2" "CSV"
                H1 H2 H3) as (Ha & Hb & _ & _).
  pose proof (splitext_ext_last_component "my.data" "regions.v2" "CSV"
                H1 H2 H3) as (_ & _ & Hc & _).
  pose proof (splitext_ext_last_component "data" "" "json"
                eq_refl eq_refl eq_refl) as (_ & _ & _ & Hd).
  split; [exact H1|]. split; [exact H2|]. split; [exact H3|].
  split; [exact Ha|]. split; [exact Hb|]. split; [exact Hc|].
  exact (Hd eq_refl).
Defined.

(** ** The parts of a [viewBox] *)

Lemma append_nil_r (s : string) : s ++ "" = s.
Proof. induction s as [|c r IH]; simpl; [reflexivity|now rewrite IH]. Qed.

(** A run without white space is one part. *)
Lemma split_ws_aux_word cur w :
  has_space w = false ->
  split_ws_aux cur w
  = match cur ++ w with EmptyString => [] | s => [s] end.
Proof.
  revert cur. induction w as [|c r IH]; intros cur H.
  - simpl. rewrite append_nil_r. now destruct cur.
  - simpl in H. apply orb_false_iff in H. destruct H as [Hc Hr].
    cbn [split_ws_aux]. rewrite Hc, IH by exact Hr.
    now rewrite append_assoc.
Qed.

(** A run without white space followed by a white-space character is a
    part of its own, and the rest splits by itself. *)
Lemma split_ws_aux_next cur w sp rest :
  has_space w = false -> isspace sp = true ->
  split_ws_aux cur (w ++ String sp rest)
  = match cur ++ w with
    | EmptyString => split_ws_aux EmptyString rest
    | s => s :: split_ws_aux EmptyString rest
    end.
Proof.
  revert cur. induction w as [|c r IH]; intros cur H Hsp.
  - cbn [append split_ws_aux]. rewrite Hsp, append_nil_r. now destruct cur.
  - simpl in H. apply orb_false_iff in H. destruct H as [Hc Hr].
    cbn [append split_ws_aux]. rewrite Hc, IH by assumption.
    now rewrite append_assoc.
Qed.

Lemma split_ws_four a b c d :
  has_space a = false -> has_space b = false ->
  has_space c = false -> has_space d = false ->
  a <> EmptyString -> b <> EmptyString ->
  c <> EmptyString -> d <> EmptyString ->
  split_ws (a ++ " " ++ b ++ " " ++ c ++ " " ++ d) = [a; b; c; d].
Proof.
  intros Ha Hb Hc Hd Na Nb Nc Nd. unfold split_ws.
  change (a ++ " " ++ b ++ " " ++ c ++ " " ++ d)
    with (a ++ String " " (b ++ String " " (c ++ String " " d))).
  rewrite !split_ws_aux_next by (assumption || reflexivity).
  rewrite split_ws_aux_word by exact Hd. cbn [append].
  destruct a; [congruence|]. destruct b; [congruence|].
  destruct c; [congruence|]. destruct d; [congruence|]. reflexivity.
Qed.

(** X15: a [viewBox] value without any white space, a comma-separated
    one for example, is not used and the size attributes decide; a value
    of four non-empty parts free of white space, separated by single
    spaces, is read as exactly those four parts. *)
Theorem get_viewbox_parts (root : element) (s a b c d : string) :
  elem_get root "viewBox" = Some s ->
  (has_space s = false -> get_viewbox root = viewbox_from_size root)
  /\ (s = a ++ " " ++ b ++ " " ++ c ++ " " ++ d ->
      has_space a = false -> has_space b = false ->
      has_space c = false -> has_space d = false ->
      a <> EmptyString -> b <> EmptyString ->
      c <> EmptyString -> d <> EmptyString ->
      get_viewbox root = float4 a b c d).
Proof.
  intros Hvb. split.
  - intros Hs. apply get_viewbox_fallback. right. exists s.
    split; [exact Hvb|]. unfold split_ws.
    rewrite split_ws_aux_word by exact Hs. cbn [append].
    destruct s; simpl; discriminate.
  - intros -> Ha Hb Hc Hd Na Nb Nc Nd. unfold get_viewbox. rewrite Hvb.
    rewrite split_ws_four by assumption.
    destruct a as [|ch a']; [congruence|]. reflexivity.
Qed.

Lemma get_viewbox_parts_witness :
  let commas := Element "svg" [("viewBox", "0,0,1000,500"); ("width", "640")] None [] in
  let spaced := Element "svg" [("viewBox", "0 0 1000 500")] None [] in
  elem_get commas "viewBox" = Some "0,0,1000,500"
  /\ has_space "0,0,1000,500" = false
  /\ get_viewbox commas
     = inr (NInt 0, NInt 0, NFloat (FDec false 640 0), NFloat (FDec false 600 0))
  /\ elem_get spaced "viewBox" = Some ("0" ++ " " ++ "0" ++ " " ++ "1000" ++ " " ++ "500")
  /\ get_viewbox spaced = float4 "0" "0" "1000" "500".
Proof.
  intros commas spaced.
  assert (H1 : elem_get commas "viewBox" = Some "0,0,1000,500") by reflexivity.
  assert (H2 : has_space "0,0,1000,500" = false) by reflexivity.
  assert (H3 : elem_get spaced "viewBox"
               = Some ("0" ++ " " ++ "0" ++ " " ++ "1000" ++ " " ++ "500"))
    by reflexivity.
  split; [exact H1|]. split; [exact H2|]. split; [|split; [exact H3|]].
  - rewrite (proj1 (get_viewbox_parts commas _ "" "" "" "" H1) H2).
    reflexivity.
  - refine (proj2 (get_viewbox_parts spaced _ "0" "0" "1000" "500" H3)
              eq_refl eq_refl eq_refl eq_refl eq_refl _ _ _ _); discriminate.
Defined.

(** ** The order of the legend *)

Lemma leb_refl s : String.leb s s = true.
Proof. now destruct (String.leb_total s s). Qed.

Section Stable.
Context {A : Type} (key : A -> string).

Lemma insert_sorted_filter k x l :
  filter (fun y => String.eqb (key y) k) (insert_sorted key x l)
  = filter (fun y => String.eqb (key y) k) (x :: l).
Proof.
  induction l as [|y r IH]; [reflexivity|].
  cbn [insert_sorted]. destruct (String.leb (key x) (key y)) eqn:E;
    [reflexivity|].
  cbn [filter] in *. rewrite IH.
  destruct (String.eqb_spec (key x) k) as [Hx|Hx]; [|reflexivity].
  destruct (String.eqb_spec (key y) k) as [Hy|Hy]; [|reflexivity].
  exfalso. rewrite Hx, <- Hy, leb_refl in E. discriminate.
Qed.

(** [sorted] is stable: the elements with one key keep their order. *)
Lemma sorted_stable k l :
  filter (fun y => String.eqb (key y) k) (sorted key l)
  = filter (fun y => String.eqb (key y) k) l.
Proof.
  induction l as [|x r IH]; [reflexivity|].
  cbn [sorted fold_right]. rewrite insert_sorted_filter.
  cbn [filter]. fold (sorted key r). now rewrite IH.
Qed.
End Stable.

Lemma legend_step_keys cl item :
  keys (legend_step cl item) = set_add (color (snd item)) (keys cl).
Proof.
  unfold legend_step, set_add. rewrite mem_existsb_keys.
  destruct (existsb (String.eqb (color (snd item))) (keys cl)) eqn:E;
    [reflexivity|].
  rewrite keys_set_add. unfold set_add. now rewrite E.
Qed.

Lemma fold_legend_keys data acc :
  keys (fold_left legend_step data acc)
  = fold_left (fun s k => set_add k s)
      (map (fun item => color (snd item)) data) (keys acc).
Proof.
  revert acc. induction data as [|item r IH]; intros acc; [reflexivity|].
  cbn [fold_left map]. now rewrite IH, legend_step_keys.
Qed.

(** X16: before sorting, the legend lists the colours in the order in
    which the catalog first shows them; sorting by label is stable, so
    rows with the same label keep that order. *)
Theorem legend_rows_tie_order (data : catalog) :
  keys (color_labels data)
  = first_seen (map (fun item => color (snd item)) data)
  /\ forall l,
       filter (fun row => String.eqb (snd row) l) (legend_rows data)
       = filter (fun row => String.eqb (snd row) l) (color_labels data).
Proof.
  split.
  - apply (fold_legend_keys data []).
  - intros l. apply sorted_stable.
Qed.

(** ** What the walk paints *)

Lemma effective_fill_attrib e e' :
  attrib e = attrib e' -> effective_fill e = effective_fill e'.
Proof. intros H. unfold effective_fill, elem_get. now rewrite H. Qed.

Lemma effective_fill_set e c :
  clean_value c = true -> effective_fill (set_fill_color e c) = Some c.
Proof.
  intros Hc. destruct (truthy (elem_get e "style")) eqn:Hs.
  - rewrite (set_fill_color_style e c Hs). unfold effective_fill.
    rewrite elem_get_set_same, reparse_fill by exact Hc.
    now rewrite get_set_same.
  - rewrite (set_fill_color_bare e c Hs). unfold effective_fill.
    rewrite elem_get_set_other by discriminate.
    rewrite elem_get_set_same.
    now destruct (elem_get e "style") as [[|a s]|].
Qed.

Lemma painted_color_elem data dflt p p' :
  clean_colors data = true -> clean_value dflt = true ->
  attrib p' = attrib (color_elem data dflt p) ->
  painted data dflt p p'.
Proof.
  intros Hclean Hd Ha. unfold painted, resolved_color.
  rewrite color_elem_cases in Ha.
  pose proof (resolve_color_in_catalog data p) as Hc.
  assert (Hdef : attrib p' = attrib (apply_default dflt p) ->
                 if wants_default p then effective_fill p' = Some dflt
                 else attrib p' = attrib p).
  { unfold apply_default. destruct (wants_default p); [|auto].
    intros H. rewrite (effective_fill_attrib _ _ H).
    now apply effective_fill_set. }
  destruct (resolve data p) as [[|a c] code|[|a c] code|];
    try (now apply Hdef);
    destruct Hc as (info & Hin & Hcol);
    rewrite (effective_fill_attrib _ _ Ha);
    apply effective_fill_set; rewrite <- Hcol;
    now apply (clean_colors_In data code info).
Qed.

Lemma color_paths_map data dflt st l :
  snd (color_paths data dflt st l) = map (color_elem data dflt) l.
Proof.
  revert st. induction l as [|p r IH]; intros st; [reflexivity|].
  cbn [color_paths map].
  pose proof (color_path_elem data dflt st p) as He.
  destruct (color_path data dflt st p) as [st1 p'].
  specialize (IH st1). destruct (color_paths data dflt st1 r) as [st2 r'].
  cbn [snd] in *. now rewrite He, IH.
Qed.

Lemma painted_paths data dflt l l' :
  clean_colors data = true -> clean_value dflt = true ->
  Forall2 same_attrs l' (map (color_elem data dflt) l) ->
  Forall2 (painted data dflt) l l'.
Proof.
  intros Hclean Hd. revert l'. induction l as [|p r IH]; intros l' H.
  - inversion H. constructor.
  - cbn [map] in H. inversion H as [|p' e r' m' Hp Hr]; subst.
    constructor; [|now apply IH].
    apply painted_color_elem; try assumption. now destruct Hp as (_ & Ha & _).
Qed.

Section PaintedFacts.
Variable str_num : num -> string.

(** The paths of the returned document are those the walk left. *)
Lemma color_tree_findall data opts vb root t :
  is_path_tag t ->
  findall (fst (color_tree str_num data opts vb root)) t
  = findall (snd (walk_root data (default_color opts) (path_tag root)
                    walk_init root)) t.
Proof.
  intros Ht. unfold color_tree.
  destruct (walk_root data (default_color opts) (path_tag root) walk_init root)
    as [st root1].
  cbn [fst snd].
  assert (H2 : findall (if add_legend_flag opts
                        then add_legend str_num root1 data (legend_x opts)
                               (legend_y opts) vb
                        else root1) t = findall root1 t).
  { destruct (add_legend_flag opts); [now apply findall_add_legend|reflexivity]. }
  destruct (title_text opts) as [[|c s]|]; try exact H2.
  now rewrite findall_add_title.
Qed.
End PaintedFacts.

Lemma walk_steps_resolved data l st :
  colored_count (walk_steps data st l)
  = colored_count st
    + length (filter (fun p => match resolved_color data p with
                               | Some _ => true
                               | None => false
                               end) l).
Proof.
  revert st. induction l as [|p r IH]; intros st; simpl; [lia|].
  fold (walk_steps data (walk_step (resolve data p) st) r). rewrite IH.
  unfold resolved_color.
  destruct (resolve data p) as [[|a c] code|[|a c] code|]; simpl; lia.
Qed.

(** X17: with a default colour and catalog colours the codec can carry,
    every path the walk selects ends up as the loop intends: a path
    that resolves to a non-empty catalog colour shows that colour as
    its fill; any other path shows the default colour when its [fill]
    attribute is absent or empty and its style does not contain the
    text [fill:], and keeps all its attributes otherwise; and
    [colored] is the number of paths that resolve to a non-empty
    catalog colour. *)
Theorem color_tree_paints (str_num : num -> string) (data : catalog)
    (opts : options) (vb : viewbox) (root : element) :
  clean_colors data = true ->
  clean_value (default_color opts) = true ->
  let t := path_tag root in
  Forall2 (painted data (default_color opts))
          (findall root t)
          (findall (fst (color_tree str_num data opts vb root)) t)
  /\ colored (snd (color_tree str_num data opts vb root))
     = length (filter (fun p => match resolved_color data p with
                                | Some _ => true
                                | None => false
                                end) (findall root t)).
Proof.
  intros Hclean Hd t. subst t. split.
  - rewrite color_tree_findall by apply path_tag_is_path_tag.
    apply painted_paths; try assumption.
    destruct (walk_root_paths data (default_color opts) (path_tag root)
                root walk_init) as [_ Hp].
    now rewrite color_paths_map in Hp.
  - rewrite color_tree_stats. unfold make_stats. cbn [colored].
    now rewrite walk_root_state, walk_steps_resolved.
Qed.

Lemma color_tree_paints_witness :
  let data : catalog := [ ("US", {| color := "#3b82f6"; label := "US" |});
                          ("CA", {| color := "#ef4444"; label := "CA" |}) ] in
  let opts :=
    {| default_color := "#ececec"; add_legend_flag := true;
       title_text := Some "Map"; legend_x := NInt 50; legend_y := None |} in
  let vb : viewbox := (NInt 0, NInt 0, NInt 800, NInt 600) in
  let root :=
    Element "svg" [] None
      [ Element "path" [("id", "US"); ("style", "stroke:#000;fill:red")] None [];
        Element "path" [("class", "Canada"); ("fill", "red")] None [];
        Element "path" [("id", "FR")] None [];
        Element "path" [("id", "DE"); ("fill", "green")] None [] ] in
  clean_colors data = true
  /\ clean_value (default_color opts) = true
  /\ map effective_fill
       (findall (fst (color_tree (fun _ => "0") data opts vb root)) "path")
     = [Some "#3b82f6"; Some "#ef4444"; Some "#ececec"; Some "green"]
  /\ Forall2 (painted data (default_color opts))
       (findall root (path_tag root))
       (findall (fst (color_tree (fun _ => "0") data opts vb root))
          (path_tag root))
  /\ colored (snd (color_tree (fun _ => "0") data opts vb root)) = 2.
Proof.
  intros data opts vb root.
  assert (H1 : clean_colors data = true) by reflexivity.
  assert (H2 : clean_value (default_color opts) = true) by reflexivity.
  split; [exact H1|]. split; [exact H2|]. split; [reflexivity|].
  destruct (color_tree_paints (fun _ => "0") data opts vb root H1 H2)
    as [Hp Hc].
  split; [exact Hp|]. rewrite Hc. reflexivity.
Defined.

(** ** The alias table *)

Lemma class_to_code_swap :
  class_to_code = map (fun kv => (snd kv, fst kv)) MULTI_PATH_CLASSES.
Proof. reflexivity. Qed.

Lemma class_to_code_inverse cls code :
  get cls class_to_code = Some code
  <-> get code MULTI_PATH_CLASSES = Some cls.
Proof.
  assert (W1 : wf MULTI_PATH_CLASSES).
  { unfold wf. simpl. repeat constructor; simpl; intuition discriminate. }
  assert (W2 : wf class_to_code).
  { unfold wf. simpl. repeat constructor; simpl; intuition discriminate. }
  split; intros H.
  - apply (wf_get_In _ _ _ W1). apply get_In in H.
    rewrite class_to_code_swap in H. apply in_map_iff in H.
    destruct H as ([k v] & [= <- <-] & Hin). exact Hin.
  - apply (wf_get_In _ _ _ W2). apply get_In in H.
    rewrite class_to_code_swap. apply in_map_iff.
    exists (code, cls). split; [reflexivity|exact H].
Qed.

(** X18: a path resolves through its class exactly when its trimmed id
    is no code of the catalog, its trimmed class is the name the alias
    table gives to some code, and that code is in the catalog; the
    colour and the code are then those of that catalog entry. A path
    whose trimmed id is a code of the catalog resolves by id, whatever
    its class. *)
Theorem resolve_by_class (data : catalog) (p : element) (c code : string) :
  (resolve data p = ByClass c code
   <-> get (strip (elem_get_default p "id" "")) data = None
       /\ get code MULTI_PATH_CLASSES
          = Some (strip (elem_get_default p "class" ""))
       /\ exists info, get code data = Some info /\ color info = c)
  /\ (forall info,
        get (strip (elem_get_default p "id" "")) data = Some info ->
        resolve data p
        = ById (color info) (strip (elem_get_default p "id" ""))).
Proof.
  split.
  - unfold resolve. split.
    + destruct (get (strip (elem_get_default p "id" "")) data); [discriminate|].
      destruct (get (strip (elem_get_default p "class" "")) class_to_code)
        as [code'|] eqn:Ecls; [|discriminate].
      destruct (get code' data) as [info|] eqn:Ed; [|discriminate].
      intros [= <- <-]. split; [reflexivity|].
      split; [now apply class_to_code_inverse|].
      now exists info.
    + intros (Hid & Hcls & info & Hd & Hc). rewrite Hid.
      apply class_to_code_inverse in Hcls. rewrite Hcls, Hd. now rewrite Hc.
  - intros info H. unfold resolve. now rewrite H.
Qed.

(** ** The codec as a normal form *)

(** X3: parsing a style and serializing it gives a normal form of the
    style: parsing the normal form gives the same map again, and
    serializing that map gives the normal form again, whatever the
    style string was. *)
Theorem parse_style_normalizes (s : string) :
  parse_style (style_to_string (parse_style s)) = parse_style s
  /\ style_to_string (parse_style (style_to_string (parse_style s)))
     = style_to_string (parse_style s).
Proof.
  assert (H : parse_style (style_to_string (parse_style s)) = parse_style s)
    by (apply reparse_clean; [apply parse_style_wf|apply parse_style_clean]).
  split; [exact H|now rewrite H].
Qed.

(** * The second run, on the written document *)

(** ** Names read back *)

Lemma startswith_skip pre s :
  startswith pre s = true -> s = pre ++ skip pre s.
Proof.
  revert s. induction pre as [|a pre IH]; intros s; [reflexivity|].
  destruct s as [|b s]; [discriminate|]. simpl.
  intros H. apply andb_prop in H as [Hab Hs].
  apply Ascii.eqb_eq in Hab. subst b. f_equal. now apply IH.
Qed.

Lemma in_svg_ns_skip k : in_svg_ns k = true -> k = SVG_NS ++ skip SVG_NS k.
Proof.
  unfold in_svg_ns. intros H. apply andb_prop in H as [H _].
  now apply startswith_skip.
Qed.

Lemma in_svg_ns_get (a : dict string) k :
  existsb in_svg_ns (keys a) = false -> in_svg_ns k = true -> get k a = None.
Proof.
  induction a as [|[k0 v] r IH]; [reflexivity|].
  cbn [keys map fst existsb get]. intros H Hk.
  apply orb_false_elim in H as [H0 Hr].
  destruct (String.eqb_spec k0 k) as [->|_]; [congruence|].
  now apply IH.
Qed.

(** An attribute name outside the SVG namespace is found after the
    round trip where it was before, unless the same name inside the
    namespace was there as well. *)
Lemma get_reread_attrs (a : dict string) k :
  in_svg_ns k = false -> get (SVG_NS ++ k) a = None ->
  get k (reread_attrs a) = get k a.
Proof.
  intros Hk. induction a as [|[k0 v] r IH]; [reflexivity|].
  cbn [reread_attrs map fst snd get]. fold (reread_attrs r).
  destruct (String.eqb_spec k0 (SVG_NS ++ k)) as [E|E]; [discriminate|].
  intros Hr. rewrite (IH Hr). unfold reread_key.
  destruct (in_svg_ns k0) eqn:E0; [|reflexivity].
  destruct (String.eqb_spec (skip SVG_NS k0) k) as [E1|E1].
  - exfalso. apply E. rewrite <- E1. now apply in_svg_ns_skip.
  - destruct (String.eqb_spec k0 k) as [E2|E2]; [congruence|reflexivity].
Qed.

Lemma plain_get_reread_attrs (a : dict string) k :
  existsb in_svg_ns (keys a) = false ->
  in_svg_ns k = false -> in_svg_ns (SVG_NS ++ k) = true ->
  get k (reread_attrs a) = get k a.
Proof.
  intros Ha Hk Hq. apply get_reread_attrs; [exact Hk|].
  now apply in_svg_ns_get.
Qed.

Lemma braced_not_path t :
  startswith "{" t = true -> String.eqb t "path" = false.
Proof.
  destruct t as [|a t]; [discriminate|]. cbn [startswith].
  intros H. apply andb_prop in H as [H _]. apply Ascii.eqb_eq in H.
  subst a. reflexivity.
Qed.

Lemma unbraced_not_svg_path t :
  startswith "{" t = false -> String.eqb t SVG_PATH = false.
Proof.
  destruct t as [|a t]; [reflexivity|]. cbn [startswith].
  rewrite andb_true_r. intros H.
  destruct (String.eqb_spec (String a t) SVG_PATH) as [E|E]; [|reflexivity].
  unfold SVG_PATH in E. injection E as -> _.
  rewrite Ascii.eqb_refl in H. discriminate.
Qed.

(** The elements the second run finds under the namespaced tag are the
    namespaced paths of the written tree and, when the namespace was
    declared, its plain paths as well. *)
Lemma reread_tag_svg_path c t :
  String.eqb (reread_tag c t) SVG_PATH
  = String.eqb t SVG_PATH || (c && String.eqb t "path").
Proof.
  unfold reread_tag. destruct c; cbn [andb]; [|now rewrite orb_false_r].
  destruct (startswith "{" t) eqn:E; cbn [negb].
  - now rewrite (braced_not_path t E), orb_false_r.
  - rewrite (unbraced_not_svg_path t E). cbn [orb].
    destruct (String.eqb_spec t "path") as [->|Hne]; [reflexivity|].
    destruct (String.eqb_spec (SVG_NS ++ t) SVG_PATH) as [H|H];
      [|reflexivity].
    exfalso. apply Hne. unfold SVG_NS, SVG_PATH in H. simpl in H.
    now injection H.
Qed.

Lemma reread_tag_path c t :
  String.eqb (reread_tag c t) "path" = negb c && String.eqb t "path".
Proof.
  unfold reread_tag. destruct c; cbn [andb negb]; [|reflexivity].
  destruct (startswith "{" t) eqn:E; cbn [negb].
  - now apply braced_not_path.
  - reflexivity.
Qed.

(** ** Lists in step *)

Lemma Forall2_filter_rel {A B} (R : A -> B -> Prop)
    (f : A -> bool) (g : B -> bool) l l' :
  (forall a b, R a b -> g b = f a) ->
  Forall2 R l l' -> Forall2 R (filter f l) (filter g l').
Proof.
  intros Hfg. induction 1 as [|a b r r' Hab Hr IH]; [constructor|].
  simpl. rewrite (Hfg a b Hab). destruct (f a); [constructor|]; assumption.
Qed.

Lemma Forall2_compose {A B C} (R : A -> B -> Prop) (S : B -> C -> Prop)
    (P : A -> Prop) (T : A -> C -> Prop) l m n :
  (forall a b c, P a -> R a b -> S b c -> T a c) ->
  Forall P l -> Forall2 R l m -> Forall2 S m n -> Forall2 T l n.
Proof.
  intros HT HP HR. revert n HP.
  induction HR as [|a b r r' Hab Hr IH]; intros n HP HS.
  - inversion HS. constructor.
  - inversion HS as [|b' c m' n' Hbc Hs]; subst.
    inversion HP as [|a' l' Pa Pr]; subst.
    constructor; [now apply (HT a b c)|now apply IH].
Qed.

Lemma Forall2_Forall_l {A B} (R : A -> B -> Prop) (Q : B -> Prop)
    (P : A -> Prop) l m :
  (forall a b, R a b -> Q b -> P a) ->
  Forall2 R l m -> Forall Q m -> Forall P l.
Proof.
  intros H. induction 1 as [|a b r r' Hab Hr IH]; intros HQ; [constructor|].
  inversion HQ as [|b' m' Qb Qr]; subst.
  constructor; [now apply (H a b)|now apply IH].
Qed.

Lemma filter_none {A} (f : A -> bool) l :
  Forall (fun a => f a = false) l -> filter f l = [].
Proof.
  induction 1 as [|a r Ha Hr IH]; [reflexivity|]. simpl. now rewrite Ha.
Qed.

Lemma filter_nil_Forall {A} (f : A -> bool) l :
  filter f l = [] -> Forall (fun a => f a = false) l.
Proof.
  induction l as [|a r IH]; [constructor|]. simpl.
  destruct (f a) eqn:E; [discriminate|]. intros H.
  constructor; [exact E|now apply IH].
Qed.

Lemma filter_orb_nil_l {A} (f g : A -> bool) l :
  filter f l = [] -> filter (fun a => f a || g a) l = filter g l.
Proof.
  intros H. apply filter_nil_Forall in H.
  induction H as [|a r Ha Hr IH]; [reflexivity|].
  simpl. now rewrite Ha, IH.
Qed.

Lemma filter_orb_nil_r {A} (f g : A -> bool) l :
  filter g l = [] -> filter (fun a => f a || g a) l = filter f l.
Proof.
  intros H. apply filter_nil_Forall in H.
  induction H as [|a r Ha Hr IH]; [reflexivity|].
  simpl. now rewrite Ha, orb_false_r, IH.
Qed.

Lemma iter_cons e : iter e = e :: flat_map iter (children e).
Proof. now destruct e. Qed.

(** ** The paths of the second run *)

(** With one kind of path only, the selection is all the paths there
    are. *)
Lemma findall_path_tag root :
  findall root SVG_PATH = [] \/ findall root "path" = [] ->
  findall root (path_tag root)
  = (findall root SVG_PATH ++ findall root "path")%list.
Proof.
  unfold path_tag. destruct (findall root SVG_PATH) as [|p r] eqn:E.
  - intros _. reflexivity.
  - intros [H|H]; [discriminate|]. now rewrite H, app_nil_r.
Qed.

Lemma resolve_reread_path data c e e' :
  reread_path c e e' -> resolve data e' = resolve data e.
Proof.
  intros (_ & Hid & Hcl). unfold resolve, elem_get_default.
  now rewrite Hid, Hcl.
Qed.

Lemma walk_steps_reread_path data c l l' st :
  Forall2 (reread_path c) l l' ->
  walk_steps data st l' = walk_steps data st l.
Proof.
  intros H. revert st. induction H as [|e e' r r' He Hr IH]; intros st;
    [reflexivity|].
  simpl. rewrite (resolve_reread_path data c e e' He). apply IH.
Qed.

Lemma layout_not_reread_path c l l' t :
  is_path_tag t ->
  Forall (fun e => layout_tag e = true) l ->
  Forall2 (reread_node c) l l' ->
  filter (fun e => String.eqb (tag e) t) l' = [].
Proof.
  intros Ht Hl H. apply filter_none.
  apply (Forall2_Forall_l (fun e' e => reread_node c e e')
           (fun e => layout_tag e = true) _ l' l).
  - intros e' e (Htag & _) Hlay. rewrite Htag.
    unfold layout_tag in Hlay.
    assert (Hp : String.eqb (tag e) "path" = false).
    { destruct (String.eqb_spec (tag e) "path") as [E|E]; [|reflexivity].
      rewrite E in Hlay. discriminate. }
    assert (Hs : String.eqb (tag e) SVG_PATH = false).
    { destruct (String.eqb_spec (tag e) SVG_PATH) as [E|E]; [|reflexivity].
      rewrite E in Hlay. discriminate. }
    destruct Ht as [-> | ->].
    + now rewrite reread_tag_svg_path, Hs, Hp, andb_false_r.
    + now rewrite reread_tag_path, Hp, andb_false_r.
  - clear Hl. induction H; constructor; assumption.
  - exact Hl.
Qed.

Section SecondRun.
Variable str_num : num -> string.
Variables (data : catalog) (opts : options).

(** What the second run reads of the elements the first run walked. *)
Lemma reread_walked c t l walked l' :
  Forall (fun e => existsb in_svg_ns (keys (attrib e)) = false) l ->
  Forall2 (only_fill_changed t) l walked ->
  Forall2 (reread_node c) walked l' ->
  Forall2 (reread_path c) l l'.
Proof.
  apply Forall2_compose.
  intros e e1 e2 Hplain (Htag & _ & _ & Hget & _) (Htag2 & Hget2 & _).
  assert (Hname : forall k,
             k <> "fill" -> k <> "style" -> SVG_NS ++ k <> "fill" ->
             SVG_NS ++ k <> "style" -> in_svg_ns k = false ->
             in_svg_ns (SVG_NS ++ k) = true ->
             elem_get e2 k = elem_get e k).
  { intros k H1 H2 H3 H4 H5 H6. rewrite Hget2.
    rewrite get_reread_attrs; [now apply Hget|exact H5|].
    change (get (SVG_NS ++ k) (attrib e1)) with (elem_get e1 (SVG_NS ++ k)).
    rewrite Hget by assumption.
    now apply in_svg_ns_get. }
  split; [now rewrite Htag2, Htag|].
  split; apply Hname; (reflexivity || discriminate).
Qed.

(** The second run reads the view box the first run read. *)
Lemma get_viewbox_reread c root root' doc :
  attrib root' = attrib root ->
  existsb in_svg_ns (keys (attrib root)) = false ->
  reread_node c root' doc ->
  get_viewbox doc = get_viewbox root.
Proof.
  intros Ha Hplain (_ & Hget & _).
  assert (Hname : forall k, in_svg_ns k = false ->
                            in_svg_ns (SVG_NS ++ k) = true ->
                            elem_get doc k = elem_get root k).
  { intros k H1 H2. rewrite Hget, Ha.
    now apply plain_get_reread_attrs. }
  unfold get_viewbox, viewbox_from_size, elem_get_default.
  now rewrite !Hname by reflexivity.
Qed.

(** The counters of the second run, on any document the written one
    can be read back as. *)
Lemma walk_reread vb root doc :
  reread_of (fst (color_tree str_num data opts vb root)) doc ->
  plain_attribs root = true ->
  findall root SVG_PATH = [] \/ findall root "path" = [] ->
  walk_steps data walk_init (findall doc (path_tag doc))
  = walk_steps data walk_init (findall root (path_tag root)).
Proof.
  intros Hrr Hplain Hmix.
  destruct (color_tree_nodes str_num data opts vb root)
    as (_ & _ & _ & walked & added & Hi & Hf & Hl & _).
  set (root' := fst (color_tree str_num data opts vb root)) in *.
  unfold reread_of in Hrr. rewrite (iter_cons root'), (iter_cons doc) in Hrr.
  inversion Hrr as [|r d tr td _ Hrest]; subst r d tr td. clear Hrr.
  assert (Hc : uses_svg_ns root' = false ->
               Forall (fun e => in_svg_ns (tag e) = false) walked).
  { unfold uses_svg_ns. rewrite (iter_cons root'), Hi. cbn [existsb].
    intros H. apply orb_false_elim in H as [_ H].
    rewrite existsb_app in H. apply orb_false_elim in H as [H _].
    apply Forall_forall. intros e He.
    destruct (in_svg_ns (tag e)) eqn:E; [|reflexivity].
    assert (X : existsb
                  (fun e => in_svg_ns (tag e)
                            || existsb in_svg_ns (keys (attrib e)))
                  walked = true).
    { apply existsb_exists. exists e. split; [exact He|]. now rewrite E. }
    congruence. }
  set (c := uses_svg_ns root') in *.
  rewrite Hi in Hrest.
  apply Forall2_app_inv_l in Hrest as (dw & da & Hw & Hadd & Hd).
  assert (Hp : Forall (fun e => existsb in_svg_ns (keys (attrib e)) = false)
                      (flat_map iter (children root))).
  { unfold plain_attribs in Hplain. rewrite iter_cons in Hplain.
    cbn [forallb] in Hplain. apply andb_prop in Hplain as [_ Hplain].
    rewrite forallb_forall in Hplain. apply Forall_forall.
    intros e He. apply Hplain in He. now destruct (existsb in_svg_ns _). }
  pose proof (reread_walked c (path_tag root) _ walked dw Hp Hf Hw) as Hk.
  assert (Hdoc : forall t, is_path_tag t ->
                           findall doc t
                           = filter (fun e => String.eqb (tag e) t) dw).
  { intros t Ht. unfold findall. rewrite Hd, filter_app.
    rewrite (layout_not_reread_path c added da t Ht Hl Hadd).
    apply app_nil_r. }
  assert (HN : Forall2 (reread_path c)
                 (filter (fun e => String.eqb (tag e) SVG_PATH
                                   || (c && String.eqb (tag e) "path"))
                         (flat_map iter (children root)))
                 (findall doc SVG_PATH)).
  { rewrite Hdoc by (now left). apply Forall2_filter_rel; [|exact Hk].
    intros e e' (Ht & _). rewrite Ht. apply reread_tag_svg_path. }
  assert (HP : Forall2 (reread_path c)
                 (filter (fun e => negb c && String.eqb (tag e) "path")
                         (flat_map iter (children root)))
                 (findall doc "path")).
  { rewrite Hdoc by (now right). apply Forall2_filter_rel; [|exact Hk].
    intros e e' (Ht & _). rewrite Ht. apply reread_tag_path. }
  assert (Hsel : Forall2 (reread_path c)
                   (findall root SVG_PATH ++ findall root "path")%list
                   (findall doc SVG_PATH ++ findall doc "path")%list
                 /\ (findall doc SVG_PATH = [] \/ findall doc "path" = [])).
  { destruct c eqn:Ec.
    - cbn [negb andb] in HN, HP.
      rewrite filter_none in HP by (apply Forall_forall; reflexivity).
      inversion HP as [HP'|]. rewrite app_nil_r. split; [|now right].
      unfold findall at 1 2.
      destruct Hmix as [Hm|Hm]; unfold findall in Hm; rewrite Hm.
      + now rewrite filter_orb_nil_l in HN by exact Hm.
      + rewrite app_nil_r. now rewrite filter_orb_nil_r in HN by exact Hm.
    - cbn [negb andb] in HN, HP.
      assert (Hno : findall root SVG_PATH = []).
      { unfold findall. apply filter_none.
        apply (Forall2_Forall_l (only_fill_changed (path_tag root))
                 (fun e => in_svg_ns (tag e) = false) _ _ walked);
          [|exact Hf|now apply Hc].
        intros e e1 (Ht & _) Hns. rewrite Ht in Hns.
        destruct (String.eqb_spec (tag e) SVG_PATH) as [E|E]; [|reflexivity].
        rewrite E in Hns. discriminate. }
      assert (HN' : findall doc SVG_PATH = []).
      { erewrite filter_ext in HN
          by (intros e; apply orb_false_r).
        fold (findall root SVG_PATH) in HN. rewrite Hno in HN.
        now inversion HN. }
      rewrite Hno, HN'. split; [|now left]. exact HP. }
  destruct Hsel as [Hsel Hone].
  rewrite (findall_path_tag doc Hone), (findall_path_tag root Hmix).
  now apply (walk_steps_reread_path data c).
Qed.
End SecondRun.

(** ** Idempotence through the file *)

(** C6 as stated fails: next to a namespaced path, a path without
    namespace is not selected by the first run, but it is written under
    the default namespace declaration and read back as a namespaced
    path, so the second run colours it too. *)
Lemma color_document_reread_counterexample :
  let sn : num -> string := fun _ => "0" in
  let data : catalog :=
    [ ("US", {| color := "#3b82f6"; label := "US" |});
      ("CA", {| color := "#ef4444"; label := "CA" |}) ] in
  let opts :=
    {| default_color := "#ececec"; add_legend_flag := false;
       title_text := None; legend_x := NInt 50; legend_y := None |} in
  let root :=
    Element "{http://www.w3.org/2000/svg}svg" [] None
      [ Element "{http://www.w3.org/2000/svg}path" [("id", "US")] None [];
        Element "path" [("id", "CA")] None [] ] in
  let written :=
    Element "{http://www.w3.org/2000/svg}svg" [] None
      [ Element "{http://www.w3.org/2000/svg}path"
          [("id", "US"); ("fill", "#3b82f6")] None [];
        Element "path" [("id", "CA")] None [] ] in
  let doc :=
    Element "{http://www.w3.org/2000/svg}svg" [] None
      [ Element "{http://www.w3.org/2000/svg}path"
          [("id", "US"); ("fill", "#3b82f6")] None [];
        Element "{http://www.w3.org/2000/svg}path" [("id", "CA")] None [] ] in
  let recolored :=
    Element "{http://www.w3.org/2000/svg}svg" [] None
      [ Element "{http://www.w3.org/2000/svg}path"
          [("id", "US"); ("fill", "#3b82f6")] None [];
        Element "{http://www.w3.org/2000/svg}path"
          [("id", "CA"); ("fill", "#ef4444")] None [] ] in
  color_document sn data opts root
  = inr (written,
         {| colored := 1; multi_path := 0; unmatched := 1;
            unmatched_codes := ["CA"] |})
  /\ reread_of written doc
  /\ reread written = doc
  /\ color_document sn data opts doc
     = inr (recolored,
            {| colored := 2; multi_path := 0; unmatched := 0;
               unmatched_codes := [] |}).
Proof.
  cbv zeta. split; [reflexivity|]. split; [|split; reflexivity].
  unfold reread_of.
  repeat (constructor;
          [split; [reflexivity|split; [intros k; reflexivity|reflexivity]]|]).
  constructor.
Qed.

(** C6 (amended): take a document in which no attribute name lies in
    the SVG namespace and which does not hold both namespaced and plain
    paths. When a run of the engine returns, the second run, with the
    same catalog and options on a document the written file is read
    back as, returns as well, with the same [colored] and [unmatched]
    counts and the same statistics altogether. *)
Theorem color_document_reread (str_num : num -> string) (data : catalog)
    (opts : options) (root root' doc : element) (stats : ColorStats) :
  color_document str_num data opts root = inr (root', stats) ->
  reread_of root' doc ->
  plain_attribs root = true ->
  findall root SVG_PATH = [] \/ findall root "path" = [] ->
  exists root'' stats',
    color_document str_num data opts doc = inr (root'', stats')
    /\ colored stats' = colored stats
    /\ unmatched stats' = unmatched stats
    /\ stats' = stats.
Proof.
  unfold color_document. intros H Hrr Hplain Hmix.
  destruct (get_viewbox root) as [e|vb] eqn:Hvb; [discriminate|].
  injection H as Hc.
  assert (Hr : root' = fst (color_tree str_num data opts vb root))
    by now rewrite Hc.
  assert (Hs : stats = snd (color_tree str_num data opts vb root))
    by now rewrite Hc.
  destruct (color_tree_output str_num data opts vb root) as [Ha _].
  rewrite <- Hr in Ha.
  assert (Hroot : reread_node (uses_svg_ns root') root' doc).
  { unfold reread_of in Hrr.
    rewrite (iter_cons root'), (iter_cons doc) in Hrr.
    now inversion Hrr. }
  assert (Hp : existsb in_svg_ns (keys (attrib root)) = false).
  { unfold plain_attribs in Hplain. rewrite iter_cons in Hplain.
    cbn [forallb] in Hplain. apply andb_prop in Hplain as [Hplain _].
    now destruct (existsb in_svg_ns (keys (attrib root))). }
  rewrite (get_viewbox_reread _ root root' doc Ha Hp Hroot), Hvb.
  exists (fst (color_tree str_num data opts vb doc)),
         (snd (color_tree str_num data opts vb doc)).
  split; [now rewrite <- surjective_pairing|].
  assert (E : snd (color_tree str_num data opts vb doc) = stats).
  { rewrite Hs, !color_tree_stats, !walk_root_state. f_equal.
    apply (walk_reread str_num data opts vb root doc);
      [now rewrite <- Hr|exact Hplain|exact Hmix]. }
  rewrite E. repeat split.
Qed.

Lemma color_document_reread_witness :
  let sn : num -> string := fun _ => "0" in
  let data : catalog :=
    [ ("US", {| color := "#3b82f6"; label := "United States" |});
      ("CA", {| color := "#ef4444"; label := "Canada" |});
      ("ZZ", {| color := "#000000"; label := "Nowhere" |}) ] in
  let opts :=
    {| default_color := "#ececec"; add_legend_flag := true;
       title_text := Some "World"; legend_x := NInt 50; legend_y := None |} in
  let root :=
    Element "{http://www.w3.org/2000/svg}svg" [("viewBox", "0 0 1000 500")] None
      [ Element SVG_PATH [("id", "US"); ("style", "stroke:#000")] None [];
        Element "{http://www.w3.org/2000/svg}g" [] None
          [ Element SVG_PATH [("class", "Canada")] None [];
            Element SVG_PATH [("class", "Canada")] None [];
            Element SVG_PATH [("id", "FR")] None [] ] ] in
  let vb : viewbox :=
    (NFloat (FDec false 0 0), NFloat (FDec false 0 0),
     NFloat (FDec false 1000 0), NFloat (FDec false 500 0)) in
  let root' := fst (color_tree sn data opts vb root) in
  let stats := snd (color_tree sn data opts vb root) in
  let doc := reread root' in
  color_document sn data opts root = inr (root', stats)
  /\ reread_of root' doc
  /\ plain_attribs root = true
  /\ (findall root SVG_PATH = [] \/ findall root "path" = [])
  /\ map tag (children doc)
     = [ SVG_PATH; "{http://www.w3.org/2000/svg}g";
         "{http://www.w3.org/2000/svg}g"; "{http://www.w3.org/2000/svg}text" ]
  /\ colored stats = 3
  /\ unmatched stats = 1
  /\ exists root'' stats',
       color_document sn data opts doc = inr (root'', stats')
       /\ colored stats' = colored stats
       /\ unmatched stats' = unmatched stats
       /\ stats' = stats.
Proof.
  intros sn data opts root vb root' stats doc.
  assert (H1 : color_document sn data opts root = inr (root', stats))
    by reflexivity.
  assert (H2 : reread_of root' doc).
  { unfold reread_of.
    repeat (constructor;
            [split; [reflexivity|split; [intros k; reflexivity|reflexivity]]|]).
    constructor. }
  assert (H3 : plain_attribs root = true) by reflexivity.
  assert (H4 : findall root SVG_PATH = [] \/ findall root "path" = [])
    by (right; reflexivity).
  split; [exact H1|]. split; [exact H2|]. split; [exact H3|].
  split; [exact H4|]. split; [reflexivity|].
  split; [reflexivity|]. split; [reflexivity|].
  exact (color_document_reread sn data opts root root' doc stats H1 H2 H3 H4).
Defined.
